(** * The preview backend of [fly-backend/server.js] and its browser facade

    A shallow embedding of the session registry, the file endpoints, the
    command endpoint, the WebSocket hub and the idle clean-up timer of
    [src/fly-backend/server.js], together with the [fs.rm] call of the
    browser-side [FlyContainer] ([src/app/lib/webcontainer/index.ts]).

    The server is one event loop: every callback of the source (a route
    handler, a WebSocket listener, the [exec] completion callback, a timer)
    is one atomic transition of an explicit [server] state.  Container
    objects live in a heap and are named by references, because the
    WebSocket listeners and the [exec] callback close over the container
    object they were given, not over the registry entry.  *)

From Stdlib Require Import ZArith NArith Ascii.
From stdpp Require Import gmap strings list fin_maps.

Open Scope Z_scope.
Open Scope nat_scope.

(** ** POSIX paths of the host ([require('path')])

    [path.join] and [path.dirname] belong to the Node runtime.  They are
    written here on strings, segment by segment, the way
    [path.posix.normalize], [path.posix.join] and [path.posix.dirname]
    work. *)
Module Path.

Definition is_sep (c : ascii) : bool := bool_decide (c = "/"%char).

(** [s.split('/')] *)
Fixpoint split_slash (s : string) : list string :=
  match s with
  | EmptyString => [EmptyString]
  | String c r =>
      if is_sep c then EmptyString :: split_slash r
      else match split_slash r with
           | [] => [String c EmptyString]
           | h :: t => String c h :: t
           end
  end.

(** [segs.join('/')] *)
Fixpoint join_slash (segs : list string) : string :=
  match segs with
  | [] => ""
  | [s] => s
  | s :: rest => s +:+ "/" +:+ join_slash rest
  end.

(** [normalizeString]: the result is kept as a stack, most recent segment
    first.  Empty segments and ["."] are skipped; [".."] pops the last
    segment, and at the top of the tree it is dropped for an absolute path
    and kept for a relative one. *)
Fixpoint normalizeString (allowAboveRoot : bool) (res segs : list string)
  : list string :=
  match segs with
  | [] => reverse res
  | s :: rest =>
      if bool_decide (s = "" ∨ s = ".") then
        normalizeString allowAboveRoot res rest
      else if bool_decide (s = "..") then
        match res with
        | top :: res' =>
            if bool_decide (top = "..")
            then normalizeString allowAboveRoot (".." :: res) rest
            else normalizeString allowAboveRoot res' rest
        | [] =>
            if allowAboveRoot
            then normalizeString allowAboveRoot [".."] rest
            else normalizeString allowAboveRoot [] rest
        end
      else normalizeString allowAboveRoot (s :: res) rest
  end.

Definition isAbsolute (p : string) : bool :=
  match p with
  | String c _ => is_sep c
  | EmptyString => false
  end.

Fixpoint trailingSeparator (p : string) : bool :=
  match p with
  | EmptyString => false
  | String c EmptyString => is_sep c
  | String _ r => trailingSeparator r
  end.

(** [path.posix.normalize] *)
Definition normalize (p : string) : string :=
  if bool_decide (p = "") then "."
  else
    let path := join_slash (normalizeString (negb (isAbsolute p)) [] (split_slash p)) in
    if bool_decide (path = "") then
      if isAbsolute p then "/"
      else if trailingSeparator p then "./" else "."
    else
      let path := if trailingSeparator p then path +:+ "/" else path in
      if isAbsolute p then "/" +:+ path else path.

(** [path.posix.join] with two arguments: the non-empty arguments are
    glued with a slash and the result is normalized. *)
Definition join (a b : string) : string :=
  let joined :=
    if bool_decide (a = "") then b
    else if bool_decide (b = "") then a
    else a +:+ "/" +:+ b in
  if bool_decide (joined = "") then "." else normalize joined.

Fixpoint drop_while {A} (f : A → bool) (l : list A) : list A :=
  match l with
  | [] => []
  | x :: l' => if f x then drop_while f l' else l
  end.

(** [path.posix.dirname]: scanning from the end down to index 1, trailing
    slashes are skipped, then the last component, and the path is cut at
    the slash before it. *)
Definition dirname (p : string) : string :=
  match p with
  | EmptyString => "."
  | String c0 rest =>
      let scanned :=
        drop_while (λ c, negb (is_sep c))
          (drop_while is_sep (reverse (Strings.String.list_ascii_of_string rest))) in
      match scanned with
      | [] => if is_sep c0 then "/" else "."
      | _ :: before =>
          if is_sep c0 && bool_decide (before = []) then "//"
          else String c0 (Strings.String.string_of_list_ascii (reverse before))
      end
  end.

(** The location an absolute path names on the host: its segments below
    the root (symbolic links are not modelled). *)
Definition resolve (p : string) : list string :=
  normalizeString false [] (split_slash p).

End Path.

(** ** The host file system ([require('fs')])

    A tree of files and directories keyed by resolved location; the root
    [[]] is always a directory.  Only the structural failures of the
    synchronous calls the server makes are modelled (a file where a
    directory is needed, a directory where a file is needed, a missing
    entry). *)
Module Fs.

Inductive node :=
| File (content : string)
| Dir.

Inductive errno := ENOENT | ENOTDIR | EISDIR | EEXIST.

Definition stat (d : gmap (list string) node) (k : list string) : option node :=
  match k with
  | [] => Some Dir
  | _ => d !! k
  end.

(** [fs.mkdirSync(p, { recursive: true })] walking down from the root:
    existing directories are kept, missing ones are created, a file on the
    way (or at the end) makes the call throw and nothing is created. *)
Fixpoint mkdir_from (d : gmap (list string) node) (pre rest : list string)
  : errno + gmap (list string) node :=
  match rest with
  | [] => inr d
  | s :: rest' =>
      match d !! (pre ++ [s]) with
      | Some (File _) => inl (match rest' with [] => EEXIST | _ => ENOTDIR end)
      | Some Dir => mkdir_from d (pre ++ [s]) rest'
      | None => mkdir_from (<[pre ++ [s] := Dir]> d) (pre ++ [s]) rest'
      end
  end.

Definition mkdirSync (d : gmap (list string) node) (p : string)
  : errno + gmap (list string) node :=
  mkdir_from d [] (Path.resolve p).

(** [fs.writeFileSync(p, content)]: the parent must be a directory and the
    target must not be one; a path written with a trailing slash names a
    directory and cannot be opened for writing. *)
Definition writeFileSync (d : gmap (list string) node) (p content : string)
  : errno + gmap (list string) node :=
  let k := Path.resolve p in
  match stat d k with
  | Some Dir => inl EISDIR
  | Some (File _) =>
      if Path.trailingSeparator p then inl ENOTDIR
      else inr (<[k := File content]> d)
  | None =>
      match stat d (removelast k) with
      | Some Dir =>
          if Path.trailingSeparator p then inl EISDIR
          else inr (<[k := File content]> d)
      | Some (File _) => inl ENOTDIR
      | None => inl ENOENT
      end
  end.

(** [fs.existsSync(p)] *)
Definition existsSync (d : gmap (list string) node) (p : string) : bool :=
  match stat d (Path.resolve p) with
  | Some Dir => true
  | Some (File _) => negb (Path.trailingSeparator p)
  | None => false
  end.

(** [fs.statSync(p).isFile()] for a path that exists *)
Definition isFile (d : gmap (list string) node) (p : string) : bool :=
  match stat d (Path.resolve p) with
  | Some (File _) => true
  | _ => false
  end.

(** [fs.readFileSync(p, 'utf-8')] *)
Definition readFileSync (d : gmap (list string) node) (p : string)
  : errno + string :=
  match stat d (Path.resolve p) with
  | Some (File content) =>
      if Path.trailingSeparator p then inl ENOTDIR else inr content
  | Some Dir => inl EISDIR
  | None => inl ENOENT
  end.

Definition message (e : errno) : string :=
  match e with
  | ENOENT => "ENOENT: no such file or directory"
  | ENOTDIR => "ENOTDIR: not a directory"
  | EISDIR => "EISDIR: illegal operation on a directory"
  | EEXIST => "EEXIST: file already exists"
  end.

End Fs.

(** ** The server state *)

(** [WebSocket.readyState] *)
Inductive readyState := CONNECTING | OPEN | CLOSING | CLOSED.

Inductive stream := Stdout | Stderr.

(** The [code] field of the error object [exec] hands to its callback: the
    exit status of the shell, a system error name, or nothing when the child
    was ended by a signal. *)
Inductive code :=
| CodeNumber (n : Z)
| CodeString (s : string)
| CodeNull.

(** The objects given to [broadcastToContainer]. *)
Inductive event :=
| RefreshPreview (previewId : string)
| PreviewReady (previewId url : string) (timestamp : N)
| FileChange (previewId path : string)
| ProcessCompleted (previewId processId : string) (exitCode : code)
    (stdout stderr : string)
| ProcessOutput (previewId processId output : string) (from : stream).

Definition event_previewId (e : event) : string :=
  match e with
  | RefreshPreview p | PreviewReady p _ _ | FileChange p _
  | ProcessCompleted p _ _ _ _ | ProcessOutput p _ _ _ => p
  end.

Definition is_process_completed (e : event) : bool :=
  match e with
  | ProcessCompleted _ _ _ _ _ => true
  | _ => false
  end.

(** The object built by [createContainer].  [clients] is a JavaScript [Set]
    of sockets (insertion order, no duplicates), [processes] maps a process
    identifier to the handle of its child process. *)
Record container := Container {
  container_id : string;
  dir : string;
  clients : list nat;
  files : gmap string string;
  processes : gmap string nat
}.

(** A socket accepted by the WebSocket server.  [listeners] holds what the
    ['message'] and ['close'] listeners closed over: the preview identifier
    and the container object; a socket turned away has none. *)
Record socket := Socket {
  ready : readyState;
  listeners : option (string * nat)
}.

(** A child started by [exec], with what its callback closed over. *)
Record child := Child {
  child_processId : string;
  child_previewId : string;
  child_container : nat;
  child_command : string;
  child_cwd : string;
  child_completed : bool
}.

Record server := Server {
  containers : gmap string nat;      (* const containers = new Map() *)
  heap : list container;             (* container objects, by reference *)
  disk : gmap (list string) Fs.node; (* the host file system *)
  sockets : list socket;             (* sockets, by handle *)
  children : list child;             (* child processes, by handle *)
  timers : list (N * string);        (* pending setTimeout: due time, previewId *)
  now : N                            (* Date.now(), in milliseconds *)
}.

Definition initial (d : gmap (list string) Fs.node) : server :=
  Server ∅ [] d [] [] [] 0%N.

Definition set_containers (f : gmap string nat → gmap string nat) (st : server) :=
  Server (f (containers st)) (heap st) (disk st) (sockets st) (children st)
    (timers st) (now st).
Definition set_heap (f : list container → list container) (st : server) :=
  Server (containers st) (f (heap st)) (disk st) (sockets st) (children st)
    (timers st) (now st).
Definition set_disk (d : gmap (list string) Fs.node) (st : server) :=
  Server (containers st) (heap st) d (sockets st) (children st)
    (timers st) (now st).
Definition set_sockets (f : list socket → list socket) (st : server) :=
  Server (containers st) (heap st) (disk st) (f (sockets st)) (children st)
    (timers st) (now st).
Definition set_children (f : list child → list child) (st : server) :=
  Server (containers st) (heap st) (disk st) (sockets st) (f (children st))
    (timers st) (now st).
Definition set_timers (f : list (N * string) → list (N * string)) (st : server) :=
  Server (containers st) (heap st) (disk st) (sockets st) (children st)
    (f (timers st)) (now st).
Definition set_now (t : N) (st : server) :=
  Server (containers st) (heap st) (disk st) (sockets st) (children st)
    (timers st) t.

(** ** What a callback does to the outside *)

Inductive fs_call :=
| MkdirSync (p : string)
| WriteFileSync (p content : string)
| ExistsSync (p : string)
| ReadFileSync (p : string).

Inductive reply :=
| JsonError (error : string)          (* { error } *)
| JsonSuccess                         (* { success: true } *)
| JsonContent (content : string)      (* { content } *)
| JsonProcessId (processId : string)  (* { processId } *)
| SendFile (p : string)
| Placeholder (previewId : string)    (* the "No content to display yet" page *)
| Text (s : string)
| NotRouted.                          (* Express found no route: "Cannot POST ..." *)

Inductive effect :=
| Respond (status : nat) (b : reply)
| Broadcast (previewId : string) (data : event) (* broadcastToContainer was called *)
| Send (ws : nat) (data : event)               (* client.send(message) *)
| CloseSocket (ws : nat)                       (* ws.close() *)
| FsCall (c : fs_call)
| Exec (command cwd : string).

Inductive exn :=
| FsError (e : Fs.errno)
| TypeError (msg : string).

Definition exn_message (e : exn) : string :=
  match e with
  | FsError e => Fs.message e
  | TypeError msg => msg
  end.

(** ** Callbacks as state transformers

    A callback runs on the state, leaves a log of effects and either
    returns or throws.  State changes and effects made before a throw stay
    (JavaScript does not roll back). *)
Definition M (A : Type) : Type := server → server * list effect * (exn + A).

Global Instance M_ret : MRet M := λ A a st, (st, [], inr a).
Global Instance M_bind : MBind M := λ A B f m st,
  match m st with
  | (st1, l1, inl e) => (st1, l1, inl e)
  | (st1, l1, inr a) =>
      match f a st1 with
      | (st2, l2, r) => (st2, l1 ++ l2, r)
      end
  end.

Definition throw {A} (e : exn) : M A := λ st, (st, [], inl e).
Definition try_catch {A} (m : M A) (h : exn → M A) : M A := λ st,
  match m st with
  | (st1, l1, inl e) =>
      match h e st1 with
      | (st2, l2, r) => (st2, l1 ++ l2, r)
      end
  | r => r
  end.
Definition gets {A} (f : server → A) : M A := λ st, (st, [], inr (f st)).
Definition modify (f : server → server) : M unit := λ st, (f st, [], inr ()).
Definition emit (e : effect) : M unit := λ st, (st, [e], inr ()).
Definition emits (l : list effect) : M unit := λ st, (st, l, inr ()).

Definition respond (status : nat) (b : reply) : M unit := emit (Respond status b).

(** Host calls, logged. *)
Definition mkdirSync (p : string) : M unit := λ st,
  match Fs.mkdirSync (disk st) p with
  | inl e => (st, [FsCall (MkdirSync p)], inl (FsError e))
  | inr d => (set_disk d st, [FsCall (MkdirSync p)], inr ())
  end.

Definition writeFileSync (p content : string) : M unit := λ st,
  match Fs.writeFileSync (disk st) p content with
  | inl e => (st, [FsCall (WriteFileSync p content)], inl (FsError e))
  | inr d => (set_disk d st, [FsCall (WriteFileSync p content)], inr ())
  end.

Definition existsSync (p : string) : M bool := λ st,
  (st, [FsCall (ExistsSync p)], inr (Fs.existsSync (disk st) p)).

Definition isFile (p : string) : M bool := gets (λ st, Fs.isFile (disk st) p).

Definition readFileSync (p : string) : M string := λ st,
  match Fs.readFileSync (disk st) p with
  | inl e => (st, [FsCall (ReadFileSync p)], inl (FsError e))
  | inr content => (st, [FsCall (ReadFileSync p)], inr content)
  end.

(** Container objects.  A reference handed out by [alloc] always names an
    object of the heap; the branches for a reference that names nothing are
    never taken on a state the server can reach. *)
Definition alloc (c : container) : M nat := λ st,
  (set_heap (λ h, h ++ [c]) st, [], inr (length (heap st))).

Definition deref (r : nat) : M container := λ st,
  match heap st !! r with
  | Some c => (st, [], inr c)
  | None => (st, [], inl (TypeError "Cannot read properties of undefined"))
  end.

Definition update (r : nat) (f : container → container) : M unit :=
  modify (set_heap (alter f r)).

Definition with_clients (f : list nat → list nat) (c : container) : container :=
  Container (container_id c) (dir c) (f (clients c)) (files c) (processes c).
Definition with_files (f : gmap string string → gmap string string) (c : container) :=
  Container (container_id c) (dir c) (clients c) (f (files c)) (processes c).
Definition with_processes (f : gmap string nat → gmap string nat) (c : container) :=
  Container (container_id c) (dir c) (clients c) (files c) (f (processes c)).

(** [Set.prototype.add] and [Set.prototype.delete] *)
Definition set_add (x : nat) (s : list nat) : list nat :=
  if bool_decide (x ∈ s) then s else s ++ [x].
Definition set_delete (x : nat) (s : list nat) : list nat :=
  filter (λ y, y ≠ x) s.

Global Instance readyState_eq_dec : EqDecision readyState.
Proof. solve_decision. Defined.

Definition is_open (socks : list socket) (ws : nat) : bool :=
  match socks !! ws with
  | Some s => bool_decide (ready s = OPEN)
  | None => false
  end.

(** ** [server.js] *)

(** [function createContainer(previewId)] *)
Definition createContainer (previewId : string) : M nat :=
  let containerDir := Path.join "/tmp" previewId in
  mkdirSync containerDir;;
  alloc (Container previewId containerDir [] ∅ ∅).

(** The pattern written out three times in the source:
    [let container = containers.get(previewId);
     if (!container) { container = createContainer(previewId);
                       containers.set(previewId, container); }] *)
Definition get_or_create (previewId : string) : M nat :=
  found ← gets (λ st, containers st !! previewId);
  match found with
  | Some r => mret r
  | None =>
      r ← createContainer previewId;
      modify (set_containers <[previewId := r]>);;
      mret r
  end.

(** [function broadcastToContainer(previewId, data)] *)
Definition broadcastToContainer (previewId : string) (data : event) : M unit :=
  emit (Broadcast previewId data);;
  found ← gets (λ st, containers st !! previewId);
  match found with
  | Some r =>
      obj ← gets (λ st, heap st !! r);
      match obj with
      | Some c =>
          socks ← gets sockets;
          emits ((λ ws, Send ws data) <$> filter (λ ws, is_open socks ws = true) (clients c))
      | None => mret ()
      end
  | None => mret ()
  end.

(** What [JSON.parse(message.toString())] gave: it threw (or gave [null],
    whose [type] cannot be read), or it gave a value whose [type] field is
    a string or is something else. *)
Inductive payload :=
| Unparsable
| Parsed (type : option string).

(** [wss.on('connection', (ws, req) => ...)]; [previewId] is
    [url.searchParams.get('previewId')], [null] when the parameter is
    absent.  The socket is the next handle and arrives open. *)
Definition on_connection (previewId : option string) : M unit :=
  ws ← gets (λ st, length (sockets st));
  match previewId with
  | None | Some "" =>
      modify (set_sockets (λ s, s ++ [Socket CLOSING None]));;
      emit (CloseSocket ws)
  | Some previewId =>
      modify (set_sockets (λ s, s ++ [Socket OPEN None]));;
      r ← get_or_create previewId;
      update r (with_clients (set_add ws));;
      modify (set_sockets (alter (λ s, Socket (ready s) (Some (previewId, r))) ws))
  end.

(** [ws.on('message', ...)] *)
Definition on_message (ws : nat) (p : payload) : M unit :=
  s ← gets (λ st, sockets st !! ws);
  match s with
  | Some (Socket _ (Some (previewId, _))) =>
      match p with
      | Parsed (Some type) =>
          if bool_decide (type = "file-change") then
            broadcastToContainer previewId (RefreshPreview previewId)
          else if bool_decide (type = "preview-ready") then
            t ← gets now;
            broadcastToContainer previewId
              (PreviewReady previewId ("/preview/" +:+ previewId) t)
          else mret ()
      | _ => mret ()
      end
  | _ => mret ()
  end.

(** The delay of the clean-up timer, in milliseconds. *)
Definition cleanup_delay : N := 300000.

(** [ws.on('close', ...)]; the listener runs once, when the socket has
    reached [CLOSED]. *)
Definition on_close (ws : nat) : M unit :=
  s ← gets (λ st, sockets st !! ws);
  match s with
  | Some (Socket state l) =>
      if bool_decide (state = CLOSED) then mret ()
      else
        modify (set_sockets (alter (λ s, Socket CLOSED (listeners s)) ws));;
        match l with
        | Some (previewId, r) =>
            update r (with_clients (set_delete ws));;
            obj ← gets (λ st, heap st !! r);
            match obj with
            | Some c =>
                if bool_decide (length (clients c) = 0) then
                  t ← gets now;
                  modify (set_timers (λ ts, ts ++ [((t + cleanup_delay)%N, previewId)]))
                else mret ()
            | None => mret ()
            end
        | None => mret ()
        end
  | None => mret ()
  end.

(** The callback given to [setTimeout]:
    [if (containers.get(previewId)?.clients.size === 0) containers.delete(previewId)] *)
Definition cleanup (previewId : string) : M unit :=
  found ← gets (λ st, containers st !! previewId);
  match found with
  | Some r =>
      obj ← gets (λ st, heap st !! r);
      match obj with
      | Some c =>
          if bool_decide (length (clients c) = 0)
          then modify (set_containers (delete previewId))
          else mret ()
      | None => mret ()
      end
  | None => mret ()
  end.

(** An HTTP request as the handlers see it: the method, the decoded
    segments of the URL path, [req.query.path] and the fields of the JSON
    body the handlers and the browser facade use ([None] is [undefined]). *)
Inductive method := GET | POST.

Record json_body := JsonBody {
  body_path : option string;
  body_content : option string;
  body_command : option string;
  body_args : option (list string);
  body_cwd : option string;
  body_recursive : option bool
}.

Record request := Request {
  req_method : method;
  req_url : list string;
  req_query_path : option string;
  req_body : json_body
}.

Global Instance method_eq_dec : EqDecision method.
Proof. solve_decision. Defined.

(** [args.join(' ')] *)
Fixpoint join_space (args : list string) : string :=
  match args with
  | [] => ""
  | [a] => a
  | a :: rest => a +:+ " " +:+ join_space rest
  end.

(** [app.post('/api/files/write/:previewId', ...)] *)
Definition files_write (previewId : string) (b : json_body) : M unit :=
  match body_path b, body_content b with
  | Some filePath, Some content =>
      if bool_decide (filePath = "") then
        respond 400 (JsonError "Missing required parameters")
      else
        r ← get_or_create previewId;
        try_catch
          (c ← deref r;
           let dirPath := Path.dirname (Path.join (dir c) filePath) in
           mkdirSync dirPath;;
           writeFileSync (Path.join (dir c) filePath) content;;
           update r (with_files <[filePath := content]>);;
           broadcastToContainer previewId (FileChange previewId filePath);;
           respond 200 JsonSuccess)
          (λ error, respond 500 (JsonError (exn_message error)))
  | _, _ => respond 400 (JsonError "Missing required parameters")
  end.

(** [app.get('/api/files/read/:previewId', ...)] *)
Definition files_read (previewId : string) (query_path : option string) : M unit :=
  match query_path with
  | None | Some "" => respond 400 (JsonError "Missing path parameter")
  | Some filePath =>
      found ← gets (λ st, containers st !! previewId);
      match found with
      | None => respond 404 (JsonError "Container not found")
      | Some r =>
          try_catch
            (c ← deref r;
             match files c !! filePath with
             | Some content => respond 200 (JsonContent content)
             | None =>
                 let fullPath := Path.join (dir c) filePath in
                 there ← existsSync fullPath;
                 if there : bool then
                   content ← readFileSync fullPath;
                   update r (with_files <[filePath := content]>);;
                   respond 200 (JsonContent content)
                 else respond 404 (JsonError "File not found")
             end)
            (λ error, respond 500 (JsonError (exn_message error)))
      end
  end.

(** [child_process.exec(command, { cwd }, callback)]: the command line is
    handed to a shell and the call returns the handle of the child; how the
    command went is told later, through the callback. *)
Definition exec (command cwd processId previewId : string) (r : nat) : M nat := λ st,
  (set_children (λ cs, cs ++ [Child processId previewId r command cwd false]) st,
   [Exec command cwd], inr (length (children st))).

(** [app.post('/api/execute/:previewId', ...)]; [uuid] is what [uuidv4()]
    returns during this request. *)
Definition execute (previewId : string) (b : json_body) (uuid : string) : M unit :=
  match body_command b with
  | None | Some "" => respond 400 (JsonError "Missing command parameter")
  | Some command =>
      let args := default [] (body_args b) in
      let cwd := default "/" (body_cwd b) in
      r ← get_or_create previewId;
      try_catch
        (let processId := uuid in
         c ← deref r;
         let workingDir := Path.join (dir c) cwd in
         mkdirSync workingDir;;
         childProcess ← exec (command +:+ " " +:+ join_space args) workingDir
                          processId previewId r;
         update r (with_processes <[processId := childProcess]>);;
         respond 200 (JsonProcessId processId))
        (λ error, respond 500 (JsonError (exn_message error)))
  end.

(** [childProcess.stdout.on('data', ...)] and
    [childProcess.stderr.on('data', ...)] *)
Definition on_child_data (k : nat) (from : stream) (chunk : string) : M unit :=
  ch ← gets (λ st, children st !! k);
  match ch with
  | Some c =>
      broadcastToContainer (child_previewId c)
        (ProcessOutput (child_previewId c) (child_processId c) chunk from)
  | None => mret ()
  end.

(** The callback given to [exec]: [(error, stdout, stderr) => ...]; the
    host calls it once per child.  [error] is [None] for [null], else the
    [code] field of the error object. *)
Definition on_exec_done (k : nat) (error : option code) (stdout stderr : string)
  : M unit :=
  ch ← gets (λ st, children st !! k);
  match ch with
  | Some c =>
      if child_completed c then mret ()
      else
        modify (set_children (alter (λ c,
          Child (child_processId c) (child_previewId c) (child_container c)
            (child_command c) (child_cwd c) true) k));;
        update (child_container c) (with_processes (delete (child_processId c)));;
        broadcastToContainer (child_previewId c)
          (ProcessCompleted (child_previewId c) (child_processId c)
             (match error with Some code => code | None => CodeNumber 0 end)
             stdout stderr)
  | None => mret ()
  end.

(** [app.get('/preview/:previewId', ...)] *)
Definition preview_index (previewId : string) : M unit :=
  found ← gets (λ st, containers st !! previewId);
  match found with
  | None => respond 404 (Text "Preview not found")
  | Some r =>
      c ← deref r;
      let indexPath := Path.join (dir c) "index.html" in
      there ← existsSync indexPath;
      if there : bool then respond 200 (SendFile indexPath)
      else respond 200 (Placeholder previewId)
  end.

(** [app.get('/preview/:previewId/*', ...)] *)
Definition preview_static (previewId filePath : string) : M unit :=
  found ← gets (λ st, containers st !! previewId);
  match found with
  | None => respond 404 (Text "Preview not found")
  | Some r =>
      c ← deref r;
      let fullPath := Path.join (dir c) filePath in
      there ← existsSync fullPath;
      file ← isFile fullPath;
      if there && file then respond 200 (SendFile fullPath)
      else respond 404 (Text "File not found")
  end.

(** The routes registered on [app], in order.  A [:previewId] parameter
    matches one non-empty segment.  A request no route matches falls through
    to the final handler of Express, which answers 404. *)
Definition route (req : request) (uuid : string) : M unit :=
  match req_url req with
  | [a; b; c; previewId] =>
      if bool_decide (req_method req = POST ∧ a = "api" ∧ b = "files" ∧ c = "write"
                      ∧ previewId ≠ "")
      then files_write previewId (req_body req)
      else if bool_decide (req_method req = GET ∧ a = "api" ∧ b = "files" ∧ c = "read"
                           ∧ previewId ≠ "")
      then files_read previewId (req_query_path req)
      else if bool_decide (req_method req = GET ∧ a = "preview" ∧ b ≠ "")
      then preview_static b (Path.join_slash [c; previewId])
      else respond 404 NotRouted
  | [a; b; previewId] =>
      if bool_decide (req_method req = POST ∧ a = "api" ∧ b = "execute" ∧ previewId ≠ "")
      then execute previewId (req_body req) uuid
      else if bool_decide (req_method req = GET ∧ a = "preview" ∧ b ≠ "")
      then preview_static b previewId
      else respond 404 NotRouted
  | [a; previewId] =>
      if bool_decide (req_method req = GET ∧ a = "preview" ∧ previewId ≠ "")
      then preview_index previewId
      else respond 404 NotRouted
  | a :: previewId :: rest =>
      if bool_decide (req_method req = GET ∧ a = "preview" ∧ previewId ≠ "")
      then preview_static previewId (Path.join_slash rest)
      else respond 404 NotRouted
  | _ => respond 404 NotRouted
  end.

(** Express around a handler: an exception that leaves the handler is
    answered with status 500. *)
Definition app (req : request) (uuid : string) : M unit :=
  try_catch (route req uuid) (λ error, respond 500 (Text (exn_message error))).

(** ** The event loop *)

Fixpoint for_each {A} (f : A → M unit) (l : list A) : M unit :=
  match l with
  | [] => mret ()
  | x :: l' => f x;; for_each f l'
  end.

(** Time passes: the clock moves on by [ms] and the timers that have come
    due fire, oldest first. *)
Definition advance (ms : N) : M unit :=
  t ← gets now;
  modify (set_now (t + ms)%N);;
  ts ← gets timers;
  modify (set_timers (filter (λ x, ¬ (x.1 ≤ t + ms)%N)));;
  for_each (λ x, cleanup x.2) (filter (λ x, (x.1 ≤ t + ms)%N) ts).

(** A socket leaves [OPEN] when its closing handshake starts; the ['close']
    event comes later. *)
Definition on_closing (ws : nat) : M unit :=
  modify (set_sockets (alter (λ s,
    Socket (if bool_decide (ready s = OPEN) then CLOSING else ready s) (listeners s)) ws)).

Inductive input :=
| Connection (previewId : option string)
| Message (ws : nat) (p : payload)
| Closing (ws : nat)
| Close (ws : nat)
| Http (req : request) (uuid : string)
| ChildData (k : nat) (from : stream) (chunk : string)
| ExecDone (k : nat) (error : option code) (stdout stderr : string)
| Advance (ms : N).

Definition handle (i : input) : M unit :=
  match i with
  | Connection previewId => on_connection previewId
  | Message ws p => on_message ws p
  | Closing ws => on_closing ws
  | Close ws => on_close ws
  | Http req uuid => app req uuid
  | ChildData k from chunk => on_child_data k from chunk
  | ExecDone k error stdout stderr => on_exec_done k error stdout stderr
  | Advance ms => advance ms
  end.

(** One callback, and a sequence of them; an exception that leaves a
    callback which is not a route handler ends the process, and the run. *)
Definition step (st : server) (i : input) : server * list effect * (exn + unit) :=
  handle i st.

Definition run (st : server) (inputs : list input)
  : server * list effect * (exn + unit) :=
  for_each handle inputs st.

(** ** The browser facade ([app/lib/webcontainer/index.ts]) *)
Module FlyContainer.

Record t := Make {
  workdir : string;
  previewId : string
}.

(** What [fetch] resolves with: the response the server wrote. *)
Fixpoint response (log : list effect) : option (nat * reply) :=
  match log with
  | [] => None
  | Respond status b :: _ => Some (status, b)
  | _ :: log' => response log'
  end.

(** [response.ok] *)
Definition ok (status : nat) : bool := (200 <=? status) && (status <=? 299).

(** [fs.rm]: a POST to [/api/files/rm/<previewId>]; the call throws
    [Error("Failed to remove: " + path)] unless the response is ok. *)
Definition rm (this : t) (path : string) (recursive : option bool)
    (uuid : string) (st : server) : server * list effect * (string + unit) :=
  let req :=
    Request POST ["api"; "files"; "rm"; previewId this] None
      (JsonBody (Some path) None None None None recursive) in
  match app req uuid st with
  | (st', log, _) =>
      match response log with
      | Some (status, _) =>
          if ok status then (st', log, inr ())
          else (st', log, inl ("Failed to remove: " +:+ path))
      | None => (st', log, inl ("Failed to remove: " +:+ path))
      end
  end.

End FlyContainer.

(** ** Vocabulary of the properties *)

(** The calls of [broadcastToContainer], the messages sent and the file
    system calls found in a log. *)
Definition broadcasts (log : list effect) : list (string * event) :=
  omap (λ e, match e with Broadcast p d => Some (p, d) | _ => None end) log.

Definition sends (log : list effect) : list (nat * event) :=
  omap (λ e, match e with Send ws d => Some (ws, d) | _ => None end) log.

Definition fs_calls (log : list effect) : list fs_call :=
  omap (λ e, match e with FsCall c => Some c | _ => None end) log.

Definition responses (log : list effect) : list (nat * reply) :=
  omap (λ e, match e with Respond s b => Some (s, b) | _ => None end) log.

(** The sockets a broadcast to [previewId] reaches: the open ones in the
    client set of the container registered under [previewId]. *)
Definition recipients (st : server) (previewId : string) : list nat :=
  match containers st !! previewId with
  | Some r =>
      match heap st !! r with
      | Some c => filter (λ ws, is_open (sockets st) ws = true) (clients c)
      | None => []
      end
  | None => []
  end.

(** The container registered under an identifier, if any. *)
Definition session (st : server) (previewId : string) : option container :=
  r ← containers st !! previewId; heap st !! r.

(** What [exec] hands to its callback as [error] when the shell it started
    ends with exit status [n]: [null] for 0, an error whose [code] is the
    status otherwise. *)
Definition exited (n : Z) : option code :=
  if bool_decide (n = 0%Z) then None else Some (CodeNumber n).

(** The exit status of a shell that cannot find the command it was given. *)
Definition command_not_found : Z := 127.

(** The state after [createContainer] has run for a new identifier and the
    registry has stored its object. *)
Definition created (previewId : string) (d : gmap (list string) Fs.node)
    (st : server) : server :=
  set_containers <[previewId := length (heap st)]>
    (set_heap (λ h, h ++ [Container previewId (Path.join "/tmp" previewId) [] ∅ ∅])
       (set_disk d st)).

(** The requests the facade sends for [fs.writeFile], [fs.readFile] and
    [spawn]. *)
Definition write_request (previewId path content : string) : request :=
  Request POST ["api"; "files"; "write"; previewId] None
    (JsonBody (Some path) (Some content) None None None None).

Definition read_request (previewId path : string) : request :=
  Request GET ["api"; "files"; "read"; previewId] (Some path)
    (JsonBody None None None None None None).

Definition execute_request (previewId command : string) (args : list string)
    (cwd : string) : request :=
  Request POST ["api"; "execute"; previewId] None
    (JsonBody None None (Some command) (Some args) (Some cwd) None).

(** The registry invariant: an identifier of the registry names a
    container object of the heap that carries this identifier and the
    directory [createContainer] gave it; its client set holds no socket
    twice, and every socket in it is a socket whose listeners were attached
    for this identifier and this object. *)
Definition wf (st : server) : Prop :=
  ∀ previewId r, containers st !! previewId = Some r →
    ∃ c, heap st !! r = Some c
         ∧ container_id c = previewId
         ∧ dir c = Path.join "/tmp" previewId
         ∧ NoDup (clients c)
         ∧ ∀ ws, ws ∈ clients c →
             ∃ s, sockets st !! ws = Some s ∧ listeners s = Some (previewId, r).

(** The states the server can be in: those a run of callbacks leads to
    from an empty registry, whatever the host file system holds. *)
Definition reachable (st : server) : Prop :=
  ∃ d inputs log, run (initial d) inputs = (st, log, inr ()).

(** Effects other than a broadcast and its deliveries. *)
Definition quiet (e : effect) : Prop :=
  match e with
  | Broadcast _ _ | Send _ _ => False
  | _ => True
  end.

(** A container update that leaves the identity and the client set alone. *)
Definition keeps_clients (f : container → container) : Prop :=
  ∀ c, container_id (f c) = container_id c ∧ dir (f c) = dir c
       ∧ clients (f c) = clients c.

(** The child record once its callback has run. *)
Definition completed (c : child) : child :=
  Child (child_processId c) (child_previewId c) (child_container c)
    (child_command c) (child_cwd c) true.

(** A callback respects a relation [R] on states and a predicate [L] on
    effects when its final state is related to its initial one and every
    effect it logs is allowed in its initial state. *)
Definition respects (R : server → server → Prop) (L : server → effect → Prop)
    {A} (m : M A) : Prop :=
  ∀ st, R st (m st).1.1 ∧ Forall (L st) (m st).1.2.

(** The two sides of the frame rule when it carries the invariant. *)
Definition keeps_wf (st st' : server) : Prop := wf st → wf st'.
Definition any_effect (st : server) (e : effect) : Prop := True.

(** The state after the pattern has made a new container holds it in the
    registry, with the identifier and the directory [createContainer] gave
    it. *)
Definition registered_as_new (st st' : server) (previewId : string) : Prop :=
  containers st' !! previewId = Some (length (heap st))
  ∧ ∃ c, heap st' !! length (heap st) = Some c
         ∧ container_id c = previewId
         ∧ dir c = Path.join "/tmp" previewId.

(** What the [try] block of the write handler does on a state in which
    [r] names the container [c]: the directory cannot be made, the file
    cannot be written, or the write goes through. *)
Definition write_outcome (previewId : string) (r : nat) (c : container)
    (filePath content : string) (st : server)
  : server * list effect * (exn + unit) :=
  let full := Path.join (dir c) filePath in
  match Fs.mkdirSync (disk st) (Path.dirname full) with
  | inl e =>
      (st, [FsCall (MkdirSync (Path.dirname full));
            Respond 500 (JsonError (Fs.message e))], inr ())
  | inr d1 =>
      match Fs.writeFileSync d1 full content with
      | inl e =>
          (set_disk d1 st,
           [FsCall (MkdirSync (Path.dirname full));
            FsCall (WriteFileSync full content);
            Respond 500 (JsonError (Fs.message e))], inr ())
      | inr d2 =>
          let st2 :=
            set_heap (alter (with_files <[filePath := content]>) r)
              (set_disk d2 st) in
          (st2,
           [FsCall (MkdirSync (Path.dirname full));
            FsCall (WriteFileSync full content);
            Broadcast previewId (FileChange previewId filePath)]
           ++ ((λ ws, Send ws (FileChange previewId filePath))
                 <$> recipients st2 previewId)
           ++ [Respond 200 JsonSuccess], inr ())
      end
  end.

(** What the [try] block of the read handler does, likewise. *)
Definition read_outcome (r : nat) (c : container) (filePath : string)
    (st : server) : server * list effect * (exn + unit) :=
  match files c !! filePath with
  | Some content => (st, [Respond 200 (JsonContent content)], inr ())
  | None =>
      let fullPath := Path.join (dir c) filePath in
      if Fs.existsSync (disk st) fullPath then
        match Fs.readFileSync (disk st) fullPath with
        | inl e =>
            (st, [FsCall (ExistsSync fullPath); FsCall (ReadFileSync fullPath);
                  Respond 500 (JsonError (Fs.message e))], inr ())
        | inr content =>
            (set_heap (alter (with_files <[filePath := content]>) r) st,
             [FsCall (ExistsSync fullPath); FsCall (ReadFileSync fullPath);
              Respond 200 (JsonContent content)], inr ())
        end
      else
        (st, [FsCall (ExistsSync fullPath);
              Respond 404 (JsonError "File not found")], inr ())
  end.

(** What the [try] block of the command handler does, likewise. *)
Definition execute_outcome (previewId : string) (r : nat) (c : container)
    (command : string) (args : list string) (cwd uuid : string) (st : server)
  : server * list effect * (exn + unit) :=
  let workingDir := Path.join (dir c) cwd in
  let line := command +:+ " " +:+ join_space args in
  match Fs.mkdirSync (disk st) workingDir with
  | inl e =>
      (st, [FsCall (MkdirSync workingDir);
            Respond 500 (JsonError (Fs.message e))], inr ())
  | inr d =>
      (set_heap (alter (with_processes <[uuid := length (children st)]>) r)
         (set_children (λ cs, cs ++ [Child uuid previewId r line workingDir false])
            (set_disk d st)),
       [FsCall (MkdirSync workingDir); Exec line workingDir;
        Respond 200 (JsonProcessId uuid)], inr ())
  end.

(** A callback has created (or found) a session for an identifier when the
    registry holds the identifier afterwards. *)
Definition creates_session (i : input) (previewId : string) (st : server) : Prop :=
  is_Some (containers (step st i).1.1 !! previewId).

(** A path of the session names a directory that has something in it. *)
Definition non_empty_directory (st : server) (previewId path : string) : Prop :=
  ∃ c, session st previewId = Some c
       ∧ Fs.stat (disk st) (Path.resolve (Path.join (dir c) path)) = Some Fs.Dir
       ∧ ∃ name, is_Some (disk st !! (Path.resolve (Path.join (dir c) path) ++ [name])).

(** C2 as stated: a write followed by a read of the same path returns the
    written content. *)
Definition write_read_roundtrip (st : server) (previewId path content : string)
  : Prop :=
  let st1 := (step st (Http (write_request previewId path content) "u")).1.1 in
  responses (step st1 (Http (read_request previewId path) "u")).1.2
  = [(200, JsonContent content)].

(** The directory a command is to run in cannot be made: the working
    directory in a registered session, or, for an identifier the registry
    does not hold, the directory of the session or the working directory in
    it. *)
Definition directory_unavailable (st : server) (previewId cwd : string) : Prop :=
  match containers st !! previewId with
  | Some r =>
      ∃ c e, heap st !! r = Some c
             ∧ Fs.mkdirSync (disk st) (Path.join (dir c) cwd) = inl e
  | None =>
      (∃ e, Fs.mkdirSync (disk st) (Path.join "/tmp" previewId) = inl e)
      ∨ (∃ d e, Fs.mkdirSync (disk st) (Path.join "/tmp" previewId) = inr d
                ∧ Fs.mkdirSync d (Path.join (Path.join "/tmp" previewId) cwd) = inl e)
  end.

(** The process handles of a session: its [processes] map, empty when the
    registry does not hold the identifier. *)
Definition handles (st : server) (previewId : string) : gmap string nat :=
  match session st previewId with
  | Some c => processes c
  | None => ∅
  end.

(** What C3 promises of a spawn request that cannot start: an error
    response, no handle registered, no child whose callback could ever
    broadcast a completion. *)
Definition spawn_refused (st st' : server) (log : list effect)
    (previewId : string) : Prop :=
  (∃ b, responses log = [(500, b)])
  ∧ handles st' previewId = handles st previewId
  ∧ children st' = children st
  ∧ broadcasts log = []
  ∧ (∀ command cwd, Exec command cwd ∉ log).

Definition execute_post (previewId : string) (b : json_body) : request :=
  Request POST ["api"; "execute"; previewId] None b.

(** A child is pending at handle [k] and no later state loses a container. *)
Definition keeps_child (k : nat) (st st' : server) : Prop :=
  length (heap st) ≤ length (heap st')
  ∧ ∀ c, children st !! k = Some c → children st' !! k = Some c.

(** No completion event among the broadcasts. *)
Definition no_completion (st : server) (e : effect) : Prop :=
  match e with
  | Broadcast _ data => is_process_completed data = false
  | _ => True
  end.

Definition any_change (st st' : server) : Prop := True.

Definition is_exec_done (i : input) : bool :=
  match i with
  | ExecDone _ _ _ _ => true
  | _ => false
  end.

(** Broadcasts carry the identifier they are made for and reach only the
    recipients of that identifier. *)
Definition same_recipients (st st' : server) : Prop :=
  ∀ previewId, recipients st' previewId = recipients st previewId.

Definition sent_to_recipients (st : server) (e : effect) : Prop :=
  match e with
  | Broadcast previewId data => event_previewId data = previewId
  | Send ws data => ws ∈ recipients st (event_previewId data)
  | _ => True
  end.

Definition only_quiet (st : server) (e : effect) : Prop := quiet e.

(** What C9 asks of an effect logged in state [st]. *)
Definition stays_in_session (st : server) (e : effect) : Prop :=
  match e with
  | Broadcast previewId data => event_previewId data = previewId
  | Send ws data =>
      is_open (sockets st) ws = true
      ∧ (∃ c, session st (event_previewId data) = Some c ∧ ws ∈ clients c)
      ∧ (∃ s r, sockets st !! ws = Some s
                ∧ listeners s = Some (event_previewId data, r))
      ∧ (∀ other c', other ≠ event_previewId data →
           session st other = Some c' → ws ∉ clients c')
  | _ => True
  end.

(** What the clean-up check does to the state: the identifier leaves the
    registry when the container registered under it has no client. *)
Definition expire (previewId : string) (st : server) : server :=
  match session st previewId with
  | Some c =>
      if bool_decide (length (clients c) = 0)
      then set_containers (delete previewId) st
      else st
  | None => st
  end.

(** The paths of the files a log reads, probes or writes. *)
Definition file_targets (log : list effect) : list string :=
  omap (λ e, match e with
             | FsCall (WriteFileSync p _) | FsCall (ExistsSync p)
             | FsCall (ReadFileSync p) => Some p
             | _ => None
             end) log.

(** The directories a log makes. *)
Definition mkdir_targets (log : list effect) : list string :=
  omap (λ e, match e with FsCall (MkdirSync p) => Some p | _ => None end) log.

(** The identifier is not registered, or its container has no client. *)
Definition idle (st : server) (previewId : string) : Prop :=
  match containers st !! previewId with
  | Some r => ∃ c, heap st !! r = Some c ∧ clients c = []
  | None => True
  end.

(** A segment that names an entry: not empty, not ["."], not [".."], and
    without a slash inside. *)
Fixpoint no_sep (s : string) : bool :=
  match s with
  | EmptyString => true
  | String c r => negb (Path.is_sep c) && no_sep r
  end.

Definition plain (s : string) : Prop :=
  s ≠ "" ∧ s ≠ "." ∧ s ≠ ".." ∧ no_sep s = true.

(** The segments [normalizeString] keeps when it meets them. *)
Definition kept (s : string) : Prop := ¬ (s = "" ∨ s = ".").

Global Instance kept_dec s : Decision (kept s).
Proof. unfold kept. apply _. Defined.

(** [target] lies in the tree below [root] (or is [root] itself). *)
Definition confined (root target : string) : Prop :=
  Path.resolve root `prefix_of` Path.resolve target.

Global Instance confined_dec root target : Decision (confined root target).
Proof. unfold confined. apply _. Defined.

(** [p] lies below [root] or is the parent directory of [root]. *)
Definition inside_or_parent (root p : string) : Prop :=
  confined root p ∨ Path.resolve p = removelast (Path.resolve root).

(** ** Further vocabulary: sockets and their sessions *)

(** Every socket that has listeners and has not reached [CLOSED] is in the
    client set of the container it closed over, and that container is the
    one the registry holds for its identifier. *)
Definition attached (st : server) : Prop :=
  ∀ ws s previewId r,
    sockets st !! ws = Some s → listeners s = Some (previewId, r) →
    ready s ≠ CLOSED →
    containers st !! previewId = Some r
    ∧ ∃ c, heap st !! r = Some c ∧ ws ∈ clients c.

Definition live (st : server) : Prop := wf st ∧ attached st.

Definition keeps_live (st st' : server) : Prop := live st → live st'.

(** ** Further vocabulary: responses *)

(** A handler that returns has written one response; a handler that throws
    has written none (Express then writes the 500). *)
Definition answers (m : M unit) : Prop :=
  ∀ st, match (m st).2 with
        | inr _ => ∃ status b, responses (m st).1.2 = [(status, b)]
        | inl _ => responses (m st).1.2 = []
        end.

(** The working directories a log starts commands in. *)
Definition exec_dirs (log : list effect) : list string :=
  omap (λ e, match e with Exec _ cwd => Some cwd | _ => None end) log.

(** ** Further vocabulary: children and notifications *)

(** A child as a later state holds it: what its callbacks closed over is
    what it was, and a child that has completed stays completed. *)
Definition same_child (c c' : child) : Prop :=
  child_processId c' = child_processId c
  ∧ child_previewId c' = child_previewId c
  ∧ child_container c' = child_container c
  ∧ child_command c' = child_command c
  ∧ child_cwd c' = child_cwd c
  ∧ (child_completed c = true → child_completed c' = true).

Definition children_persist (st st' : server) : Prop :=
  ∀ k c, children st !! k = Some c →
    ∃ c', children st' !! k = Some c' ∧ same_child c c'.

(** The copies of an event that go out when it is broadcast in a state: one
    to every open client of the session, in the order of the client set. *)
Definition notified (st : server) (previewId : string) (data : event)
  : list (nat * event) :=
  (λ ws, (ws, data)) <$> recipients st previewId.

(** What [broadcastToContainer] logs. *)
Definition broadcast_log (st : server) (previewId : string) (data : event)
  : list effect :=
  Broadcast previewId data :: ((λ ws, Send ws data) <$> recipients st previewId).

(** What [JSON.parse] gives the server for the message the facade sends
    when something is written to the input of a process object:
    [{ processId, type: 'process-input', input: chunk }]. *)
Definition process_input : payload := Parsed (Some "process-input").

(** The files a log hands to [res.sendFile]. *)
Definition sent_files (log : list effect) : list string :=
  omap (λ e, match e with Respond _ (SendFile p) => Some p | _ => None end) log.

(** Every entry of a container's process table names a child that was
    started for that container under that identifier and whose callback has
    not run yet. *)
Definition process_table (st : server) : Prop :=
  ∀ r c processId k,
    heap st !! r = Some c → processes c !! processId = Some k →
    ∃ ch, children st !! k = Some ch
          ∧ child_processId ch = processId
          ∧ child_container ch = r
          ∧ child_completed ch = false.

Definition keeps_table (st st' : server) : Prop :=
  process_table st → process_table st'.

(** ** Further vocabulary: the registry over time *)

(** Every identifier of the registry still names the same container. *)
Definition registry_kept (st st' : server) : Prop :=
  ∀ previewId r, containers st !! previewId = Some r →
                 containers st' !! previewId = Some r.

(** ** Further vocabulary: the disk over time *)

(** Two nodes of the same kind: both directories, or both files. *)
Definition same_kind (node node' : Fs.node) : Prop :=
  node = Fs.Dir ↔ node' = Fs.Dir.

(** Whatever was on the first disk is on the second, as the same kind of
    node (the content of a file may differ). *)
Definition disk_kept (d d' : gmap (list string) Fs.node) : Prop :=
  ∀ k node, d !! k = Some node → ∃ node', d' !! k = Some node' ∧ same_kind node node'.

Definition keeps_disk (st st' : server) : Prop := disk_kept (disk st) (disk st').

(** ** The rest of the browser facade ([app/lib/webcontainer/index.ts])

    The calls of [fs] and [spawn] that go to the server.  Each one sends a
    request, waits for the response and throws unless the response is ok;
    between the request and the response the server runs the route handler,
    so on the server's side a call is the transition of [app].  The
    identifier of the facade is a UUID and is one segment of the URL. *)
Module Facade.

Definition empty_body : json_body := JsonBody None None None None None None.

(** What a call hands back: the state of the server and its log, and the
    value the promise settles with ([inl] when the call throws). *)
Definition call (A : Type) : Type := server * list effect * (string + A).

(** [fs.readFile(path)]; [data.content] is [undefined] ([None]) when the
    body of an ok response has no [content] field. *)
Definition readFile (this : FlyContainer.t) (path uuid : string) (st : server)
  : call (option string) :=
  let req :=
    Request GET ["api"; "files"; "read"; FlyContainer.previewId this]
      (Some path) empty_body in
  match app req uuid st with
  | (st', log, _) =>
      match FlyContainer.response log with
      | Some (status, b) =>
          if FlyContainer.ok status then
            (st', log, inr (match b with
                            | JsonContent content => Some content
                            | _ => None
                            end))
          else (st', log, inl ("Failed to read file: " +:+ path))
      | None => (st', log, inl ("Failed to read file: " +:+ path))
      end
  end.

(** [fs.writeFile(path, content)] *)
Definition writeFile (this : FlyContainer.t) (path content uuid : string)
    (st : server) : call unit :=
  let req :=
    Request POST ["api"; "files"; "write"; FlyContainer.previewId this] None
      (JsonBody (Some path) (Some content) None None None None) in
  match app req uuid st with
  | (st', log, _) =>
      match FlyContainer.response log with
      | Some (status, _) =>
          if FlyContainer.ok status then (st', log, inr ())
          else (st', log, inl ("Failed to write file: " +:+ path))
      | None => (st', log, inl ("Failed to write file: " +:+ path))
      end
  end.

(** [fs.mkdir(path, options)] *)
Definition mkdir (this : FlyContainer.t) (path : string) (recursive : option bool)
    (uuid : string) (st : server) : call unit :=
  let req :=
    Request POST ["api"; "files"; "mkdir"; FlyContainer.previewId this] None
      (JsonBody (Some path) None None None None recursive) in
  match app req uuid st with
  | (st', log, _) =>
      match FlyContainer.response log with
      | Some (status, _) =>
          if FlyContainer.ok status then (st', log, inr ())
          else (st', log, inl ("Failed to create directory: " +:+ path))
      | None => (st', log, inl ("Failed to create directory: " +:+ path))
      end
  end.

(** [fs.readdir(path, options)]; the entries of an ok response, which no
    route of the server produces, are not modelled. *)
Definition readdir (this : FlyContainer.t) (path uuid : string) (st : server)
  : call unit :=
  let req :=
    Request GET ["api"; "files"; "readdir"; FlyContainer.previewId this]
      (Some path) empty_body in
  match app req uuid st with
  | (st', log, _) =>
      match FlyContainer.response log with
      | Some (status, _) =>
          if FlyContainer.ok status then (st', log, inr ())
          else (st', log, inl ("Failed to read directory: " +:+ path))
      | None => (st', log, inl ("Failed to read directory: " +:+ path))
      end
  end.

(** The request of [spawn(command, args, options)]: [args] defaults to
    [[]] and the working directory is [options?.cwd || '/'], so an empty
    [cwd] counts as none. *)
Definition spawn_body (command : string) (args : option (list string))
    (cwd : option string) : json_body :=
  JsonBody None None (Some command) (Some (default [] args))
    (Some (match cwd with
           | None | Some "" => "/"
           | Some cwd => cwd
           end)) None.

(** [spawn], up to the point where it has the process identifier; the
    socket it opens next reaches the server later, as a connection for
    [previewId]. *)
Definition spawn (this : FlyContainer.t) (command : string)
    (args : option (list string)) (cwd : option string) (uuid : string)
    (st : server) : call (option string) :=
  let req :=
    Request POST ["api"; "execute"; FlyContainer.previewId this] None
      (spawn_body command args cwd) in
  match app req uuid st with
  | (st', log, _) =>
      match FlyContainer.response log with
      | Some (status, b) =>
          if FlyContainer.ok status then
            (st', log, inr (match b with
                            | JsonProcessId processId => Some processId
                            | _ => None
                            end))
          else (st', log, inl ("Failed to execute command: " +:+ command))
      | None => (st', log, inl ("Failed to execute command: " +:+ command))
      end
  end.

(** [getPreviewUrl()], as the path of the URL. *)
Definition getPreviewUrl (this : FlyContainer.t) : list string :=
  ["preview"; FlyContainer.previewId this].

End Facade.


(** The [exitCode] field of a [process-completed] event. *)
Definition exit_code (error : option code) : code :=
  match error with
  | Some code => code
  | None => CodeNumber 0
  end.

(** ** The process object [spawn] returns

    The object reads the socket through the single [ws.onmessage] slot:
    every method that wants the events of the process assigns its own
    handler to it, and the handler assigned last is the one that runs.  A
    message is what the server sent, parsed back: an [event]. *)
Module Process.

(** What a writable handed to [pipeTo] has received, and the [exitCode]
    promise of that call. *)
Record pipe := Pipe {
  written : list string;
  writer_closed : bool;
  exitCode : option code
}.

(** The [ReadableStream] made by [tee] or [getReader]: the chunks its
    controller has enqueued, and whether it has been closed. *)
Record readable := Readable {
  queue : list string;
  closed : bool
}.

(** The handlers the object assigns to [ws.onmessage]. *)
Inductive handler :=
| ResolveExit                 (* by the executor of the [exit] promise *)
| WriteTo (n : nat)           (* by [pipeTo], first assignment *)
| ResolveExitCode (n : nat)   (* by the executor of [pipeTo]'s [exitCode] *)
| EnqueueTo (n : nat).        (* by [start] of the stream of [tee]/[getReader] *)

Record t := Make {
  processId : string;
  ws_state : readyState;      (* ws.readyState *)
  onmessage : handler;        (* ws.onmessage *)
  exit : option code;         (* the value the [exit] promise resolved with *)
  pipes : list pipe;
  readables : list readable;
  sent : list string          (* the chunks sent as [process-input] *)
}.

Definition set_onmessage (h : handler) (p : t) : t :=
  Make (processId p) (ws_state p) h (exit p) (pipes p) (readables p) (sent p).
Definition set_pipes (f : list pipe → list pipe) (p : t) : t :=
  Make (processId p) (ws_state p) (onmessage p) (exit p) (f (pipes p))
    (readables p) (sent p).
Definition set_readables (f : list readable → list readable) (p : t) : t :=
  Make (processId p) (ws_state p) (onmessage p) (exit p) (pipes p)
    (f (readables p)) (sent p).

(** The object as [spawn] returns it: the socket is connecting and the
    executor of [exit] has already assigned its handler. *)
Definition create (processId : string) : t :=
  Make processId CONNECTING ResolveExit None [] [] [].

(** The socket's connection is established. *)
Definition on_open (p : t) : t :=
  Make (processId p)
    (if bool_decide (ws_state p = CONNECTING) then OPEN else ws_state p)
    (onmessage p) (exit p) (pipes p) (readables p) (sent p).

(** [ws.close()] *)
Definition ws_close (p : t) : t :=
  Make (processId p)
    (match ws_state p with
     | CONNECTING | OPEN => CLOSING
     | s => s
     end)
    (onmessage p) (exit p) (pipes p) (readables p) (sent p).

(** A promise keeps the first value it is resolved with. *)
Definition resolve (promise : option code) (value : code) : option code :=
  match promise with
  | Some v => Some v
  | None => Some value
  end.

(** [output.pipeTo(writable)]: the handler that writes to the writable is
    assigned, and then, before the call returns, the executor of the
    [exitCode] promise assigns its own. *)
Definition pipeTo (p : t) : t :=
  let n := length (pipes p) in
  set_onmessage (ResolveExitCode n)
    (set_onmessage (WriteTo n)
       (set_pipes (λ l, l ++ [Pipe [] false None]) p)).

(** [output.getReader()] and [output.tee()]: a new stream, whose [start]
    assigns the handler that feeds it. *)
Definition getReader (p : t) : t :=
  let n := length (readables p) in
  set_onmessage (EnqueueTo n)
    (set_readables (λ l, l ++ [Readable [] false]) p).

Definition tee (p : t) : t := getReader p.

(** [input.getWriter().write(chunk)] *)
Definition write (chunk : string) (p : t) : t :=
  if bool_decide (ws_state p = OPEN)
  then Make (processId p) (ws_state p) (onmessage p) (exit p) (pipes p)
         (readables p) (sent p ++ [chunk])
  else p.

(** The handler in the slot runs on a message.  Each handler looks at
    [data.processId] and [data.type] only.  A write to a closed writer,
    [writer.close()] on a closed writer, and [enqueue] or [close] on a
    closed stream throw; the [catch] of the handler swallows that, and what
    came after the throwing call ([ws.close()]) does not run. *)
Definition run_handler (h : handler) (data : event) (p : t) : t :=
  match data with
  | ProcessOutput _ pid output _ =>
      if bool_decide (pid = processId p) then
        match h with
        | WriteTo n =>
            set_pipes (alter (λ w,
              if writer_closed w then w
              else Pipe (written w ++ [output]) false (exitCode w)) n) p
        | EnqueueTo n =>
            set_readables (alter (λ s,
              if closed s then s else Readable (queue s ++ [output]) false) n) p
        | ResolveExit | ResolveExitCode _ => p
        end
      else p
  | ProcessCompleted _ pid code _ _ =>
      if bool_decide (pid = processId p) then
        match h with
        | ResolveExit =>
            ws_close (Make (processId p) (ws_state p) (onmessage p)
                        (resolve (exit p) code) (pipes p) (readables p) (sent p))
        | WriteTo n =>
            match pipes p !! n with
            | Some w =>
                if writer_closed w then p
                else ws_close (set_pipes (alter (λ w,
                       Pipe (written w) true (exitCode w)) n) p)
            | None => p
            end
        | ResolveExitCode n =>
            ws_close (set_pipes (alter (λ w,
              Pipe (written w) (writer_closed w) (resolve (exitCode w) code)) n) p)
        | EnqueueTo n =>
            match readables p !! n with
            | Some s =>
                if closed s then p
                else ws_close (set_readables (alter (λ s,
                       Readable (queue s) true) n) p)
            | None => p
            end
        end
      else p
  | _ => p
  end.

(** A message arrives: the socket delivers it only while it is open. *)
Definition message (data : event) (p : t) : t :=
  if bool_decide (ws_state p = OPEN) then run_handler (onmessage p) data p else p.

(** What can happen to the object, and a sequence of it. *)
Inductive op :=
| Open
| Message (data : event)
| PipeTo
| Tee
| GetReader
| Write (chunk : string).

Definition apply (p : t) (o : op) : t :=
  match o with
  | Open => on_open p
  | Message data => message data p
  | PipeTo => pipeTo p
  | Tee => tee p
  | GetReader => getReader p
  | Write chunk => write chunk p
  end.

Definition run (p : t) (ops : list op) : t := foldl apply p ops.

(** The chunks of a process among the messages up to its completion, and
    whether the completion is among them. *)
Fixpoint output_until_completed (pid : string) (ms : list event)
  : list string * bool :=
  match ms with
  | [] => ([], false)
  | ProcessOutput _ q output _ :: ms' =>
      let '(chunks, done) := output_until_completed pid ms' in
      if bool_decide (q = pid) then (output :: chunks, done) else (chunks, done)
  | ProcessCompleted _ q _ _ _ :: ms' =>
      if bool_decide (q = pid) then ([], true) else output_until_completed pid ms'
  | _ :: ms' => output_until_completed pid ms'
  end.

(** The exit code of the first completion of a process among the
    messages. *)
Fixpoint first_completion (pid : string) (ms : list event) : option code :=
  match ms with
  | [] => None
  | ProcessCompleted _ q c _ _ :: ms' =>
      if bool_decide (q = pid) then Some c else first_completion pid ms'
  | _ :: ms' => first_completion pid ms'
  end.

End Process.

(** ** The event listeners of the facade

    [eventListeners] is a plain object ([{}]) used as a map from event names
    to arrays of callbacks.  A lookup of a name the object does not own
    falls through to [Object.prototype], so for the names every object
    inherits the lookup gives a function (or, for [__proto__], the
    prototype), which is truthy and is no array.  Callbacks are compared by
    identity; a callback is named by a number. *)
Module Events.

(** The property names of [Object.prototype]. *)
Definition inherited (event : string) : bool :=
  bool_decide (event ∈ ["constructor"; "__proto__"; "hasOwnProperty";
                        "isPrototypeOf"; "propertyIsEnumerable";
                        "toLocaleString"; "toString"; "valueOf";
                        "__defineGetter__"; "__defineSetter__";
                        "__lookupGetter__"; "__lookupSetter__"]).

(** [on(event, callback)]; calling [push] on an inherited property
    throws. *)
Definition on (event : string) (callback : nat) (l : gmap string (list nat))
  : string + gmap string (list nat) :=
  match l !! event with
  | Some callbacks => inr (<[event := callbacks ++ [callback]]> l)
  | None =>
      if inherited event
      then inl "TypeError: this.eventListeners[event].push is not a function"
      else inr (<[event := [] ++ [callback]]> l)
  end.

(** [off(event, callback)] *)
Definition off (event : string) (callback : nat) (l : gmap string (list nat))
  : string + gmap string (list nat) :=
  match l !! event with
  | Some callbacks => inr (<[event := filter (λ cb, cb ≠ callback) callbacks]> l)
  | None =>
      if inherited event
      then inl "TypeError: this.eventListeners[event].filter is not a function"
      else inr l
  end.

(** [getEventListeners(event)]: [this.eventListeners[event] || []]; [None]
    stands for an inherited property, which is no array of callbacks. *)
Definition getEventListeners (event : string) (l : gmap string (list nat)) : option (list nat) :=
  match l !! event with
  | Some callbacks => Some callbacks
  | None => if inherited event then None else Some []
  end.

End Events.

(** ** The boot sequence of the facade

    After [FlyContainer.boot] the module tries to tell the listeners of
    ['server-ready'] where the preview is, and forwards what arrives on its
    socket to the listeners of ['preview-message'].  A listener is taken to
    return, and not to register or remove listeners while it runs. *)
Module Boot.

Record t := Make {
  listeners : gmap string (list nat);       (* webcontainer.eventListeners *)
  retry : bool;                      (* setTimeout(emitServerReady, 1000) is pending *)
  called : list nat;                 (* the 'server-ready' listeners called so far *)
  forwarded : list (nat * event)     (* the 'preview-message' listeners called, with what *)
}.

(** [emitServerReady()] *)
Definition emitServerReady (b : t) : t :=
  let serverReadyListeners :=
    default [] (Events.getEventListeners "server-ready" (listeners b)) in
  if 0 <? length serverReadyListeners
  then Make (listeners b) (retry b) (called b ++ serverReadyListeners) (forwarded b)
  else Make (listeners b) true (called b) (forwarded b).

(** The state once the boot callback has made its first attempt
    ([emitServerReady()] "immediately"). *)
Definition start (l : gmap string (list nat)) : t :=
  emitServerReady (Make l false [] []).

(** [ws.onmessage] of the boot socket: the parsed message goes to every
    listener of ['preview-message']. *)
Definition onmessage (message : event) (b : t) : t :=
  let listeners := default [] (Events.getEventListeners "preview-message" (listeners b)) in
  Make (Boot.listeners b) (retry b) (called b)
    (forwarded b ++ ((λ listener, (listener, message)) <$> listeners)).

(** What happens after the first attempt: user code registers and removes
    listeners (a call that throws changes nothing), the retry timer fires,
    a message arrives. *)
Inductive step :=
| On (event : string) (callback : nat)
| Off (event : string) (callback : nat)
| Timer
| WsMessage (message : event).

Definition apply (b : t) (s : step) : t :=
  match s with
  | On event callback =>
      match Events.on event callback (listeners b) with
      | inr l => Make l (retry b) (called b) (forwarded b)
      | inl _ => b
      end
  | Off event callback =>
      match Events.off event callback (listeners b) with
      | inr l => Make l (retry b) (called b) (forwarded b)
      | inl _ => b
      end
  | Timer =>
      if retry b
      then emitServerReady (Make (listeners b) false (called b) (forwarded b))
      else b
  | WsMessage message => onmessage message b
  end.

Definition run (b : t) (steps : list step) : t := foldl apply b steps.

End Boot.

(** ** The preview page ([app/routes/webcontainer.preview.$id.tsx]) *)
Module PreviewPage.

(** The test of the page's [ws.onmessage]: whether a parsed message makes
    the page call [handleRefresh]. *)
Definition refreshes (previewId : string) (data : event) : bool :=
  match data with
  | RefreshPreview p | FileChange p _ => bool_decide (p = previewId)
  | PreviewReady _ _ _ | ProcessCompleted _ _ _ _ _ | ProcessOutput _ _ _ _ => false
  end.

End PreviewPage.

(** ** The cache of a container, and the paths a preview URL can name *)

(** The container object at [r] holds [content] for [filePath] in
    [container.files]. *)
Definition cached (r : nat) (filePath content : string) (st : server) : Prop :=
  ∃ c, heap st !! r = Some c ∧ files c !! filePath = Some content.

Definition keeps_cached (r : nat) (filePath content : string)
    (st st' : server) : Prop :=
  cached r filePath content st → cached r filePath content st'.

(** A POST request whose JSON body names [filePath].  Every write of the
    path is one, whatever session it is for. *)
Definition posts_path (filePath : string) (i : input) : Prop :=
  match i with
  | Http req _ => req_method req = POST ∧ body_path (req_body req) = Some filePath
  | _ => False
  end.

Global Instance posts_path_dec filePath i : Decision (posts_path filePath i).
Proof. destruct i; simpl; apply _. Defined.

(** Letters, digits, ['-'], ['_'] and ['.']: the characters of a URL path
    that percent-decoding leaves as they are. *)
Definition unreserved (a : ascii) : bool :=
  let n := nat_of_ascii a in
  ((65 <=? n) && (n <=? 90)) || ((97 <=? n) && (n <=? 122))
  || ((48 <=? n) && (n <=? 57))
  || bool_decide (a = "-"%char) || bool_decide (a = "_"%char)
  || bool_decide (a = "."%char).

Fixpoint all_unreserved (s : string) : bool :=
  match s with
  | "" => true
  | String a s' => unreserved a && all_unreserved s'
  end.

(** A path segment that reads the same in [req.path] and in [req.params],
    and that [res.sendFile] does not take for a dot file: it is not empty,
    does not start with a dot and has unreserved characters only. *)
Definition plain_segment (s : string) : bool :=
  match s with
  | "" => false
  | String a _ => negb (bool_decide (a = "."%char)) && all_unreserved s
  end.

(** * Properties *)

Ltac munfold :=
  cbv [mbind M_bind mret M_ret gets modify emit emits respond throw try_catch
       deref update alloc] in *.

(** ** The host paths on examples *)

Example join_plain_example : Path.join "/tmp/s1" "src/a.txt" = "/tmp/s1/src/a.txt".
Proof. reflexivity. Qed.
Example join_dotdot_example : Path.join "/tmp/s1" "../s2/a.txt" = "/tmp/s2/a.txt".
Proof. reflexivity. Qed.
Example join_root_cwd_example : Path.join "/tmp/s1" "/" = "/tmp/s1/".
Proof. reflexivity. Qed.
Example join_above_root_example : Path.join "/tmp" "../../etc" = "/etc".
Proof. reflexivity. Qed.
Example dirname_nested_example : Path.dirname "/tmp/s1/src/a.txt" = "/tmp/s1/src".
Proof. reflexivity. Qed.
Example dirname_trailing_example : Path.dirname "/tmp/s1/" = "/tmp".
Proof. reflexivity. Qed.
Example dirname_top_example : Path.dirname "/tmp" = "/".
Proof. reflexivity. Qed.
Example resolve_join_example : Path.resolve (Path.join "/tmp/s1" "a//./b/") = ["tmp"; "s1"; "a"; "b"].
Proof. reflexivity. Qed.

(** ** The monad and the helpers *)

Lemma broadcastToContainer_eq previewId data st :
  broadcastToContainer previewId data st
  = (st, Broadcast previewId data :: ((λ ws, Send ws data) <$> recipients st previewId),
     inr ()).
Proof.
  unfold broadcastToContainer, recipients. munfold.
  destruct (containers st !! previewId) as [r|]; [|done].
  destruct (heap st !! r) as [c|]; done.
Qed.

Lemma get_or_create_found previewId st r :
  containers st !! previewId = Some r →
  get_or_create previewId st = (st, [], inr r).
Proof. intros E. unfold get_or_create. munfold. by rewrite E. Qed.

Lemma get_or_create_new previewId st d :
  containers st !! previewId = None →
  Fs.mkdirSync (disk st) (Path.join "/tmp" previewId) = inr d →
  get_or_create previewId st
  = (created previewId d st, [FsCall (MkdirSync (Path.join "/tmp" previewId))],
     inr (length (heap st))).
Proof.
  intros E Hd. unfold get_or_create, createContainer, mkdirSync. munfold.
  by rewrite E, Hd.
Qed.

Lemma get_or_create_fails previewId st e :
  containers st !! previewId = None →
  Fs.mkdirSync (disk st) (Path.join "/tmp" previewId) = inl e →
  get_or_create previewId st
  = (st, [FsCall (MkdirSync (Path.join "/tmp" previewId))], inl (FsError e)).
Proof.
  intros E Hd. unfold get_or_create, createContainer, mkdirSync. munfold.
  by rewrite E, Hd.
Qed.

(** ** The registry *)

(** C10: a WebSocket connection whose URL carries no [previewId] (the
    parameter is absent, or present and empty) is closed at once: the only
    effect is [ws.close()], no listener is attached to the socket, and the
    registry, the container objects, the file system, the children and the
    timers are what they were. *)
Theorem connection_without_previewId_is_closed (st : server) :
  let turned_away :=
    (set_sockets (λ s, s ++ [Socket CLOSING None]) st,
     [CloseSocket (length (sockets st))], inr ()) in
  (step st (Connection None) = turned_away
   ∧ step st (Connection (Some "")) = turned_away)
  ∧ containers turned_away.1.1 = containers st
  ∧ heap turned_away.1.1 = heap st
  ∧ disk turned_away.1.1 = disk st
  ∧ children turned_away.1.1 = children st
  ∧ timers turned_away.1.1 = timers st
  ∧ is_open (sockets turned_away.1.1) (length (sockets st)) = false.
Proof.
  repeat split. unfold is_open; simpl.
  by rewrite lookup_app_r, Nat.sub_diag.
Qed.

(** C6: the get-or-create pattern is idempotent.  When a first call for an
    identifier returns a container object, the registry holds that object
    under the identifier, and a second call returns the same object and
    leaves the whole state as it is: nothing is allocated, no directory is
    made, no client set or process set is touched. *)
Theorem get_or_create_idempotent (previewId : string) (st st1 : server)
    (log : list effect) (r : nat) :
  get_or_create previewId st = (st1, log, inr r) →
  containers st1 !! previewId = Some r
  ∧ get_or_create previewId st1 = (st1, [], inr r).
Proof.
  intros H.
  assert (containers st1 !! previewId = Some r) as E.
  { revert H. unfold get_or_create, createContainer, mkdirSync. munfold.
    destruct (containers st !! previewId) as [r0|] eqn:E.
    - by intros [= <- <- <-].
    - destruct (Fs.mkdirSync _ _); simpl; [done|].
      intros [= <- <- <-]. simpl. by rewrite lookup_insert_eq. }
  split; [done|]. by apply get_or_create_found.
Qed.

Lemma get_or_create_idempotent_witness :
  let first := get_or_create "s1" (initial ∅) in
  first.2 = inr 0
  ∧ containers first.1.1 !! "s1" = Some 0
  ∧ get_or_create "s1" first.1.1 = (first.1.1, [], inr 0).
Proof.
  split; [vm_compute; reflexivity|].
  apply (get_or_create_idempotent "s1" (initial ∅) _
           [FsCall (MkdirSync "/tmp/s1")] 0).
  vm_compute. reflexivity.
Defined.

Lemma created_registered st previewId d :
  registered_as_new st (created previewId d st) previewId.
Proof.
  split; simpl; [by rewrite lookup_insert_eq|].
  eexists. split; [by rewrite lookup_app_r, Nat.sub_diag|done].
Qed.

Lemma registered_as_new_alter st st' previewId f :
  (∀ c, container_id (f c) = container_id c ∧ dir (f c) = dir c) →
  registered_as_new st st' previewId →
  ∀ st'', containers st'' = containers st' →
          heap st'' = alter f (length (heap st)) (heap st') →
          registered_as_new st st'' previewId.
Proof.
  intros Hf [E (c & Hc & Hid & Hdir)] st'' Hcs Hh. split; [by rewrite Hcs|].
  exists (f c). rewrite Hh, list_lookup_alter_eq, Hc. simpl.
  destruct (Hf c) as [-> ->]. done.
Qed.

Lemma registered_as_new_same st st' previewId st'' :
  registered_as_new st st' previewId →
  containers st'' = containers st' → heap st'' = heap st' →
  registered_as_new st st'' previewId.
Proof.
  intros [E H] Hc Hh. unfold registered_as_new. rewrite Hc, Hh. by split.
Qed.

(** ** Paths *)

Section path_facts.
Import Path.

Lemma split_slash_nonempty s : split_slash s ≠ [].
Proof.
  destruct s as [|c r]; simpl; [done|].
  destruct (is_sep c); [done|]. by destruct (split_slash r).
Qed.

Lemma split_slash_no_sep s : Forall (λ x, no_sep x = true) (split_slash s).
Proof.
  induction s as [|c r IH]; simpl.
  - by repeat constructor.
  - destruct (is_sep c) eqn:Hc; [by constructor|].
    destruct (split_slash r) as [|h t]; simpl.
    + repeat constructor. simpl. by rewrite Hc.
    + inversion_clear IH. constructor; [|done]. simpl. by rewrite Hc.
Qed.

Lemma split_slash_plain s : no_sep s = true → split_slash s = [s].
Proof.
  induction s as [|c r IH]; simpl; [done|].
  intros [Hc Hr]%andb_true_iff. apply negb_true_iff in Hc.
  by rewrite Hc, IH.
Qed.

Lemma split_slash_app a b :
  split_slash (a +:+ "/" +:+ b) = split_slash a ++ split_slash b.
Proof.
  induction a as [|c r IH]; simpl; [done|].
  destruct (is_sep c); [by rewrite IH|].
  rewrite IH. pose proof (split_slash_nonempty r).
  by destruct (split_slash r).
Qed.

Lemma split_join_slash segs :
  segs ≠ [] → Forall (λ x, no_sep x = true) segs →
  split_slash (join_slash segs) = segs.
Proof.
  induction segs as [|s [|s' rest] IH]; [done| |].
  - intros _ H. inversion_clear H. by apply split_slash_plain.
  - intros _ H. inversion_clear H.
    change (join_slash (s :: s' :: rest))
      with (s +:+ "/" +:+ join_slash (s' :: rest)).
    rewrite split_slash_app, split_slash_plain, IH by done. done.
Qed.

Lemma normalizeString_app a acc l1 l2 :
  normalizeString a acc (l1 ++ l2)
  = normalizeString a (reverse (normalizeString a acc l1)) l2.
Proof.
  revert acc. induction l1 as [|s l1 IH]; intros acc; simpl.
  - by rewrite reverse_involutive.
  - repeat case_match; apply IH.
Qed.

Lemma normalizeString_no_dotdot a acc segs :
  ".." ∉ segs →
  normalizeString a acc segs = reverse acc ++ filter kept segs.
Proof.
  revert acc. induction segs as [|s segs IH]; intros acc Hn; simpl.
  - by rewrite app_nil_r.
  - apply not_elem_of_cons in Hn as [Hs Hn].
    rewrite filter_cons.
    case_bool_decide as H1.
    + rewrite decide_False by (unfold kept; tauto). by apply IH.
    + rewrite decide_True by (unfold kept; tauto).
      rewrite bool_decide_eq_false_2 by done.
      rewrite IH by done. by rewrite reverse_cons, <- app_assoc.
Qed.

Lemma normalizeString_plain acc segs :
  Forall plain acc → Forall (λ x, no_sep x = true) segs →
  Forall plain (normalizeString false acc segs).
Proof.
  revert acc. induction segs as [|s segs IH]; intros acc Hacc Hsegs; simpl.
  - by apply Forall_reverse.
  - inversion_clear Hsegs.
    case_bool_decide as H1; [by apply IH|].
    case_bool_decide as H2.
    + destruct acc as [|top acc]; [by apply IH|].
      inversion_clear Hacc as [|?? Htop ?].
      rewrite bool_decide_eq_false_2 by (destruct Htop; tauto).
      by apply IH.
    + apply IH; [|done]. constructor; [|done].
      unfold plain. tauto.
Qed.

Lemma filter_kept_plain segs : Forall plain segs → filter kept segs = segs.
Proof.
  induction 1 as [|s segs Hs _ IH]; [done|].
  rewrite filter_cons, decide_True, IH; [done|].
  unfold kept. destruct Hs. tauto.
Qed.

Lemma plain_not_dotdot segs : Forall plain segs → ".." ∉ segs.
Proof.
  intros H Hin. rewrite Forall_forall in H.
  destruct (H _ Hin) as (_ & _ & ? & _). done.
Qed.

Lemma resolve_plain p : Forall plain (resolve p).
Proof.
  apply normalizeString_plain; [constructor|apply split_slash_no_sep].
Qed.

Lemma join_slash_empty segs : Forall plain segs → join_slash segs = "" → segs = [].
Proof.
  destruct segs as [|s [|s' rest]]; [done| |]; intros H; inversion_clear H as [|?? Hs _].
  - simpl. intros ->. by destruct Hs.
  - change (join_slash (s :: s' :: rest))
      with (s +:+ "/" +:+ join_slash (s' :: rest)).
    destruct s; [by destruct Hs|done].
Qed.

(** For an absolute path, [normalize] writes out the segments the path
    resolves to. *)
Lemma resolve_normalize p :
  isAbsolute p = true → resolve (normalize p) = resolve p.
Proof.
  intros Habs. unfold normalize.
  destruct p as [|c0 p0] eqn:Ep; [done|]. rewrite <- Ep in *.
  rewrite bool_decide_eq_false_2 by (by rewrite Ep).
  rewrite Habs. simpl negb. fold (resolve p).
  pose proof (resolve_plain p) as Hplain.
  case_bool_decide as Hempty.
  - apply join_slash_empty in Hempty; [|done]. by rewrite Hempty.
  - assert (resolve p ≠ []) as Hne by (by intros E; rewrite E in Hempty).
    assert (Forall (λ x, no_sep x = true) (resolve p)) as Hns.
    { eapply Forall_impl; [done|]. by intros ? (_ & _ & _ & ?). }
    unfold resolve at 1.
    destruct (trailingSeparator p).
    + change ("/" +:+ join_slash (resolve p) +:+ "/")
        with (String "/" (join_slash (resolve p) +:+ "/" +:+ "")).
      simpl split_slash. rewrite split_slash_app, split_join_slash by done.
      simpl. rewrite normalizeString_no_dotdot.
      * simpl. rewrite filter_app, filter_kept_plain by done.
        rewrite filter_cons, decide_False by (unfold kept; tauto).
        by rewrite filter_nil, app_nil_r.
      * intros [?%plain_not_dotdot|Hin%list_elem_of_singleton]%elem_of_app; done.
    + change ("/" +:+ join_slash (resolve p))
        with (String "/" (join_slash (resolve p))).
      simpl split_slash. rewrite split_join_slash by done.
      simpl. rewrite normalizeString_no_dotdot by (by apply plain_not_dotdot).
      simpl. by apply filter_kept_plain.
Qed.

Lemma normalize_absolute p : isAbsolute p = true → isAbsolute (normalize p) = true.
Proof.
  intros Habs. unfold normalize. rewrite Habs.
  destruct p; [done|]. rewrite bool_decide_eq_false_2 by done.
  by repeat case_match.
Qed.

Lemma join_nonempty a b :
  a ≠ "" →
  join a b = normalize (if bool_decide (b = "") then a else a +:+ "/" +:+ b).
Proof.
  intros Ha. unfold join. rewrite (bool_decide_eq_false_2 (a = "")) by done.
  destruct a as [|c a]; [done|].
  destruct (bool_decide (b = "")); by rewrite bool_decide_eq_false_2.
Qed.

Lemma join_absolute a b : isAbsolute a = true → isAbsolute (join a b) = true.
Proof.
  intros Habs. destruct a as [|c a]; [done|].
  rewrite join_nonempty by done.
  destruct (bool_decide (b = "")); by apply normalize_absolute.
Qed.

(** Where [path.join] lands when the second argument has no [".."]
    segment: below the first argument, by the segments it keeps. *)
Lemma resolve_join root p :
  isAbsolute root = true → ".." ∉ split_slash p →
  resolve (join root p) = resolve root ++ filter kept (split_slash p).
Proof.
  intros Habs Hp.
  assert (root ≠ "") as Hne by (by intros ->).
  rewrite join_nonempty by done.
  case_bool_decide as Hb.
  - rewrite resolve_normalize by done. subst p. simpl.
    rewrite filter_cons, decide_False by (unfold kept; tauto).
    by rewrite filter_nil, app_nil_r.
  - rewrite resolve_normalize by (by destruct root).
    unfold resolve. rewrite split_slash_app, normalizeString_app.
    rewrite normalizeString_no_dotdot by done.
    by rewrite reverse_involutive.
Qed.

Lemma chars_app a b : Strings.String.list_ascii_of_string (a +:+ b) = Strings.String.list_ascii_of_string a ++ Strings.String.list_ascii_of_string b.
Proof.
  induction a as [|c a IH]; [done|].
  change (c :: Strings.String.list_ascii_of_string (a +:+ b) = c :: Strings.String.list_ascii_of_string a ++ Strings.String.list_ascii_of_string b). by f_equal.
Qed.

Lemma unchars_chars s : Strings.String.string_of_list_ascii (Strings.String.list_ascii_of_string s) = s.
Proof. induction s as [|c s IH]; simpl; [done|]. by rewrite IH. Qed.

Lemma no_sep_chars s : no_sep s = true → Forall (λ c, is_sep c = false) (Strings.String.list_ascii_of_string s).
Proof.
  induction s as [|c s IH]; simpl; [constructor|].
  intros [Hc Hs]%andb_true_iff. constructor; [by apply negb_true_iff|auto].
Qed.

Lemma drop_while_all {A} (f : A → bool) l1 l2 :
  Forall (λ x, f x = true) l1 → drop_while f (l1 ++ l2) = drop_while f l2.
Proof. induction 1 as [|x l1 Hx _ IH]; simpl; [done|]. by rewrite Hx. Qed.

Lemma string_app_assoc a b c : (a +:+ b) +:+ c = a +:+ (b +:+ c).
Proof.
  induction a as [|x a IH]; [done|].
  change (String x ((a +:+ b) +:+ c) = String x (a +:+ b +:+ c)). by f_equal.
Qed.

Lemma join_slash_snoc init last :
  init ≠ [] → join_slash (init ++ [last]) = join_slash init +:+ "/" +:+ last.
Proof.
  induction init as [|s [|s' init] IH]; [done|done|]. intros _.
  change (join_slash ((s :: s' :: init) ++ [last]))
    with (s +:+ "/" +:+ join_slash ((s' :: init) ++ [last])).
  rewrite IH by done.
  change (join_slash (s :: s' :: init)) with (s +:+ "/" +:+ join_slash (s' :: init)).
  generalize (join_slash (s' :: init)). intros j.
  by rewrite (string_app_assoc s).
Qed.

Lemma resolve_rendered segs :
  Forall plain segs → resolve ("/" +:+ join_slash segs) = segs.
Proof.
  intros Hplain. destruct (decide (segs = [])) as [->|Hne]; [done|].
  unfold resolve.
  change ("/" +:+ join_slash segs) with (String "/"%char (join_slash segs)).
  simpl split_slash. rewrite split_join_slash; [|done|].
  - simpl. rewrite normalizeString_no_dotdot by (by apply plain_not_dotdot).
    simpl. by apply filter_kept_plain.
  - eapply Forall_impl; [done|]. by intros ? (_ & _ & _ & ?).
Qed.

Lemma dirname_rendered segs (tr : bool) :
  Forall plain segs → segs ≠ [] →
  resolve (dirname ("/" +:+ join_slash segs +:+ (if tr then "/" else "")))
  = removelast segs.
Proof.
  intros Hplain Hne.
  destruct (exists_last Hne) as (init & last & ->).
  apply Forall_app in Hplain as [Hinit Hlast].
  inversion_clear Hlast as [|?? (Hl1 & _ & _ & Hl2) _].
  rewrite removelast_last.
  change ("/" +:+ join_slash (init ++ [last]) +:+ (if tr then "/" else ""))
    with (String "/"%char (join_slash (init ++ [last]) +:+ (if tr then "/" else ""))).
  unfold dirname. rewrite chars_app, reverse_app.
  assert (drop_while is_sep (reverse (Strings.String.list_ascii_of_string (if tr then "/" else "")) ++
            reverse (Strings.String.list_ascii_of_string (join_slash (init ++ [last]))))
          = reverse (Strings.String.list_ascii_of_string (join_slash (init ++ [last])))) as ->.
  { assert (∃ c l, reverse (Strings.String.list_ascii_of_string last) = c :: l ∧ is_sep c = false) as (c & l & Hr & Hc).
    { pose proof (no_sep_chars _ Hl2) as Hall.
      apply Forall_reverse in Hall.
      destruct (reverse (Strings.String.list_ascii_of_string last)) as [|c l] eqn:Hr.
      - apply (f_equal reverse) in Hr. rewrite reverse_involutive in Hr.
        destruct last; done.
      - inversion_clear Hall. eauto. }
    assert (∃ l', reverse (Strings.String.list_ascii_of_string (join_slash (init ++ [last]))) = c :: l') as [l' Hl'].
    { destruct (decide (init = [])) as [->|Hi].
      - simpl. eauto.
      - rewrite join_slash_snoc, !chars_app, !reverse_app, Hr by done. simpl. eauto. }
    rewrite Hl'. destruct tr; simpl; by rewrite Hc. }
  destruct (decide (init = [])) as [->|Hi].
  - simpl join_slash.
    rewrite <- (app_nil_r (reverse (Strings.String.list_ascii_of_string last))).
    rewrite drop_while_all.
    + done.
    + apply Forall_reverse. eapply Forall_impl; [by apply no_sep_chars|].
      intros c Hc. simpl in Hc. by rewrite Hc.
  - rewrite join_slash_snoc, !chars_app, !reverse_app by done.
    rewrite <- app_assoc. rewrite drop_while_all.
    + simpl. 
      assert (reverse (Strings.String.list_ascii_of_string (join_slash init)) ≠ []) as Hj.
      { intros Hr. apply (f_equal reverse) in Hr. rewrite reverse_involutive in Hr.
        destruct init as [|s init]; [done|].
        inversion_clear Hinit as [|?? (Hs & _) _].
        destruct init; simpl in Hr; destruct s; done. }
      rewrite bool_decide_eq_false_2 by done. simpl.
      rewrite reverse_involutive, unchars_chars.
      by apply resolve_rendered.
    + apply Forall_reverse. eapply Forall_impl; [by apply no_sep_chars|].
      intros c Hc. simpl in Hc. by rewrite Hc.
Qed.

Lemma string_app_empty s : s +:+ "" = s.
Proof.
  induction s as [|c s IH]; [done|].
  change (String c (s +:+ "") = String c s). by f_equal.
Qed.

(** An absolute path is normalized to a slash, or to its segments written
    out after a slash, with a slash at the end if it had one. *)
Lemma normalize_cases q :
  isAbsolute q = true →
  (resolve q = [] ∧ normalize q = "/")
  ∨ (resolve q ≠ []
     ∧ normalize q
       = "/" +:+ join_slash (resolve q) +:+ (if trailingSeparator q then "/" else "")).
Proof.
  intros Habs. unfold normalize. destruct q as [|c0 q0] eqn:Eq; [done|].
  rewrite <- Eq in *. rewrite bool_decide_eq_false_2 by (by rewrite Eq).
  rewrite Habs. simpl negb. fold (resolve q).
  case_bool_decide as Hempty.
  - left. split; [|done]. apply join_slash_empty; [apply resolve_plain|done].
  - right. split; [by intros E; rewrite E in Hempty|].
    destruct (trailingSeparator q); [done|]. by rewrite string_app_empty.
Qed.

Lemma resolve_dirname_normalize q :
  isAbsolute q = true →
  resolve (dirname (normalize q)) = removelast (resolve q).
Proof.
  intros Habs. destruct (normalize_cases q Habs) as [[E ->]|[Hne ->]].
  - by rewrite E.
  - apply dirname_rendered; [apply resolve_plain|done].
Qed.

(** [dirname] of a joined path names the parent of what the joined path
    names. *)
Lemma resolve_dirname_join root p :
  isAbsolute root = true →
  resolve (dirname (join root p)) = removelast (resolve (join root p)).
Proof.
  intros Habs. assert (root ≠ "") as Hne by (by intros ->).
  rewrite join_nonempty by done.
  assert (isAbsolute (if bool_decide (p = "") then root else root +:+ "/" +:+ p) = true)
    as Habs'.
  { case_bool_decide; [done|]. by destruct root. }
  by rewrite resolve_dirname_normalize, resolve_normalize.
Qed.

End path_facts.

(** ** A frame rule for callbacks

    [R] relates the state before a callback to the state after it, [L] says
    which effects a callback may log in a given state.  A callback respects
    the pair when its final state is related to its initial one and its log
    is allowed; this is shown once per primitive and carried through
    [mbind] and [try_catch]. *)
Section respects.
Context (R : server → server → Prop) (L : server → effect → Prop).
Hypothesis R_refl : ∀ st, R st st.
Hypothesis R_trans : ∀ st1 st2 st3, R st1 st2 → R st2 st3 → R st1 st3.
Hypothesis L_back : ∀ st st' e, R st st' → L st' e → L st e.

Lemma respects_ret {A} (a : A) : respects R L (mret a).
Proof. intros st. split; [apply R_refl|constructor]. Qed.

Lemma respects_gets {A} (f : server → A) : respects R L (gets f).
Proof. intros st. split; [apply R_refl|constructor]. Qed.

Lemma respects_throw {A} e : respects R L (throw (A:=A) e).
Proof. intros st. split; [apply R_refl|constructor]. Qed.

Lemma respects_modify f : (∀ st, R st (f st)) → respects R L (modify f).
Proof. intros H st. split; [apply H|constructor]. Qed.

Lemma respects_emits l : (∀ st, Forall (L st) l) → respects R L (emits l).
Proof. intros H st. split; [apply R_refl|apply H]. Qed.

Lemma respects_emit e : (∀ st, L st e) → respects R L (emit e).
Proof. intros H st. split; [apply R_refl|]. repeat constructor. apply H. Qed.

Lemma respects_bind {A B} (m : M A) (f : A → M B) :
  respects R L m → (∀ a, respects R L (f a)) → respects R L (m ≫= f).
Proof.
  intros Hm Hf st. unfold mbind, M_bind.
  destruct (Hm st) as [HR HL].
  destruct (m st) as [[st1 l1] [e|a]]; simpl in *; [done|].
  destruct (Hf a st1) as [HR' HL'].
  destruct (f a st1) as [[st2 l2] r]; simpl in *.
  split; [by eapply R_trans|].
  apply Forall_app. split; [done|].
  eapply Forall_impl; [exact HL'|]. intros e. by apply L_back.
Qed.

Lemma respects_try_catch {A} (m : M A) (h : exn → M A) :
  respects R L m → (∀ e, respects R L (h e)) → respects R L (try_catch m h).
Proof.
  intros Hm Hh st. unfold try_catch.
  destruct (Hm st) as [HR HL].
  destruct (m st) as [[st1 l1] [e|a]]; simpl in *; [|done].
  destruct (Hh e st1) as [HR' HL'].
  destruct (h e st1) as [[st2 l2] r]; simpl in *.
  split; [by eapply R_trans|].
  apply Forall_app. split; [done|].
  eapply Forall_impl; [exact HL'|]. intros e'. by apply L_back.
Qed.

Lemma respects_for_each {A} (f : A → M unit) (l : list A) :
  (∀ x, x ∈ l → respects R L (f x)) → respects R L (for_each f l).
Proof.
  induction l as [|x l IH]; intros H; simpl.
  - apply respects_ret.
  - apply respects_bind; [apply H; left|].
    intros _. apply IH. intros y Hy. apply H. by right.
Qed.

(** What the pair has to allow. *)
Hypothesis L_quiet : ∀ st e, quiet e → L st e.
Hypothesis L_broadcast : ∀ st previewId data,
  event_previewId data = previewId → is_process_completed data = false →
  L st (Broadcast previewId data)
  ∧ ∀ ws, ws ∈ recipients st previewId → L st (Send ws data).
Hypothesis L_completed : ∀ st previewId data,
  event_previewId data = previewId →
  L st (Broadcast previewId data)
  ∧ ∀ ws, ws ∈ recipients st previewId → L st (Send ws data).
Hypothesis R_disk : ∀ st d, R st (set_disk d st).
Hypothesis R_fields : ∀ st r f, keeps_clients f → R st (set_heap (alter f r) st).
Hypothesis R_created : ∀ st previewId d,
  containers st !! previewId = None → R st (created previewId d st).
Hypothesis R_spawn : ∀ st c, R st (set_children (λ cs, cs ++ [c]) st).
Hypothesis R_ready : ∀ st ws f,
  (∀ s, listeners (f s) = listeners s) → R st (set_sockets (alter f ws) st).
Hypothesis R_leave : ∀ st r ws,
  R st (set_heap (alter (with_clients (set_delete ws)) r) st).
Hypothesis R_timers : ∀ st f, R st (set_timers f st).
Hypothesis R_now : ∀ st t, R st (set_now t st).
Hypothesis R_forget : ∀ st previewId,
  R st (set_containers (delete previewId) st).

Lemma respects_respond status b : respects R L (respond status b).
Proof. apply respects_emit. intros st. by apply L_quiet. Qed.

Lemma respects_mkdirSync p : respects R L (mkdirSync p).
Proof.
  intros st. unfold mkdirSync. destruct (Fs.mkdirSync _ _); simpl;
    (split; [try apply R_refl; try apply R_disk|]);
    repeat constructor; by apply L_quiet.
Qed.

Lemma respects_writeFileSync p content : respects R L (writeFileSync p content).
Proof.
  intros st. unfold writeFileSync. destruct (Fs.writeFileSync _ _ _); simpl;
    (split; [try apply R_refl; try apply R_disk|]);
    repeat constructor; by apply L_quiet.
Qed.

Lemma respects_existsSync p : respects R L (existsSync p).
Proof.
  intros st. split; [apply R_refl|]. repeat constructor. by apply L_quiet.
Qed.

Lemma respects_isFile p : respects R L (isFile p).
Proof. apply respects_gets. Qed.

Lemma respects_readFileSync p : respects R L (readFileSync p).
Proof.
  intros st. unfold readFileSync. destruct (Fs.readFileSync _ _); simpl;
    (split; [apply R_refl|]); repeat constructor; by apply L_quiet.
Qed.

Lemma respects_deref r : respects R L (deref r).
Proof.
  intros st. unfold deref. destruct (heap st !! r); simpl;
    (split; [apply R_refl|constructor]).
Qed.

Lemma respects_update r f : keeps_clients f → respects R L (update r f).
Proof. intros Hf. apply respects_modify. intros st. by apply R_fields. Qed.

Lemma respects_exec command cwd processId previewId r :
  respects R L (exec command cwd processId previewId r).
Proof.
  intros st. split; [apply R_spawn|]. repeat constructor. by apply L_quiet.
Qed.

Lemma respects_get_or_create previewId : respects R L (get_or_create previewId).
Proof.
  intros st. destruct (containers st !! previewId) as [r|] eqn:E.
  - rewrite (get_or_create_found _ _ r) by done. split; [apply R_refl|constructor].
  - destruct (Fs.mkdirSync (disk st) (Path.join "/tmp" previewId)) as [e|d] eqn:Hd.
    + rewrite (get_or_create_fails _ _ e) by done.
      split; [apply R_refl|]. repeat constructor. by apply L_quiet.
    + rewrite (get_or_create_new _ _ d) by done.
      split; [by apply R_created|]. repeat constructor. by apply L_quiet.
Qed.

Lemma respects_broadcast previewId data :
  event_previewId data = previewId → is_process_completed data = false →
  respects R L (broadcastToContainer previewId data).
Proof.
  intros Hid Hnc st. rewrite broadcastToContainer_eq. simpl.
  destruct (L_broadcast st previewId data Hid Hnc) as [Hb Hs].
  split; [apply R_refl|]. constructor; [done|].
  apply Forall_fmap, Forall_forall. intros ws Hws. by apply Hs.
Qed.

Lemma respects_broadcast_completed previewId data :
  event_previewId data = previewId →
  respects R L (broadcastToContainer previewId data).
Proof.
  intros Hid st. rewrite broadcastToContainer_eq. simpl.
  destruct (L_completed st previewId data Hid) as [Hb Hs].
  split; [apply R_refl|]. constructor; [done|].
  apply Forall_fmap, Forall_forall. intros ws Hws. by apply Hs.
Qed.

Ltac respects_go :=
  repeat first
    [ apply respects_ret | apply respects_gets | apply respects_throw
    | apply respects_respond | apply respects_mkdirSync
    | apply respects_writeFileSync | apply respects_existsSync
    | apply respects_isFile | apply respects_readFileSync
    | apply respects_deref | apply respects_exec
    | apply respects_get_or_create
    | apply respects_broadcast; [done|done]
    | apply respects_update; by intros []
    | apply respects_bind; [|intros ?]
    | apply respects_try_catch; [|intros ?]
    | progress cbv zeta
    | match goal with
      | |- respects R L (match ?x with _ => _ end) => destruct x
      end ].

Lemma respects_files_write previewId b : respects R L (files_write previewId b).
Proof. unfold files_write. respects_go. Qed.

Lemma respects_files_read previewId q : respects R L (files_read previewId q).
Proof. unfold files_read. respects_go. Qed.

Lemma respects_execute previewId b uuid : respects R L (execute previewId b uuid).
Proof. unfold execute. respects_go. Qed.

Lemma respects_preview_index previewId : respects R L (preview_index previewId).
Proof. unfold preview_index. respects_go. Qed.

Lemma respects_preview_static previewId filePath :
  respects R L (preview_static previewId filePath).
Proof. unfold preview_static. respects_go. Qed.

Lemma respects_app req uuid : respects R L (app req uuid).
Proof.
  unfold app. apply respects_try_catch; [|intros ?; apply respects_respond].
  unfold route.
  repeat first
    [ apply respects_files_write | apply respects_files_read
    | apply respects_execute | apply respects_preview_index
    | apply respects_preview_static | apply respects_respond
    | match goal with
      | |- respects R L (match ?x with _ => _ end) => destruct x
      end ].
Qed.

Lemma respects_on_message ws p : respects R L (on_message ws p).
Proof. unfold on_message. respects_go. Qed.

Lemma respects_on_child_data k from chunk : respects R L (on_child_data k from chunk).
Proof. unfold on_child_data. respects_go. Qed.

Lemma respects_on_exec_done k error stdout stderr :
  (∀ st, R st (set_children (alter completed k) st)) →
  respects R L (on_exec_done k error stdout stderr).
Proof.
  intros Hk. unfold on_exec_done.
  apply respects_bind; [apply respects_gets|]. intros [c|]; [|apply respects_ret].
  destruct (child_completed c); [apply respects_ret|].
  apply respects_bind; [by apply respects_modify|]. intros _.
  apply respects_bind; [apply respects_update; by intros []|]. intros _.
  by apply respects_broadcast_completed.
Qed.

Lemma respects_on_closing ws : respects R L (on_closing ws).
Proof. apply respects_modify. intros st. by apply R_ready. Qed.

Lemma respects_on_close ws : respects R L (on_close ws).
Proof.
  unfold on_close.
  repeat first
    [ apply respects_ret | apply respects_gets
    | apply respects_modify; intros ?;
        first [ apply R_ready; done | apply R_leave | apply R_timers ]
    | apply respects_bind; [|intros ?]
    | match goal with
      | |- respects R L (match ?x with _ => _ end) => destruct x
      end ].
Qed.

Lemma respects_cleanup previewId : respects R L (cleanup previewId).
Proof.
  unfold cleanup.
  repeat first
    [ apply respects_ret | apply respects_gets
    | apply respects_modify; intros ?; apply R_forget
    | apply respects_bind; [|intros ?]
    | match goal with
      | |- respects R L (match ?x with _ => _ end) => destruct x
      end ].
Qed.

Lemma respects_advance ms : respects R L (advance ms).
Proof.
  unfold advance.
  apply respects_bind; [apply respects_gets|]. intros t.
  apply respects_bind; [apply respects_modify; intros ?; apply R_now|]. intros _.
  apply respects_bind; [apply respects_gets|]. intros ts.
  apply respects_bind; [apply respects_modify; intros ?; apply R_timers|]. intros _.
  apply respects_for_each. intros x _. apply respects_cleanup.
Qed.

(** Every callback, given the two that need their own argument. *)
Lemma respects_handle i :
  (∀ previewId, i = Connection previewId → respects R L (on_connection previewId)) →
  (∀ k error stdout stderr, i = ExecDone k error stdout stderr →
     respects R L (on_exec_done k error stdout stderr)) →
  respects R L (handle i).
Proof.
  intros Hconn Hdone. destruct i; simpl.
  - by apply Hconn.
  - apply respects_on_message.
  - apply respects_on_closing.
  - apply respects_on_close.
  - apply respects_app.
  - apply respects_on_child_data.
  - by apply Hdone.
  - apply respects_advance.
Qed.

(** A new connection, for a relation that does not look at who is
    connected. *)
Hypothesis R_sockets : ∀ st f, R st (set_sockets f st).
Hypothesis R_alter : ∀ st r f, R st (set_heap (alter f r) st).

Lemma respects_on_connection previewId : respects R L (on_connection previewId).
Proof.
  unfold on_connection.
  repeat first
    [ apply respects_ret | apply respects_gets | apply respects_get_or_create
    | apply respects_modify; intros ?; apply R_sockets
    | apply respects_modify; intros ?; apply R_alter
    | apply respects_emit; intros ?; by apply L_quiet
    | apply respects_bind; [|intros ?]
    | match goal with
      | |- respects R L (match ?x with _ => _ end) => destruct x
      end ].
Qed.

End respects.

(** ** The registry invariant holds in every state the server reaches *)

Lemma wf_initial d : wf (initial d).
Proof. intros previewId r E. simpl in E. by rewrite lookup_empty in E. Qed.

Lemma wf_same st st' :
  containers st' = containers st → heap st' = heap st → sockets st' = sockets st →
  wf st → wf st'.
Proof. intros Hc Hh Hs H previewId r. rewrite Hc, Hh, Hs. apply H. Qed.

Lemma wf_fields st r0 f :
  keeps_clients f → wf st → wf (set_heap (alter f r0) st).
Proof.
  intros Hf H previewId r E. destruct (H previewId r E) as (c & Hc & Hid & Hdir & Hnd & Hcl).
  simpl. destruct (decide (r = r0)) as [->|Hne].
  - exists (f c). rewrite list_lookup_alter_eq, Hc. destruct (Hf c) as (-> & -> & ->).
    done.
  - exists c. by rewrite list_lookup_alter_ne.
Qed.

Lemma wf_leave st r0 ws :
  wf st → wf (set_heap (alter (with_clients (set_delete ws)) r0) st).
Proof.
  intros H previewId r E. destruct (H previewId r E) as (c & Hc & Hid & Hdir & Hnd & Hcl).
  simpl. destruct (decide (r = r0)) as [->|Hne].
  - exists (with_clients (set_delete ws) c). rewrite list_lookup_alter_eq, Hc.
    repeat split; try done; simpl.
    + by apply NoDup_filter.
    + intros w Hw. apply Hcl.
      unfold set_delete in Hw. by apply list_elem_of_filter in Hw as [_ ?].
  - exists c. by rewrite list_lookup_alter_ne.
Qed.

Lemma wf_ready st ws f :
  (∀ s, listeners (f s) = listeners s) →
  wf st → wf (set_sockets (alter f ws) st).
Proof.
  intros Hf H previewId r E. destruct (H previewId r E) as (c & Hc & Hid & Hdir & Hnd & Hcl).
  exists c. repeat split; try done. intros w Hw.
  destruct (Hcl w Hw) as (s & Hs & Hl). simpl.
  destruct (decide (w = ws)) as [->|Hne].
  - exists (f s). by rewrite list_lookup_alter_eq, Hs, Hf.
  - exists s. by rewrite list_lookup_alter_ne.
Qed.

Lemma wf_forget st previewId : wf st → wf (set_containers (delete previewId) st).
Proof.
  intros H p r E. simpl in E. apply lookup_delete_Some in E as [_ E].
  apply (H p r E).
Qed.

Lemma wf_created st previewId d :
  wf st → wf (created previewId d st).
Proof.
  intros H p r E. simpl in *.
  destruct (decide (p = previewId)) as [->|Hne].
  - rewrite lookup_insert_eq in E. injection E as <-.
    eexists. split; [by rewrite lookup_app_r, Nat.sub_diag|].
    repeat split; simpl; [constructor|]. by intros ws ?%elem_of_nil.
  - rewrite lookup_insert_ne in E by done.
    destruct (H p r E) as (c & Hc & ?). exists c. split; [|done].
    by apply lookup_app_l_Some.
Qed.

Lemma wf_new_socket st s :
  wf st → wf (set_sockets (λ l, l ++ [s]) st).
Proof.
  intros H previewId r E. destruct (H previewId r E) as (c & Hc & Hid & Hdir & Hnd & Hcl).
  exists c. repeat split; try done. intros w Hw.
  destruct (Hcl w Hw) as (s' & Hs & Hl). exists s'. split; [|done].
  simpl. by apply lookup_app_l_Some.
Qed.

(** A socket that has no listeners yet joins the client set of a
    registered container and gets its listeners. *)
Lemma wf_join st previewId r ws state :
  wf st →
  containers st !! previewId = Some r →
  sockets st !! ws = Some (Socket state None) →
  wf (set_sockets (alter (λ s, Socket (ready s) (Some (previewId, r))) ws)
        (set_heap (alter (with_clients (set_add ws)) r) st)).
Proof.
  intros H E Hws p r' E'. simpl in *.
  destruct (H p r' E') as (c & Hc & Hid & Hdir & Hnd & Hcl).
  assert (ws ∉ clients c) as Hfresh.
  { intros Hin. destruct (Hcl ws Hin) as (s & Hs & Hl). by simplify_eq. }
  destruct (decide (r' = r)) as [->|Hne].
  - assert (p = previewId) as ->.
    { destruct (H previewId r E) as (c0 & Hc0 & Hid0 & _). by simplify_eq. }
    exists (with_clients (set_add ws) c). rewrite list_lookup_alter_eq, Hc.
    repeat split; try done; simpl; unfold set_add;
      rewrite bool_decide_eq_false_2 by done.
    { apply NoDup_app. repeat split; [done| |apply NoDup_singleton].
      intros w Hw ->%list_elem_of_singleton. done. }
    intros w [Hw|Hw%list_elem_of_singleton]%elem_of_app.
    + destruct (Hcl w Hw) as (s & Hs & Hl). exists s.
      rewrite list_lookup_alter_ne; [done|]. by intros <-.
    + subst w. eexists. by rewrite list_lookup_alter_eq, Hws.
  - exists c. rewrite list_lookup_alter_ne by done.
    repeat split; try done. intros w Hw.
    destruct (Hcl w Hw) as (s & Hs & Hl). exists s.
    rewrite list_lookup_alter_ne; [done|]. by intros <-.
Qed.

Lemma wf_on_connection previewId : respects keeps_wf any_effect (on_connection previewId).
Proof.
  intros st. split; [|by apply Forall_true].
  intros Hwf.
  assert (∀ p, p ≠ "" →
    wf (on_connection (Some p) st).1.1) as Hsome.
  { intros p Hp. destruct p as [|a p]; [done|]. clear Hp.
    unfold on_connection. cbv [mbind M_bind gets modify update]. simpl.
    set (st0 := set_sockets (λ s, s ++ [Socket OPEN None]) st).
    assert (wf st0) as Hwf0 by (by apply wf_new_socket).
    assert (sockets st0 !! length (sockets st) = Some (Socket OPEN None)) as Hs0.
    { simpl. by rewrite lookup_app_r, Nat.sub_diag. }
    destruct (containers st0 !! String a p) as [r|] eqn:E.
    - rewrite (get_or_create_found _ _ r) by done. simpl.
      by apply (wf_join _ _ _ _ OPEN).
    - destruct (Fs.mkdirSync (disk st0) (Path.join "/tmp" (String a p)))
        as [e|d] eqn:Hd.
      + rewrite (get_or_create_fails _ _ e) by done. done.
      + rewrite (get_or_create_new _ _ d) by done. simpl.
        apply (wf_join (created (String a p) d st0) _ _ _ OPEN).
        * by apply wf_created.
        * simpl. by rewrite lookup_insert_eq.
        * done. }
  destruct previewId as [[|a p]|].
  - by apply wf_new_socket.
  - by apply Hsome.
  - by apply wf_new_socket.
Qed.

Lemma wf_handle i : respects keeps_wf any_effect (handle i).
Proof.
  apply respects_handle; unfold keeps_wf, any_effect.
  - done.
  - auto.
  - done.
  - done.
  - done.
  - intros st d. by apply wf_same.
  - intros st r f. apply wf_fields.
  - intros st previewId d _. apply wf_created.
  - intros st c. by apply wf_same.
  - intros st ws f. apply wf_ready.
  - apply wf_leave.
  - intros st f. by apply wf_same.
  - intros st t. by apply wf_same.
  - apply wf_forget.
  - intros previewId _. apply wf_on_connection.
  - intros k error stdout stderr _.
    apply respects_on_exec_done; unfold keeps_wf, any_effect; try done.
    all: try (by auto).
    all: try (intros st r f; apply wf_fields).
    all: try (intros st; by apply wf_same).
Qed.

Lemma wf_step st i : wf st → wf (step st i).1.1.
Proof. intros H. by apply (wf_handle i st). Qed.

Lemma wf_run st inputs : wf st → wf (run st inputs).1.1.
Proof.
  intros H.
  assert (respects keeps_wf any_effect (for_each handle inputs)) as Hr.
  { apply respects_for_each; unfold keeps_wf; try done; [auto|].
    intros i _. apply wf_handle. }
  by apply (Hr st).
Qed.

Lemma reachable_wf st : reachable st → wf st.
Proof.
  intros (d & inputs & log & Hrun).
  pose proof (wf_run (initial d) inputs (wf_initial d)) as H.
  by rewrite Hrun in H.
Qed.

(** ** The handlers, case by case *)

Lemma files_write_eq previewId b filePath content st st0 l0 r c :
  body_path b = Some filePath → body_content b = Some content → filePath ≠ "" →
  get_or_create previewId st = (st0, l0, inr r) →
  heap st0 !! r = Some c →
  files_write previewId b st
  = (let '(st', l, res) := write_outcome previewId r c filePath content st0 in
     (st', l0 ++ l, res)).
Proof.
  intros Hp Hc Hne Hg Hr. unfold files_write, write_outcome. rewrite Hp, Hc.
  rewrite bool_decide_eq_false_2 by done.
  cbv [mbind M_bind try_catch deref]. rewrite Hg, Hr.
  unfold mkdirSync, writeFileSync.
  destruct (Fs.mkdirSync _ _) as [e|d1]; [done|]. simpl.
  destruct (Fs.writeFileSync _ _ _) as [e|d2]; [done|]. simpl.
  by rewrite broadcastToContainer_eq.
Qed.

Lemma files_write_rejects previewId b st :
  body_path b = None ∨ body_path b = Some "" ∨ body_content b = None →
  files_write previewId b st
  = (st, [Respond 400 (JsonError "Missing required parameters")], inr ()).
Proof.
  unfold files_write. intros [H|[H|H]]; rewrite H; try done.
  - by destruct (body_content b).
  - by destruct (body_path b).
Qed.

Lemma files_read_eq previewId filePath st r c :
  filePath ≠ "" →
  containers st !! previewId = Some r →
  heap st !! r = Some c →
  files_read previewId (Some filePath) st = read_outcome r c filePath st.
Proof.
  intros Hne E Hr. unfold files_read, read_outcome.
  destruct filePath as [|a filePath]; [done|].
  cbv [mbind M_bind try_catch deref gets]. rewrite E, Hr.
  destruct (files c !! String a filePath) as [content|]; [done|].
  unfold existsSync, readFileSync.
  destruct (Fs.existsSync _ _); [|done].
  by destruct (Fs.readFileSync _ _).
Qed.

Lemma files_read_unseen previewId filePath st :
  filePath ≠ "" →
  containers st !! previewId = None →
  files_read previewId (Some filePath) st
  = (st, [Respond 404 (JsonError "Container not found")], inr ()).
Proof.
  intros Hne E. unfold files_read. destruct filePath as [|a filePath]; [done|].
  cbv [mbind M_bind gets]. by rewrite E.
Qed.

Lemma execute_eq previewId b command uuid st st0 l0 r c :
  body_command b = Some command → command ≠ "" →
  get_or_create previewId st = (st0, l0, inr r) →
  heap st0 !! r = Some c →
  execute previewId b uuid st
  = (let '(st', l, res) :=
       execute_outcome previewId r c command (default [] (body_args b))
         (default "/" (body_cwd b)) uuid st0 in
     (st', l0 ++ l, res)).
Proof.
  intros Hc Hne Hg Hr. unfold execute, execute_outcome. rewrite Hc.
  destruct command as [|a command]; [done|].
  cbv [mbind M_bind try_catch deref]. rewrite Hg, Hr.
  unfold mkdirSync.
  by destruct (Fs.mkdirSync _ _) as [e|d1].
Qed.

Lemma on_exec_done_eq k error stdout stderr st c :
  children st !! k = Some c → child_completed c = false →
  on_exec_done k error stdout stderr st
  = (let st' :=
       set_heap (alter (with_processes (delete (child_processId c)))
                   (child_container c))
         (set_children (alter completed k) st) in
     let data :=
       ProcessCompleted (child_previewId c) (child_processId c)
         (match error with Some code => code | None => CodeNumber 0 end)
         stdout stderr in
     (st', Broadcast (child_previewId c) data
           :: ((λ ws, Send ws data) <$> recipients st' (child_previewId c)),
      inr ())).
Proof.
  intros Hk Hc. unfold on_exec_done.
  cbv [mbind M_bind gets modify update]. rewrite Hk, Hc. simpl.
  by rewrite broadcastToContainer_eq.
Qed.

Lemma on_exec_done_again k error stdout stderr st c :
  children st !! k = Some c → child_completed c = true →
  on_exec_done k error stdout stderr st = (st, [], inr ()).
Proof.
  intros Hk Hc. unfold on_exec_done. cbv [mbind M_bind gets]. by rewrite Hk, Hc.
Qed.

Lemma get_or_create_inv previewId st st0 l0 r :
  get_or_create previewId st = (st0, l0, inr r) →
  containers st0 !! previewId = Some r
  ∧ Forall quiet l0 ∧ responses l0 = []
  ∧ children st0 = children st.
Proof.
  destruct (containers st !! previewId) as [r0|] eqn:E.
  - rewrite (get_or_create_found _ _ r0) by done. by intros [= <- <- <-].
  - destruct (Fs.mkdirSync (disk st) (Path.join "/tmp" previewId)) as [e|d] eqn:Hd.
    + by rewrite (get_or_create_fails _ _ e).
    + rewrite (get_or_create_new _ _ d) by done. intros [= <- <- <-].
      simpl. rewrite lookup_insert_eq. repeat split; try done.
      by repeat constructor.
Qed.

Lemma files_write_throws previewId b filePath content st st0 l0 e :
  body_path b = Some filePath → body_content b = Some content → filePath ≠ "" →
  get_or_create previewId st = (st0, l0, inl e) →
  files_write previewId b st = (st0, l0, inl e).
Proof.
  intros Hp Hc Hne Hg. unfold files_write. rewrite Hp, Hc.
  rewrite bool_decide_eq_false_2 by done.
  cbv [mbind M_bind]. by rewrite Hg.
Qed.

Lemma files_write_dangling previewId b filePath content st st0 l0 r :
  body_path b = Some filePath → body_content b = Some content → filePath ≠ "" →
  get_or_create previewId st = (st0, l0, inr r) →
  heap st0 !! r = None →
  files_write previewId b st
  = (st0, l0 ++ [Respond 500 (JsonError "Cannot read properties of undefined")],
     inr ()).
Proof.
  intros Hp Hc Hne Hg Hr. unfold files_write. rewrite Hp, Hc.
  rewrite bool_decide_eq_false_2 by done.
  cbv [mbind M_bind try_catch deref]. by rewrite Hg, Hr.
Qed.

Lemma responses_app l1 l2 : responses (l1 ++ l2) = responses l1 ++ responses l2.
Proof. unfold responses. apply omap_app. Qed.

Lemma broadcasts_app l1 l2 : broadcasts (l1 ++ l2) = broadcasts l1 ++ broadcasts l2.
Proof. unfold broadcasts. apply omap_app. Qed.

Lemma broadcasts_sends (f : nat → effect) l :
  (∀ ws, ∃ d, f ws = Send ws d) → broadcasts (f <$> l) = [].
Proof.
  intros Hf. induction l as [|ws l IH]; [done|].
  rewrite fmap_cons. destruct (Hf ws) as [d Hd].
  unfold broadcasts in *. simpl. by rewrite Hd.
Qed.

Lemma responses_sends (f : nat → effect) l :
  (∀ ws, ∃ d, f ws = Send ws d) → responses (f <$> l) = [].
Proof.
  intros Hf. induction l as [|ws l IH]; [done|].
  rewrite fmap_cons. destruct (Hf ws) as [d Hd].
  unfold responses in *. simpl. by rewrite Hd.
Qed.

(** ** Children stay pending until their callback runs *)

Lemma keeps_child_intro k st st' :
  length (heap st) ≤ length (heap st') →
  children st' = children st ∨ (∃ c, children st' = children st ++ [c]) →
  keeps_child k st st'.
Proof.
  intros Hh Hc. split; [done|]. intros c E.
  destruct Hc as [->|[c' ->]]; [done|]. by apply lookup_app_l_Some.
Qed.

Lemma keeps_child_handle k i :
  (∀ error stdout stderr, i ≠ ExecDone k error stdout stderr) →
  respects (keeps_child k) any_effect (handle i).
Proof.
  intros Hi.
  assert (∀ st, keeps_child k st st) as Hrefl by (by intros st; split).
  assert (∀ st1 st2 st3, keeps_child k st1 st2 → keeps_child k st2 st3 →
            keeps_child k st1 st3) as Htrans.
  { intros st1 st2 st3 [H1 H1'] [H2 H2']. split; [lia|auto]. }
  assert (∀ st st', length (heap st) ≤ length (heap st') →
            children st' = children st → keeps_child k st st') as Hsame.
  { intros st st' ??. apply keeps_child_intro; auto. }
  assert (∀ st r f, keeps_child k st (set_heap (alter f r) st)) as Halter.
  { intros st r f. apply Hsame; [|done]. simpl. by rewrite length_alter. }
  assert (∀ st previewId d, keeps_child k st (created previewId d st)) as Hcreated.
  { intros st previewId d. apply Hsame; [|done]. simpl. rewrite length_app. lia. }
  apply respects_handle; unfold any_effect; try done;
    try (by intros; apply Hsame).
  - intros st c. apply keeps_child_intro; [done|right; by eexists].
  - intros previewId _.
    apply respects_on_connection; unfold any_effect; try done;
      try (by intros; apply Hsame).
  - intros k' error stdout stderr ->.
    apply respects_on_exec_done; unfold any_effect; try done;
      try (by intros; apply Hsame).
    intros st. split; [done|]. intros c E. simpl.
    rewrite list_lookup_alter_ne; [done|].
    intros ->. by eapply Hi.
Qed.

Lemma keeps_child_run k inputs :
  (∀ error stdout stderr, ExecDone k error stdout stderr ∉ inputs) →
  respects (keeps_child k) any_effect (for_each handle inputs).
Proof.
  intros Hi. apply respects_for_each.
  - by intros st; split.
  - intros st1 st2 st3 [H1 H1'] [H2 H2']. split; [lia|auto].
  - done.
  - intros i Hin. apply keeps_child_handle.
    intros error stdout stderr ->. by eapply Hi.
Qed.

(** Only the callback of [exec] broadcasts a completion. *)
Lemma no_completion_handle i :
  is_exec_done i = false →
  respects any_change no_completion (handle i).
Proof.
  intros Hi.
  assert (∀ st e, quiet e → no_completion st e) as Hq by (by intros st []).
  apply respects_handle; unfold any_change; try done.
  - intros previewId _. by apply respects_on_connection.
  - by intros k error stdout stderr ->.
Qed.

Lemma exit_code_exited n :
  match exited n with Some code => code | None => CodeNumber 0 end = CodeNumber n.
Proof. unfold exited. case_bool_decide; by subst. Qed.

Lemma execute_accepted previewId b command uuid st st1 log1 :
  body_command b = Some command → command ≠ "" →
  execute previewId b uuid st = (st1, log1, inr ()) →
  (200, JsonProcessId uuid) ∈ responses log1 →
  ∃ r c line cwd,
    children st1 !! length (children st) = Some (Child uuid previewId r line cwd false)
    ∧ heap st1 !! r = Some c
    ∧ processes c !! uuid = Some (length (children st)).
Proof.
  intros Hc Hne Hx Hok.
  destruct (get_or_create previewId st) as [[st0 l0] [e|r]] eqn:Hg.
  { revert Hx. unfold execute. rewrite Hc. destruct command; [done|].
    cbv [mbind M_bind]. by rewrite Hg. }
  destruct (get_or_create_inv _ _ _ _ _ Hg) as (E & _ & Hl0 & Hch).
  destruct (heap st0 !! r) as [c|] eqn:Hr.
  2:{ revert Hx. unfold execute. rewrite Hc. destruct command; [done|].
      cbv [mbind M_bind try_catch deref]. rewrite Hg, Hr. simpl.
      intros [= <- <-]. rewrite responses_app, Hl0 in Hok.
      by apply list_elem_of_singleton in Hok. }
  rewrite (execute_eq _ _ _ _ _ _ _ _ _ Hc Hne Hg Hr) in Hx.
  unfold execute_outcome in Hx.
  destruct (Fs.mkdirSync _ (Path.join (dir _) _)) as [e|d1].
  { injection Hx as <- <-. rewrite responses_app, Hl0 in Hok.
    by apply list_elem_of_singleton in Hok. }
  injection Hx as <- <-. rewrite <- Hch. simpl.
  do 4 eexists. split; [by rewrite lookup_app_r, Nat.sub_diag|].
  rewrite list_lookup_alter_eq, Hr. simpl. split; [done|].
  simpl. by rewrite lookup_insert_eq.
Qed.

(** ** Who a broadcast reaches *)

Lemma recipients_same st st' :
  containers st' = containers st → sockets st' = sockets st →
  (∀ r, clients <$> heap st' !! r = clients <$> heap st !! r) →
  same_recipients st st'.
Proof.
  intros Hc Hs Hh previewId. unfold recipients. rewrite Hc, Hs.
  destruct (containers st !! previewId) as [r|]; [|done].
  specialize (Hh r).
  destruct (heap st' !! r) as [c'|], (heap st !! r) as [c|]; simpl in Hh; try done.
  injection Hh as ->. done.
Qed.

Lemma recipients_fields st r f :
  keeps_clients f → same_recipients st (set_heap (alter f r) st).
Proof.
  intros Hf. apply recipients_same; [done|done|]. intros r'. simpl.
  destruct (decide (r' = r)) as [->|Hne].
  - rewrite list_lookup_alter_eq. destruct (heap st !! r) as [c|]; [|done].
    simpl. by destruct (Hf c) as (_ & _ & ->).
  - by rewrite list_lookup_alter_ne.
Qed.

Lemma recipients_created st previewId d :
  containers st !! previewId = None →
  same_recipients st (created previewId d st).
Proof.
  intros E p. unfold recipients. simpl.
  destruct (decide (p = previewId)) as [->|Hne].
  - rewrite lookup_insert_eq, E. by rewrite lookup_app_r, Nat.sub_diag.
  - rewrite lookup_insert_ne by done.
    destruct (containers st !! p) as [r|]; [|done].
    destruct (heap st !! r) as [c|] eqn:Hr.
    + by rewrite (lookup_app_l_Some _ _ _ _ Hr).
    + apply lookup_ge_None in Hr.
      destruct (decide (r = length (heap st))) as [->|Hne'].
      * by rewrite lookup_app_r, Nat.sub_diag.
      * rewrite lookup_ge_None_2; [done|]. rewrite length_app. simpl. lia.
Qed.

Lemma same_recipients_refl st : same_recipients st st.
Proof. done. Qed.

Lemma same_recipients_trans st1 st2 st3 :
  same_recipients st1 st2 → same_recipients st2 st3 → same_recipients st1 st3.
Proof. intros H1 H2 p. by rewrite H2, H1. Qed.

Lemma sent_back st st' e :
  same_recipients st st' → sent_to_recipients st' e → sent_to_recipients st e.
Proof. destruct e; simpl; try done. intros H. by rewrite H. Qed.

Lemma sent_quiet st e : quiet e → sent_to_recipients st e.
Proof. by destruct e. Qed.

Lemma sent_completed st previewId data :
  event_previewId data = previewId →
  sent_to_recipients st (Broadcast previewId data)
  ∧ ∀ ws, ws ∈ recipients st previewId → sent_to_recipients st (Send ws data).
Proof. by intros <-. Qed.

Lemma sent_broadcast st previewId data :
  event_previewId data = previewId → is_process_completed data = false →
  sent_to_recipients st (Broadcast previewId data)
  ∧ ∀ ws, ws ∈ recipients st previewId → sent_to_recipients st (Send ws data).
Proof. intros H _. by apply sent_completed. Qed.

Lemma recipients_disk st d : same_recipients st (set_disk d st).
Proof. by apply recipients_same. Qed.

Lemma recipients_spawn st c :
  same_recipients st (set_children (λ cs, cs ++ [c]) st).
Proof. by apply recipients_same. Qed.

Lemma recipients_completed k st :
  same_recipients st (set_children (alter completed k) st).
Proof. by apply recipients_same. Qed.

Lemma any_change_refl st : any_change st st.
Proof. done. Qed.

Lemma any_change_trans st1 st2 st3 :
  any_change st1 st2 → any_change st2 st3 → any_change st1 st3.
Proof. done. Qed.

Lemma only_quiet_back st st' e : any_change st st' → only_quiet st' e → only_quiet st e.
Proof. done. Qed.

Lemma only_quiet_quiet st e : quiet e → only_quiet st e.
Proof. done. Qed.

(** The callbacks that change who is connected or registered log nothing
    but quiet effects. *)
Lemma quiet_handlers i st :
  match i with
  | Connection _ | Closing _ | Close _ | Advance _ => True
  | _ => False
  end →
  Forall (only_quiet st) (handle i st).1.2.
Proof.
  destruct i; intros Hi; try (destruct Hi; fail).
  - by apply (respects_on_connection any_change only_quiet any_change_refl
                any_change_trans only_quiet_back only_quiet_quiet).
  - by apply (respects_on_closing any_change only_quiet).
  - by apply (respects_on_close any_change only_quiet any_change_refl
                any_change_trans only_quiet_back).
  - by apply (respects_advance any_change only_quiet any_change_refl
                any_change_trans only_quiet_back).
Qed.

Lemma sent_to_recipients_handle i st :
  Forall (sent_to_recipients st) (handle i st).1.2.
Proof.
  assert (∀ l, Forall (only_quiet st) l → Forall (sent_to_recipients st) l) as Hquiet.
  { intros l H. eapply Forall_impl; [exact H|]. intros e. apply sent_quiet. }
  destruct i; try (by apply Hquiet, quiet_handlers).
  all: first
    [ apply (respects_on_message same_recipients sent_to_recipients)
    | apply (respects_app same_recipients sent_to_recipients)
    | apply (respects_on_child_data same_recipients sent_to_recipients)
    | apply (respects_on_exec_done same_recipients sent_to_recipients) ].
  all: eauto using same_recipients_refl, same_recipients_trans, sent_back,
         sent_quiet, sent_broadcast, sent_completed, recipients_disk,
         recipients_fields, recipients_created, recipients_spawn,
         recipients_completed.
Qed.

Lemma recipients_stay_in_session st previewId ws :
  wf st → ws ∈ recipients st previewId →
  is_open (sockets st) ws = true
  ∧ (∃ c, session st previewId = Some c ∧ ws ∈ clients c)
  ∧ (∃ s r, sockets st !! ws = Some s ∧ listeners s = Some (previewId, r))
  ∧ (∀ other c', other ≠ previewId → session st other = Some c' → ws ∉ clients c').
Proof.
  intros Hwf. unfold recipients, session.
  destruct (containers st !! previewId) as [r|] eqn:E; [|by intros ?%elem_of_nil].
  destruct (Hwf _ _ E) as (c & Hc & Hid & Hdir & Hnd & Hcl).
  rewrite Hc. intros [Hopen Hin]%list_elem_of_filter.
  destruct (Hcl ws Hin) as (s & Hs & Hl).
  split; [done|]. split; [by exists c|]. split; [by exists s, r|].
  intros other c' Hne Hc' Hin'.
  destruct (containers st !! other) as [r'|] eqn:E'; [|done]. simpl in Hc'.
  destruct (Hwf _ _ E') as (c'' & Hc'' & _ & _ & _ & Hcl').
  simplify_eq. destruct (Hcl' ws Hin') as (s' & Hs' & Hl'). by simplify_eq.
Qed.

(** ** The clean-up timer *)

Lemma cleanup_eq previewId st : cleanup previewId st = (expire previewId st, [], inr ()).
Proof.
  unfold cleanup, expire, session. cbv [mbind M_bind gets modify mret M_ret].
  destruct (containers st !! previewId) as [r|]; simpl; [|done].
  destruct (heap st !! r) as [c|]; simpl; [|done].
  by case_bool_decide.
Qed.

Lemma for_each_cleanup (due : list (N * string)) st :
  for_each (λ x, cleanup x.2) due st
  = (foldl (λ s x, expire x.2 s) st due, [], inr ()).
Proof.
  revert st. induction due as [|x due IH]; intros st; simpl; [done|].
  cbv [mbind M_bind]. by rewrite cleanup_eq, IH.
Qed.

Lemma advance_eq ms st :
  advance ms st
  = (foldl (λ s x, expire x.2 s)
       (set_timers (filter (λ x, ¬ (x.1 ≤ now st + ms)%N))
          (set_now (now st + ms)%N st))
       (filter (λ x, (x.1 ≤ now st + ms)%N) (timers st)),
     [], inr ()).
Proof.
  unfold advance. cbv [mbind M_bind gets modify]. simpl.
  by rewrite for_each_cleanup.
Qed.

Lemma on_close_eq ws st state previewId r c :
  sockets st !! ws = Some (Socket state (Some (previewId, r))) →
  state ≠ CLOSED →
  heap st !! r = Some c →
  on_close ws st
  = (let st1 :=
       set_heap (alter (with_clients (set_delete ws)) r)
         (set_sockets (alter (λ s, Socket CLOSED (listeners s)) ws) st) in
     if bool_decide (length (set_delete ws (clients c)) = 0)
     then set_timers (λ ts, ts ++ [((now st + cleanup_delay)%N, previewId)]) st1
     else st1,
     [], inr ()).
Proof.
  intros Hs Hne Hr. unfold on_close. cbv [mbind M_bind gets modify update].
  rewrite Hs. rewrite bool_decide_eq_false_2 by done. simpl.
  rewrite list_lookup_alter_eq, Hr. simpl.
  by case_bool_decide.
Qed.

(** The checks leave the container objects alone and only ever take
    identifiers out of the registry. *)
Lemma expire_heap previewId st : heap (expire previewId st) = heap st.
Proof. unfold expire. by repeat case_match. Qed.

Lemma expire_all_heap (due : list (N * string)) st :
  heap (foldl (λ s x, expire x.2 s) st due) = heap st.
Proof.
  revert st. induction due as [|x due IH]; intros st; simpl; [done|].
  by rewrite IH, expire_heap.
Qed.

Lemma expire_occupied previewId other st r c :
  containers st !! previewId = Some r → heap st !! r = Some c →
  clients c ≠ [] →
  containers (expire other st) !! previewId = Some r.
Proof.
  intros E Hr Hne. unfold expire, session.
  destruct (containers st !! other) as [r'|] eqn:E'; simpl; [|done].
  destruct (heap st !! r') as [c'|] eqn:Hr'; [|done].
  case_bool_decide as Hlen; [|done]. simpl.
  destruct (decide (other = previewId)) as [->|Hne'].
  - simplify_eq. by destruct (clients c).
  - by rewrite lookup_delete_ne.
Qed.

Lemma expire_all_occupied (due : list (N * string)) previewId st r c :
  containers st !! previewId = Some r → heap st !! r = Some c →
  clients c ≠ [] →
  containers (foldl (λ s x, expire x.2 s) st due) !! previewId = Some r.
Proof.
  revert st. induction due as [|x due IH]; intros st E Hr Hne; simpl; [done|].
  apply IH; [by eapply expire_occupied|by rewrite expire_heap|done].
Qed.

Lemma expire_gone previewId other st :
  containers st !! previewId = None →
  containers (expire other st) !! previewId = None.
Proof.
  intros E. unfold expire. repeat case_match; try done.
  simpl. apply lookup_delete_None. by right.
Qed.

Lemma expire_all_gone (due : list (N * string)) previewId st :
  containers st !! previewId = None →
  containers (foldl (λ s x, expire x.2 s) st due) !! previewId = None.
Proof.
  revert st. induction due as [|x due IH]; intros st E; simpl; [done|].
  by apply IH, expire_gone.
Qed.

(** A session without clients is gone once a check for it has run, however
    many other checks run before and after it. *)
Lemma expire_lookup previewId other st r :
  containers (expire other st) !! previewId = Some r →
  containers st !! previewId = Some r.
Proof.
  unfold expire. destruct (session st other) as [c|]; [|done].
  case_bool_decide; [|done]. simpl. by intros [_ ?]%lookup_delete_Some.
Qed.

Lemma expire_idle previewId other st :
  idle st previewId → idle (expire other st) previewId.
Proof.
  unfold idle. intros H.
  destruct (containers (expire other st) !! previewId) as [r|] eqn:E; [|done].
  rewrite expire_heap. apply expire_lookup in E. by rewrite E in H.
Qed.

Lemma expire_self previewId st :
  idle st previewId → containers (expire previewId st) !! previewId = None.
Proof.
  unfold idle, expire, session. intros H.
  destruct (containers st !! previewId) as [r|] eqn:E; simpl; [|done].
  destruct H as (c & -> & Hc). rewrite Hc. simpl.
  apply lookup_delete_eq.
Qed.

Lemma expire_all_idle (due : list (N * string)) previewId st t :
  idle st previewId → (t, previewId) ∈ due →
  containers (foldl (λ s x, expire x.2 s) st due) !! previewId = None.
Proof.
  revert st. induction due as [|x due IH]; intros st Hidle Hin; simpl.
  - by apply elem_of_nil in Hin.
  - apply elem_of_cons in Hin as [<-|Hin].
    + apply expire_all_gone. simpl. by apply expire_self.
    + apply IH; [by apply expire_idle|done].
Qed.

(** ** Where the file handlers reach *)

Lemma wf_get_or_create previewId st :
  wf st → wf (get_or_create previewId st).1.1.
Proof.
  intros H.
  assert (respects keeps_wf any_effect (get_or_create previewId)) as Hr.
  { apply respects_get_or_create; unfold keeps_wf, any_effect; try done.
    intros st' previewId' d _. apply wf_created. }
  by apply (Hr st).
Qed.

Lemma wf_files_write previewId b st :
  wf st → wf (files_write previewId b st).1.1.
Proof.
  intros H.
  assert (respects keeps_wf any_effect (files_write previewId b)) as Hr.
  { apply respects_files_write; unfold keeps_wf, any_effect;
      eauto using wf_fields, wf_created; try done;
      try (intros; by apply wf_same). }
  by apply (Hr st).
Qed.

Lemma wf_session_dir st previewId c :
  wf st → session st previewId = Some c → dir c = Path.join "/tmp" previewId.
Proof.
  intros H. unfold session.
  destruct (containers st !! previewId) as [r|] eqn:E; [|done]. simpl.
  destruct (H _ _ E) as (c' & Hc & _ & Hdir & _). rewrite Hc. by intros [= <-].
Qed.

Lemma root_absolute previewId : Path.isAbsolute (Path.join "/tmp" previewId) = true.
Proof. by apply join_absolute. Qed.

Lemma confined_root root : confined root root.
Proof. unfold confined. reflexivity. Qed.

Lemma confined_join root p :
  Path.isAbsolute root = true → ".." ∉ Path.split_slash p →
  confined root (Path.join root p).
Proof.
  intros Habs Hp. unfold confined. rewrite resolve_join by done.
  by apply prefix_app_r.
Qed.

Lemma confined_dirname_join root p :
  Path.isAbsolute root = true → ".." ∉ Path.split_slash p →
  confined root (Path.dirname (Path.join root p))
  ∨ Path.resolve (Path.dirname (Path.join root p)) = removelast (Path.resolve root).
Proof.
  intros Habs Hp. rewrite resolve_dirname_join by done.
  unfold confined. rewrite resolve_dirname_join, resolve_join by done.
  destruct (filter kept (Path.split_slash p)) as [|s l] eqn:Hk.
  - right. by rewrite app_nil_r.
  - left. rewrite removelast_app by done. by apply prefix_app_r.
Qed.

Lemma file_targets_sends (f : nat → effect) l :
  (∀ ws, ∃ d, f ws = Send ws d) → file_targets (f <$> l) = [].
Proof.
  intros Hf. induction l as [|ws l IH]; [done|].
  rewrite fmap_cons. destruct (Hf ws) as [d Hd].
  unfold file_targets in *. simpl. by rewrite Hd.
Qed.

Lemma mkdir_targets_sends (f : nat → effect) l :
  (∀ ws, ∃ d, f ws = Send ws d) → mkdir_targets (f <$> l) = [].
Proof.
  intros Hf. induction l as [|ws l IH]; [done|].
  rewrite fmap_cons. destruct (Hf ws) as [d Hd].
  unfold mkdir_targets in *. simpl. by rewrite Hd.
Qed.

Lemma write_outcome_targets previewId r c filePath content st :
  Path.isAbsolute (dir c) = true → ".." ∉ Path.split_slash filePath →
  Forall (confined (dir c))
    (file_targets (write_outcome previewId r c filePath content st).1.2)
  ∧ Forall (inside_or_parent (dir c))
      (mkdir_targets (write_outcome previewId r c filePath content st).1.2).
Proof.
  intros Habs Hdd.
  pose proof (confined_join _ _ Habs Hdd) as Hfile.
  pose proof (confined_dirname_join _ _ Habs Hdd) as Hdir.
  unfold write_outcome.
  destruct (Fs.mkdirSync _ _) as [e1|d1];
    [|destruct (Fs.writeFileSync _ _ _) as [e2|d2]]; simpl.
  3:{ unfold file_targets, mkdir_targets. simpl. rewrite !omap_app.
      fold (file_targets ((λ ws, Send ws (FileChange previewId filePath)) <$>
              recipients (set_heap (alter (with_files <[filePath:=content]>) r)
                            (set_disk d2 st)) previewId)).
      fold (mkdir_targets ((λ ws, Send ws (FileChange previewId filePath)) <$>
              recipients (set_heap (alter (with_files <[filePath:=content]>) r)
                            (set_disk d2 st)) previewId)).
      rewrite file_targets_sends, mkdir_targets_sends by eauto. simpl.
      split; repeat first
        [ apply Forall_nil_2
        | apply Forall_cons_2; [first [exact Hfile|exact Hdir]|] ]. }
  all: unfold file_targets, mkdir_targets; simpl.
  all: split; repeat first
         [ apply Forall_nil_2
         | apply Forall_cons_2; [first [exact Hfile|exact Hdir]|] ].
Qed.

Lemma read_outcome_targets r c filePath st :
  Path.isAbsolute (dir c) = true → ".." ∉ Path.split_slash filePath →
  Forall (confined (dir c)) (file_targets (read_outcome r c filePath st).1.2)
  ∧ mkdir_targets (read_outcome r c filePath st).1.2 = [].
Proof.
  intros Habs Hdd.
  pose proof (confined_join _ _ Habs Hdd) as Hfile.
  unfold read_outcome.
  destruct (files c !! filePath); [by split; repeat constructor|].
  destruct (Fs.existsSync _ _); [|by split; repeat constructor].
  destruct (Fs.readFileSync _ _); (split; [|done]);
    unfold file_targets; simpl; by repeat constructor.
Qed.

Lemma file_targets_app l1 l2 :
  file_targets (l1 ++ l2) = file_targets l1 ++ file_targets l2.
Proof. apply omap_app. Qed.

Lemma mkdir_targets_app l1 l2 :
  mkdir_targets (l1 ++ l2) = mkdir_targets l1 ++ mkdir_targets l2.
Proof. apply omap_app. Qed.

(** The pattern makes at most the directory of the session. *)
Lemma get_or_create_targets previewId st :
  file_targets (get_or_create previewId st).1.2 = []
  ∧ Forall (confined (Path.join "/tmp" previewId))
      (mkdir_targets (get_or_create previewId st).1.2).
Proof.
  destruct (containers st !! previewId) as [r|] eqn:E.
  - rewrite (get_or_create_found _ _ r) by done. by split; constructor.
  - destruct (Fs.mkdirSync (disk st) (Path.join "/tmp" previewId)) as [e|d] eqn:Hd.
    + rewrite (get_or_create_fails _ _ e) by done.
      split; [done|]. repeat constructor. apply confined_root.
    + rewrite (get_or_create_new _ _ d) by done.
      split; [done|]. repeat constructor. apply confined_root.
Qed.

Lemma files_write_targets st previewId b filePath :
  wf st → body_path b = Some filePath → ".." ∉ Path.split_slash filePath →
  Forall (confined (Path.join "/tmp" previewId))
    (file_targets (files_write previewId b st).1.2)
  ∧ Forall (inside_or_parent (Path.join "/tmp" previewId))
      (mkdir_targets (files_write previewId b st).1.2).
Proof.
  intros Hwf Hp Hdd.
  destruct (body_content b) as [content|] eqn:Hc;
    [|rewrite files_write_rejects by auto; by split; constructor].
  destruct (decide (filePath = "")) as [->|Hne];
    [rewrite files_write_rejects by auto; by split; constructor|].
  pose proof (wf_get_or_create previewId st Hwf) as Hwf0.
  destruct (get_or_create_targets previewId st) as [Hf0 Hm0].
  destruct (get_or_create previewId st) as [[st0 l0] [e|r]] eqn:Hg;
    simpl in Hwf0, Hf0, Hm0.
  - rewrite (files_write_throws _ _ _ _ _ _ _ _ Hp Hc Hne Hg). simpl.
    rewrite Hf0. split; [constructor|].
    eapply Forall_impl; [exact Hm0|]. intros p ?. by left.
  - destruct (get_or_create_inv _ _ _ _ _ Hg) as (E0 & _ & _ & _).
    destruct (Hwf0 _ _ E0) as (c & Hr & _ & Hdir & _).
    rewrite (files_write_eq _ _ _ _ _ _ _ _ _ Hp Hc Hne Hg Hr).
    destruct (write_outcome_targets previewId r c filePath content st0)
      as [Hf Hm]; [rewrite Hdir; apply root_absolute|done|].
    rewrite Hdir in Hf, Hm.
    destruct (write_outcome previewId r c filePath content st0) as [[st' l] res].
    simpl in *. rewrite file_targets_app, mkdir_targets_app, Hf0. simpl.
    split; [done|]. apply Forall_app. split; [|done].
    eapply Forall_impl; [exact Hm0|]. intros p ?. by left.
Qed.

Lemma files_read_targets st previewId filePath :
  wf st → ".." ∉ Path.split_slash filePath →
  Forall (confined (Path.join "/tmp" previewId))
    (file_targets (files_read previewId (Some filePath) st).1.2)
  ∧ mkdir_targets (files_read previewId (Some filePath) st).1.2 = [].
Proof.
  intros Hwf Hdd.
  destruct (decide (filePath = "")) as [->|Hne]; [by split; constructor|].
  destruct (containers st !! previewId) as [r|] eqn:E.
  - destruct (Hwf _ _ E) as (c & Hr & _ & Hdir & _).
    rewrite (files_read_eq _ _ _ _ _ Hne E Hr). rewrite <- Hdir.
    apply read_outcome_targets; [rewrite Hdir; apply root_absolute|done].
  - rewrite files_read_unseen by done. by split; constructor.
Qed.
(** ** Pending checks *)

(** Only the close listener adds a check and only the passing of time takes
    one away. *)
Lemma expire_timers previewId st : timers (expire previewId st) = timers st.
Proof. unfold expire. by repeat case_match. Qed.

Lemma expire_all_timers (due : list (N * string)) st :
  timers (foldl (λ s x, expire x.2 s) st due) = timers st.
Proof.
  revert st. induction due as [|x due IH]; intros st; simpl; [done|].
  by rewrite IH, expire_timers.
Qed.

Lemma expire_sockets previewId st : sockets (expire previewId st) = sockets st.
Proof. unfold expire. by repeat case_match. Qed.

Lemma expire_all_sockets (due : list (N * string)) st :
  sockets (foldl (λ s x, expire x.2 s) st due) = sockets st.
Proof.
  revert st. induction due as [|x due IH]; intros st; simpl; [done|].
  by rewrite IH, expire_sockets.
Qed.

Lemma expire_now previewId st : now (expire previewId st) = now st.
Proof. unfold expire. by repeat case_match. Qed.

Lemma expire_all_now (due : list (N * string)) st :
  now (foldl (λ s x, expire x.2 s) st due) = now st.
Proof.
  revert st. induction due as [|x due IH]; intros st; simpl; [done|].
  by rewrite IH, expire_now.
Qed.

Lemma timers_advance ms st :
  timers (advance ms st).1.1
  = filter (λ x, ¬ (x.1 ≤ now st + ms)%N) (timers st).
Proof. rewrite advance_eq. simpl. by rewrite expire_all_timers. Qed.

Lemma timers_on_close ws st :
  ∃ new, timers (on_close ws st).1.1 = timers st ++ new.
Proof.
  unfold on_close. cbv [mbind M_bind gets modify update].
  destruct (sockets st !! ws) as [[state l]|]; [|by exists []; rewrite app_nil_r].
  case_bool_decide; [by exists []; rewrite app_nil_r|]. simpl.
  destruct l as [[previewId r]|]; [|by exists []; rewrite app_nil_r]. simpl.
  destruct (alter _ r (heap st) !! r) as [c|]; [|by exists []; rewrite app_nil_r].
  case_bool_decide; simpl; [by eexists|by exists []; rewrite app_nil_r].
Qed.

Lemma timers_kept_handle i :
  match i with
  | Close _ | Advance _ => False
  | _ => True
  end →
  respects (λ st st', timers st' = timers st) any_effect (handle i).
Proof.
  intros Hi.
  destruct i; try done; simpl;
    first [ apply respects_on_connection | apply respects_on_message
          | apply respects_on_closing | apply respects_app
          | apply respects_on_child_data | apply respects_on_exec_done ];
    unfold any_effect; try done; intros; congruence.
Qed.

(** A pending check stays pending through every callback, until time
    reaches its deadline. *)
Lemma check_stays_pending t previewId i st :
  (t, previewId) ∈ timers st →
  (t, previewId) ∈ timers (step st i).1.1
  ∨ ∃ ms, i = Advance ms ∧ (t ≤ now st + ms)%N.
Proof.
  intros Hin. unfold step.
  destruct i as [q|ws p|ws|ws|req uuid|k from chunk|k error out err|ms].
  8:{ simpl. rewrite timers_advance.
      destruct (decide (t ≤ now st + ms)%N) as [Hdue|Hnot]; [right; by eexists|].
      left. by apply list_elem_of_filter. }
  4:{ left. simpl. destruct (timers_on_close ws st) as [new ->].
      apply elem_of_app. by left. }
  all: left;
    match goal with
    | |- _ ∈ timers (handle ?i _).1.1 =>
        by rewrite (proj1 (timers_kept_handle i I st))
    end.
Qed.

(** When a check fires on a session without a client, the session is out
    of the registry, whatever other checks fire with it. *)
Lemma check_removes_idle t previewId ms st :
  (t, previewId) ∈ timers st → (t ≤ now st + ms)%N → idle st previewId →
  containers (step st (Advance ms)).1.1 !! previewId = None.
Proof.
  intros Hin Hdue Hidle. unfold step. simpl. rewrite advance_eq. simpl.
  apply (expire_all_idle _ _ _ t); [done|].
  by apply list_elem_of_filter.
Qed.

Lemma run_cons st i inputs :
  (handle i st).2 = inr () →
  run st (i :: inputs) = (let '(st', l, res) := run (handle i st).1.1 inputs in
                          (st', (handle i st).1.2 ++ l, res)).
Proof.
  unfold run. simpl. cbv [mbind M_bind].
  destruct (handle i st) as [[st1 l1] [e|[]]]; [done|]. simpl. intros _.
  by destruct (for_each handle inputs st1) as [[st2 l2] res].
Qed.

Lemma run_cons_state st i inputs :
  (handle i st).2 = inr () →
  (run st (i :: inputs)).1.1 = (run (handle i st).1.1 inputs).1.1.
Proof.
  intros H. rewrite run_cons by done.
  by destruct (run (handle i st).1.1 inputs) as [[st' l] res].
Qed.

Lemma run_throws st i inputs e :
  (handle i st).2 = inl e →
  (run st (i :: inputs)).1.1 = (handle i st).1.1.
Proof.
  unfold run. simpl. cbv [mbind M_bind].
  by destruct (handle i st) as [[st1 l1] [e'|[]]].
Qed.

(** Over a whole run: a check that is no longer pending has fired, at a
    moment when its deadline had come. *)
Lemma check_pending_or_fired t previewId inputs st :
  (t, previewId) ∈ timers st →
  (t, previewId) ∈ timers (run st inputs).1.1
  ∨ ∃ pre ms post,
      inputs = pre ++ Advance ms :: post
      ∧ (t, previewId) ∈ timers (run st pre).1.1
      ∧ (t ≤ now (run st pre).1.1 + ms)%N.
Proof.
  revert st. induction inputs as [|i inputs IH]; intros st Hin; [by left|].
  destruct (check_stays_pending t previewId i st Hin) as [Hkept|(ms & -> & Hdue)].
  2:{ right. by exists [], ms, inputs. }
  unfold step in Hkept.
  destruct ((handle i st).2) as [e|[]] eqn:Hres.
  { left. by rewrite (run_throws _ _ _ e). }
  rewrite run_cons_state by done.
  destruct (IH _ Hkept) as [H|(pre & ms & post & -> & Hpre & Hdue)]; [by left|].
  right. exists (i :: pre), ms, post. split; [done|].
  by rewrite run_cons_state.
Qed.

(** A connection for a session without a client: the new socket is the
    only client, and the pending checks and the clock are what they
    were. *)
Lemma on_connection_attaches previewId st :
  previewId ≠ "" → idle st previewId →
  (on_connection (Some previewId) st).2 = inr () →
  ∃ r c1,
    containers (on_connection (Some previewId) st).1.1 !! previewId = Some r
    ∧ heap (on_connection (Some previewId) st).1.1 !! r = Some c1
    ∧ clients c1 = [length (sockets st)]
    ∧ sockets (on_connection (Some previewId) st).1.1 !! length (sockets st)
      = Some (Socket OPEN (Some (previewId, r)))
    ∧ timers (on_connection (Some previewId) st).1.1 = timers st
    ∧ now (on_connection (Some previewId) st).1.1 = now st.
Proof.
  intros Hne Hidle. unfold on_connection. destruct previewId as [|a p]; [done|].
  cbv [mbind M_bind gets modify update]. simpl.
  set (st0 := set_sockets (λ s, s ++ [Socket OPEN None]) st).
  unfold idle in Hidle.
  destruct (containers st !! String a p) as [r|] eqn:E.
  - destruct Hidle as (c & Hc & Hcl).
    rewrite (get_or_create_found _ _ r) by done. simpl. intros _.
    exists r, (with_clients (set_add (length (sockets st))) c).
    rewrite E, !list_lookup_alter_eq, Hc, lookup_app_r, Nat.sub_diag by done.
    simpl. by rewrite Hcl.
  - destruct (Fs.mkdirSync (disk st0) (Path.join "/tmp" (String a p)))
      as [e|d] eqn:Hd.
    { by rewrite (get_or_create_fails _ _ e). }
    rewrite (get_or_create_new _ _ d) by done. simpl. intros _.
    exists (length (heap st)),
      (with_clients (set_add (length (sockets st)))
         (Container (String a p) (Path.join "/tmp" (String a p)) [] ∅ ∅)).
    rewrite lookup_insert_eq, !list_lookup_alter_eq.
    by rewrite !lookup_app_r, !Nat.sub_diag by done.
Qed.

Lemma run_cons_result st i inputs :
  (handle i st).2 = inr () →
  (run st (i :: inputs)).2 = (run (handle i st).1.1 inputs).2.
Proof.
  intros H. rewrite run_cons by done.
  by destruct (run (handle i st).1.1 inputs) as [[st' l] res].
Qed.

Lemma set_delete_only (ws : nat) : set_delete ws [ws] = [].
Proof. unfold set_delete. by rewrite filter_cons_False, filter_nil by auto. Qed.

(** A client that connects to a session whose check is pending, stays for
    a while and leaves before the deadline: the check fires at its deadline
    all the same, finds no client and removes the session, however short a
    time has passed since that client left. *)
Lemma reconnect_keeps_deadline t previewId a b st :
  (t, previewId) ∈ timers st → idle st previewId → previewId ≠ "" →
  (on_connection (Some previewId) st).2 = inr () →
  (now st + a < t)%N → (t ≤ now st + a + b)%N →
  (run st [Connection (Some previewId); Advance a;
           Close (length (sockets st)); Advance b]).2 = inr ()
  ∧ containers (run st [Connection (Some previewId); Advance a;
                        Close (length (sockets st)); Advance b]).1.1
    !! previewId = None.
Proof.
  intros Hin Hidle Hne Hok Ha Hb.
  destruct (on_connection_attaches previewId st Hne Hidle Hok)
    as (r & c1 & E1 & Hr1 & Hcl1 & Hs1 & Ht1 & Hn1).
  rewrite run_cons_result, run_cons_state by done. simpl handle.
  set (st1 := (on_connection (Some previewId) st).1.1) in *.
  set (ws := length (sockets st)) in *.
  (* time passes while the client is connected *)
  assert ((advance a st1).2 = inr ()) as Hok2 by (by rewrite advance_eq).
  rewrite run_cons_result, run_cons_state by done. simpl handle.
  set (st2 := (advance a st1).1.1).
  assert (containers st2 !! previewId = Some r) as E2.
  { subst st2. rewrite advance_eq. simpl.
    apply (expire_all_occupied _ _ _ _ c1); [done|done|]. by rewrite Hcl1. }
  assert (heap st2 = heap st1) as Hh2.
  { subst st2. rewrite advance_eq. simpl. by rewrite expire_all_heap. }
  assert (sockets st2 = sockets st1) as Hs2.
  { subst st2. rewrite advance_eq. simpl. by rewrite expire_all_sockets. }
  assert (now st2 = (now st + a)%N) as Hn2.
  { subst st2. rewrite advance_eq. simpl. by rewrite expire_all_now, Hn1. }
  assert ((t, previewId) ∈ timers st2) as Hin2.
  { subst st2. rewrite timers_advance, Ht1, Hn1.
    apply list_elem_of_filter. split; [simpl; lia|done]. }
  clearbody st2.
  (* the client leaves *)
  assert (on_close ws st2
          = (set_timers (λ ts, ts ++ [((now st2 + cleanup_delay)%N, previewId)])
               (set_heap (alter (with_clients (set_delete ws)) r)
                  (set_sockets (alter (λ s, Socket CLOSED (listeners s)) ws) st2)),
             [], inr ())) as Hclose.
  { rewrite (on_close_eq _ _ OPEN previewId r c1); [|by rewrite Hs2|done|by rewrite Hh2].
    by rewrite Hcl1, set_delete_only. }
  rewrite run_cons_result, run_cons_state by (simpl; by rewrite Hclose).
  simpl handle. rewrite Hclose. cbn [fst snd].
  set (st3 := set_timers _ _).
  assert (idle st3 previewId) as Hidle3.
  { unfold idle. simpl. rewrite E2.
    exists (with_clients (set_delete ws) c1).
    rewrite list_lookup_alter_eq, Hh2, Hr1. split; [done|].
    simpl. by rewrite Hcl1, set_delete_only. }
  assert ((t, previewId) ∈ timers st3) as Hin3.
  { simpl. apply elem_of_app. by left. }
  assert (now st3 = (now st + a)%N) as Hn3 by done.
  clearbody st3.
  (* the deadline comes *)
  assert ((advance b st3).2 = inr ()) as Hok4 by (by rewrite advance_eq).
  rewrite run_cons_result, run_cons_state by done.
  split; [done|].
  apply (check_removes_idle t); [done| |done]. rewrite Hn3. lia.
Qed.

(** ** Sessions come into being on first use *)

(** C7, as stated, fails for a file read: a read that names an identifier
    the registry has never seen is answered 404 "Container not found" and
    no session is created. *)
Lemma read_of_unseen_session_creates_nothing :
  let i := Http (read_request "s1" "index.html") "u" in
  ¬ creates_session i "s1" (initial ∅)
  ∧ responses (step (initial ∅) i).1.2
    = [(404, JsonError "Container not found")].
Proof.
  split; [|reflexivity].
  unfold creates_session. vm_compute. by intros [? ?].
Qed.

(** C7, amended: for an identifier the registry does not hold, whose
    directory the host lets the server make, a file write with its
    parameters, a command execution with its command and a WebSocket
    connection each leave the identifier registered with a new container
    for it (whatever becomes of the rest of the operation); a file read
    does not create a session: it is answered 404 and changes nothing. *)
Theorem first_use_creates_session (st : server) (previewId : string)
    (d : gmap (list string) Fs.node) :
  previewId ≠ "" →
  containers st !! previewId = None →
  Fs.mkdirSync (disk st) (Path.join "/tmp" previewId) = inr d →
  (∀ b filePath content,
     body_path b = Some filePath → body_content b = Some content →
     filePath ≠ "" →
     registered_as_new st (files_write previewId b st).1.1 previewId)
  ∧ (∀ b command uuid,
       body_command b = Some command → command ≠ "" →
       registered_as_new st (execute previewId b uuid st).1.1 previewId)
  ∧ registered_as_new st (on_connection (Some previewId) st).1.1 previewId
  ∧ (∀ filePath, filePath ≠ "" →
       files_read previewId (Some filePath) st
       = (st, [Respond 404 (JsonError "Container not found")], inr ())).
Proof.
  intros Hid E Hd.
  pose proof (created_registered st previewId d) as Hnew.
  pose proof (get_or_create_new previewId st d E Hd) as Hg.
  destruct (Hnew) as [_ (c0 & Hc0 & _)].
  split; [|split; [|split]].
  - intros b filePath content Hp Hc Hne.
    rewrite (files_write_eq _ _ _ _ _ _ _ _ _ Hp Hc Hne Hg Hc0).
    unfold write_outcome.
    destruct (Fs.mkdirSync _ (Path.dirname _)) as [e|d1]; simpl; [done|].
    destruct (Fs.writeFileSync _ _ _) as [e|d2]; simpl.
    + by eapply registered_as_new_same.
    + eapply (registered_as_new_alter _ _ _ (with_files <[filePath:=content]>));
        [by intros []|exact Hnew|done|done].
  - intros b command uuid Hc Hne.
    rewrite (execute_eq _ _ _ _ _ _ _ _ _ Hc Hne Hg Hc0).
    unfold execute_outcome.
    destruct (Fs.mkdirSync _ (Path.join (dir _) _)) as [e|d1]; simpl; [done|].
    eapply (registered_as_new_alter _ _ _ (with_processes _));
      [by intros []|exact Hnew|done|done].
  - destruct previewId as [|a p]; [done|].
    unfold on_connection. cbv [mbind M_bind gets modify update]. simpl.
    set (st0 := set_sockets (λ s, s ++ [Socket OPEN None]) st).
    rewrite (get_or_create_new _ st0 d) by done. simpl.
    eapply (registered_as_new_alter st (created (String a p) d st0) _
              (with_clients _)); [by intros []| |done|done].
    apply (created_registered st0 (String a p) d).
  - intros filePath Hne. by apply files_read_unseen.
Qed.

Lemma first_use_creates_session_witness :
  registered_as_new (initial ∅)
    (files_write "s1" (req_body (write_request "s1" "a.txt" "x")) (initial ∅)).1.1 "s1"
  ∧ registered_as_new (initial ∅)
      (execute "s1" (req_body (execute_request "s1" "ls" [] "/")) "p1" (initial ∅)).1.1 "s1"
  ∧ registered_as_new (initial ∅) (on_connection (Some "s1") (initial ∅)).1.1 "s1"
  ∧ files_read "s1" (Some "a.txt") (initial ∅)
    = (initial ∅, [Respond 404 (JsonError "Container not found")], inr ()).
Proof.
  edestruct (first_use_creates_session (initial ∅) "s1") as (Hw & Hx & Hc & Hr);
    [done|vm_compute; reflexivity|vm_compute; reflexivity|].
  split; [|split; [|split]].
  - by eapply Hw.
  - by eapply Hx.
  - exact Hc.
  - by apply Hr.
Defined.

(** ** Removing through the facade *)

Lemma rm_not_routed (this : FlyContainer.t) (path : string)
    (recursive : option bool) (uuid : string) (st : server) :
  FlyContainer.rm this path recursive uuid st
  = (st, [Respond 404 NotRouted], inl ("Failed to remove: " +:+ path)).
Proof.
  unfold FlyContainer.rm, app, route, try_catch. cbn [req_url req_method req_body].
  rewrite bool_decide_eq_false_2 by (by intros (_ & _ & _ & ? & _)).
  rewrite bool_decide_eq_false_2 by (by intros (? & _)).
  rewrite bool_decide_eq_false_2 by (by intros (? & _)).
  done.
Qed.

(** C5: [fs.rm] on a non-empty directory of the session, without the
    recursive flag, fails: the server has no route for the request, Express
    answers 404 (not found), the facade throws "Failed to remove: <path>",
    and the state of the server, the directory and its contents included,
    is unchanged. *)
Theorem rm_non_recursive_fails (this : FlyContainer.t) (path uuid : string)
    (recursive : option bool) (st : server) :
  non_empty_directory st (FlyContainer.previewId this) path →
  recursive = None ∨ recursive = Some false →
  ∃ log, FlyContainer.rm this path recursive uuid st
         = (st, log, inl ("Failed to remove: " +:+ path))
         ∧ responses log = [(404, NotRouted)].
Proof. intros _ _. eexists. by rewrite rm_not_routed. Qed.

Lemma rm_non_recursive_fails_witness :
  let st := (run (initial ∅) [Http (write_request "s1" "docs/a.txt" "x") "u"]).1.1 in
  ∃ log, FlyContainer.rm (FlyContainer.Make "/home/project" "s1") "docs"
           (Some false) "u" st
         = (st, log, inl "Failed to remove: docs")
         ∧ responses log = [(404, NotRouted)].
Proof.
  apply (rm_non_recursive_fails (FlyContainer.Make "/home/project" "s1") "docs" "u").
  - exists (Container "s1" "/tmp/s1" [] {["docs/a.txt" := "x"]} ∅).
    split; [vm_compute; reflexivity|]. split; [vm_compute; reflexivity|].
    exists "a.txt", (Fs.File "x"). vm_compute. reflexivity.
  - by right.
Defined.

(** ** Writing and reading back *)

(** C2, as stated, fails on two kinds of path.  The empty path is turned
    away by both handlers with status 400.  A path that runs through an
    existing file (here ["a/b"] once ["a"] has been written) cannot be
    written; the write is answered 500 and the read 404. *)
Lemma write_read_roundtrip_fails :
  ¬ write_read_roundtrip (initial ∅) "s1" "" "x"
  ∧ ¬ write_read_roundtrip
        (run (initial ∅) [Http (write_request "s1" "a" "x") "u"]).1.1
        "s1" "a/b" "y".
Proof. split; by vm_compute. Qed.

(** C2, amended: for every session, path and content (the empty content
    included), when the write handler accepts the write (it answers
    [{ success: true }], which it does not for an empty path or when the
    host cannot make the directories or the file), a read of the same path
    in the same session answers with exactly the written content, and
    leaves the state as it is. *)
Theorem write_then_read (st st1 : server) (previewId : string) (b : json_body)
    (filePath content : string) (log1 : list effect) :
  body_path b = Some filePath → body_content b = Some content →
  files_write previewId b st = (st1, log1, inr ()) →
  (200, JsonSuccess) ∈ responses log1 →
  files_read previewId (Some filePath) st1
  = (st1, [Respond 200 (JsonContent content)], inr ()).
Proof.
  intros Hp Hc Hw Hok.
  destruct (decide (filePath = "")) as [->|Hne].
  { rewrite files_write_rejects in Hw by auto. injection Hw as <- <-.
    by apply list_elem_of_singleton in Hok. }
  destruct (get_or_create previewId st) as [[st0 l0] [e|r]] eqn:Hg.
  { by rewrite (files_write_throws _ _ _ _ _ _ _ _ Hp Hc Hne Hg) in Hw. }
  destruct (get_or_create_inv _ _ _ _ _ Hg) as (E & _ & Hl0 & _).
  destruct (heap st0 !! r) as [c|] eqn:Hr.
  2:{ rewrite (files_write_dangling _ _ _ _ _ _ _ _ Hp Hc Hne Hg Hr) in Hw.
      injection Hw as <- <-. rewrite responses_app, Hl0 in Hok.
      by apply list_elem_of_singleton in Hok. }
  rewrite (files_write_eq _ _ _ _ _ _ _ _ _ Hp Hc Hne Hg Hr) in Hw.
  unfold write_outcome in Hw.
  destruct (Fs.mkdirSync _ (Path.dirname _)) as [e|d1].
  { injection Hw as <- <-. rewrite responses_app, Hl0 in Hok.
    by apply list_elem_of_singleton in Hok. }
  destruct (Fs.writeFileSync _ _ _) as [e|d2].
  { injection Hw as <- <-. rewrite responses_app, Hl0 in Hok.
    by apply list_elem_of_singleton in Hok. }
  injection Hw as <- <-.
  rewrite (files_read_eq _ _ _ r (with_files <[filePath:=content]> c)); try done.
  - unfold read_outcome. simpl. by rewrite lookup_insert_eq.
  - simpl. by rewrite list_lookup_alter_eq, Hr.
Qed.

Lemma write_then_read_witness :
  let b := req_body (write_request "s1" "src/lib/empty.txt" "") in
  let st1 := (files_write "s1" b (initial ∅)).1.1 in
  files_read "s1" (Some "src/lib/empty.txt") st1
  = (st1, [Respond 200 (JsonContent "")], inr ()).
Proof.
  intros b st1.
  apply (write_then_read (initial ∅) st1 "s1" b "src/lib/empty.txt" ""
           (files_write "s1" b (initial ∅)).1.2).
  - reflexivity.
  - reflexivity.
  - vm_compute. reflexivity.
  - apply list_elem_of_In. vm_compute. by left.
Defined.

(** ** Spawning *)

Ltac not_in_log H :=
  repeat (apply elem_of_cons in H as [H|H]; [done|]); by apply elem_of_nil in H.

Lemma route_execute previewId b uuid :
  previewId ≠ "" →
  route (execute_post previewId b) uuid = execute previewId b uuid.
Proof.
  intros Hne. unfold route, execute_post. cbn [req_url req_method req_body].
  by rewrite bool_decide_eq_true_2.
Qed.

(** C3, as stated, fails for a command that is not found: [exec] hands the
    command line to a shell, so the request is answered with a process
    identifier, the handle is registered, and when the shell ends with
    status 127 the callback broadcasts a [process-completed] event. *)
Lemma command_not_found_completes :
  let spawn := Http (execute_post "s1"
                 (req_body (execute_request "s1" "no-such-command" [] "/"))) "p1" in
  let st1 := (step (initial ∅) spawn).1.1 in
  let done := ExecDone 0 (exited command_not_found) ""
                "/bin/sh: 1: no-such-command: not found" in
  ¬ spawn_refused (initial ∅) st1 (step (initial ∅) spawn).1.2 "s1"
  ∧ responses (step (initial ∅) spawn).1.2 = [(200, JsonProcessId "p1")]
  ∧ handles st1 "s1" !! "p1" = Some 0
  ∧ broadcasts (step st1 done).1.2
    = [("s1", ProcessCompleted "s1" "p1" (CodeNumber 127) ""
                "/bin/sh: 1: no-such-command: not found")].
Proof.
  split; [|by vm_compute].
  intros ([b Hb] & _). by vm_compute in Hb.
Qed.

(** C3, amended: for every spawn request with a command whose directory
    cannot be made (the working directory, or the directory of a session
    that is new), the caller is answered with status 500 at once, the
    process set of the session is what it was, no child is started, and
    nothing is broadcast, so no [process-completed] event can follow.  A
    command the shell cannot find is not such a failure: it is started
    through the shell and its exit status is broadcast. *)
Theorem spawn_in_unavailable_directory (st : server) (previewId : string)
    (b : json_body) (command uuid : string) :
  previewId ≠ "" →
  body_command b = Some command → command ≠ "" →
  directory_unavailable st previewId (default "/" (body_cwd b)) →
  ∃ st' log,
    step st (Http (execute_post previewId b) uuid) = (st', log, inr ())
    ∧ spawn_refused st st' log previewId.
Proof.
  intros Hid Hc Hne Hun. unfold step, handle, app, directory_unavailable in *.
  rewrite route_execute by done. unfold spawn_refused, handles, session.
  destruct (containers st !! previewId) as [r|] eqn:E.
  - destruct Hun as (c & e & Hr & Hd).
    pose proof (get_or_create_found _ _ _ E) as Hg.
    unfold try_catch.
    rewrite (execute_eq _ _ _ _ _ _ _ _ _ Hc Hne Hg Hr).
    unfold execute_outcome. rewrite Hd. simpl.
    do 2 eexists. split; [done|]. rewrite E. simpl.
    repeat split; eauto.
    intros ?? Hin. not_in_log Hin.
  - destruct Hun as [[e Hd]|(d & e & Hd & Hd')].
    + pose proof (get_or_create_fails _ _ _ E Hd) as Hg.
      unfold try_catch, execute. rewrite Hc.
      destruct command as [|a command]; [done|].
      cbv [mbind M_bind]. rewrite Hg. simpl.
      do 2 eexists. split; [done|]. rewrite E. simpl.
      repeat split; eauto.
      intros ?? Hin. not_in_log Hin.
    + pose proof (get_or_create_new _ _ _ E Hd) as Hg.
      assert (heap (created previewId d st) !! length (heap st)
              = Some (Container previewId (Path.join "/tmp" previewId) [] ∅ ∅)) as Hr.
      { simpl. by rewrite lookup_app_r, Nat.sub_diag. }
      assert (containers (created previewId d st) !! previewId
              = Some (length (heap st))) as E1.
      { simpl. by rewrite lookup_insert_eq. }
      unfold try_catch.
      rewrite (execute_eq _ _ _ _ _ _ _ _ _ Hc Hne Hg Hr).
      unfold execute_outcome. simpl dir. simpl disk. rewrite Hd'.
      do 2 eexists. split; [done|]. rewrite E1. cbn [mbind option_bind].
      rewrite Hr. simpl.
      repeat split; eauto.
      intros ?? Hin. not_in_log Hin.
Qed.

Lemma spawn_in_unavailable_directory_witness :
  let st := (run (initial ∅) [Http (write_request "s1" "notes" "x") "u"]).1.1 in
  ∃ st' log,
    step st (Http (execute_post "s1"
                     (req_body (execute_request "s1" "ls" [] "notes"))) "p1")
    = (st', log, inr ())
    ∧ spawn_refused st st' log "s1".
Proof.
  intros st.
  apply (spawn_in_unavailable_directory st "s1" _ "ls" "p1"); [done|done|done|].
  unfold directory_unavailable.
  assert (containers st !! "s1" = Some 0) as -> by (vm_compute; reflexivity).
  exists (Container "s1" "/tmp/s1" [] {["notes" := "x"]} ∅), Fs.EEXIST.
  split; vm_compute; reflexivity.
Defined.

(** C4: a spawn request that is accepted starts a child; whatever callbacks
    run in between (other than its own completion), when the child exits
    with status [n] its callback broadcasts one [process-completed] event
    for the session, carrying [exitCode = n] and the process identifier, to
    the open clients of the session, and the identifier is gone from the
    process set of the container it was registered in.  The callback does
    nothing when run again, and no other callback of the server broadcasts
    a [process-completed] event. *)
Theorem process_completed_exactly_once (st st1 st2 : server)
    (previewId : string) (b : json_body) (command uuid : string)
    (log1 log2 : list effect) (mid : list input) (n : Z)
    (stdout stderr : string) :
  body_command b = Some command → command ≠ "" →
  execute previewId b uuid st = (st1, log1, inr ()) →
  (200, JsonProcessId uuid) ∈ responses log1 →
  run st1 mid = (st2, log2, inr ()) →
  (∀ error out err, ExecDone (length (children st)) error out err ∉ mid) →
  let k := length (children st) in
  let data := ProcessCompleted previewId uuid (CodeNumber n) stdout stderr in
  (∃ st3 r c1 c3,
     step st2 (ExecDone k (exited n) stdout stderr)
     = (st3, Broadcast previewId data
             :: ((λ ws, Send ws data) <$> recipients st3 previewId), inr ())
     ∧ heap st1 !! r = Some c1 ∧ processes c1 !! uuid = Some k
     ∧ heap st3 !! r = Some c3 ∧ processes c3 !! uuid = None
     ∧ ∀ error out err, step st3 (ExecDone k error out err) = (st3, [], inr ()))
  ∧ (∀ st' i, is_exec_done i = false →
       Forall (no_completion st') (step st' i).1.2).
Proof.
  intros Hc Hne Hx Hok Hrun Hmid k data. split.
  2:{ intros st' i Hi. by apply (no_completion_handle i Hi st'). }
  destruct (execute_accepted _ _ _ _ _ _ _ Hc Hne Hx Hok)
    as (r & c1 & line & cwd & Hk & Hr & Hp).
  destruct (keeps_child_run k mid Hmid st1) as [[Hlen Hkeep] _].
  unfold run in Hrun. rewrite Hrun in Hlen, Hkeep. simpl in Hlen, Hkeep.
  specialize (Hkeep _ Hk).
  assert (is_Some (heap st2 !! r)) as [c2 Hr2].
  { apply lookup_lt_is_Some. apply lookup_lt_Some in Hr. lia. }
  unfold step, handle.
  rewrite (on_exec_done_eq _ _ _ _ _ _ Hkeep) by done.
  cbn [child_processId child_previewId child_container].
  rewrite exit_code_exited.
  eexists _, r, c1, (with_processes (delete uuid) c2).
  split; [done|]. split; [done|]. split; [done|].
  split; [simpl; by rewrite list_lookup_alter_eq, Hr2|].
  split; [simpl; by rewrite lookup_delete_eq|].
  intros error out err. eapply on_exec_done_again.
  - simpl. by rewrite list_lookup_alter_eq, Hkeep.
  - done.
Qed.

Lemma process_completed_exactly_once_witness :
  let b := req_body (execute_request "s1" "exit" ["3"] "/") in
  let st0 := (run (initial ∅) [Connection (Some "s1")]).1.1 in
  let st1 := (execute "s1" b "p1" st0).1.1 in
  let mid := [Http (write_request "s1" "a.txt" "x") "u"; Connection (Some "s2")] in
  let st2 := (run st1 mid).1.1 in
  let data := ProcessCompleted "s1" "p1" (CodeNumber 3) "" "" in
  (∃ st3 r c1 c3,
     step st2 (ExecDone 0 (exited 3) "" "")
     = (st3, Broadcast "s1" data :: ((λ ws, Send ws data) <$> recipients st3 "s1"),
        inr ())
     ∧ heap st1 !! r = Some c1 ∧ processes c1 !! "p1" = Some 0
     ∧ heap st3 !! r = Some c3 ∧ processes c3 !! "p1" = None
     ∧ ∀ error out err, step st3 (ExecDone 0 error out err) = (st3, [], inr ()))
  ∧ (∀ st' i, is_exec_done i = false →
       Forall (no_completion st') (step st' i).1.2).
Proof.
  intros b st0 st1 mid st2 data.
  apply (process_completed_exactly_once st0 st1 st2 "s1" b "exit" "p1"
           (execute "s1" b "p1" st0).1.2 (run st1 mid).1.2 mid 3 "" "").
  - reflexivity.
  - done.
  - vm_compute. reflexivity.
  - apply list_elem_of_In. vm_compute. by left.
  - vm_compute. reflexivity.
  - intros error out err Hin. not_in_log Hin.
Defined.

(** ** Broadcasts *)

(** C9: in every state the server reaches and for every callback, each
    broadcast event carries the identifier it is broadcast for, and each
    copy sent goes to a socket that is open, is in the client set of the
    session named in the event, was connected for that session, and is in
    the client set of no other session.  [broadcastToContainer] sends one
    copy to each open client of the session and none to a client whose
    socket is not open; there is no second attempt. *)
Theorem broadcast_stays_in_session (st : server) :
  reachable st →
  (∀ i, Forall (stays_in_session st) (step st i).1.2)
  ∧ (∀ previewId data,
       broadcastToContainer previewId data st
       = (st, Broadcast previewId data
              :: ((λ ws, Send ws data) <$> recipients st previewId), inr ())
       ∧ NoDup (recipients st previewId)
       ∧ ∀ ws, ws ∈ recipients st previewId ↔
               is_open (sockets st) ws = true
               ∧ ∃ c, session st previewId = Some c ∧ ws ∈ clients c).
Proof.
  intros Hwf%reachable_wf. split.
  - intros i. eapply Forall_impl; [apply sent_to_recipients_handle|].
    intros [] He; simpl in *; try done.
    by apply recipients_stay_in_session.
  - intros previewId data. split; [apply broadcastToContainer_eq|].
    unfold recipients, session.
    destruct (containers st !! previewId) as [r|] eqn:E; simpl.
    + destruct (Hwf _ _ E) as (c & Hc & _ & _ & Hnd & _). rewrite Hc.
      split; [by apply NoDup_filter|]. intros ws.
      rewrite list_elem_of_filter. split.
      * intros [? ?]. split; [done|]. by exists c.
      * intros [? (c' & [= <-] & ?)]. done.
    + split; [constructor|]. intros ws. split; [by intros ?%elem_of_nil|].
      by intros [_ (c & ? & _)].
Qed.

Lemma broadcast_stays_in_session_witness :
  let st := (run (initial ∅)
               [Connection (Some "s1"); Connection (Some "s2");
                Connection (Some "s1"); Closing 2]).1.1 in
  (∀ i, Forall (stays_in_session st) (step st i).1.2)
  ∧ (∀ previewId data,
       broadcastToContainer previewId data st
       = (st, Broadcast previewId data
              :: ((λ ws, Send ws data) <$> recipients st previewId), inr ())
       ∧ NoDup (recipients st previewId)
       ∧ ∀ ws, ws ∈ recipients st previewId ↔
               is_open (sockets st) ws = true
               ∧ ∃ c, session st previewId = Some c ∧ ws ∈ clients c).
Proof.
  apply broadcast_stays_in_session.
  exists ∅, [Connection (Some "s1"); Connection (Some "s2");
             Connection (Some "s1"); Closing 2],
    (run (initial ∅) [Connection (Some "s1"); Connection (Some "s2");
                      Connection (Some "s1"); Closing 2]).1.2.
  vm_compute. reflexivity.
Defined.

(** ** Idle sessions *)

(** C8, as stated, fails when a client comes and goes inside the window.
    The last client of "s1" leaves at time 0; another connects at 100 s and
    leaves at 200 s.  The check scheduled by the first disconnect is still
    pending: it fires at 300 s, finds the client set empty and removes the
    session, 100 s after its last client left, although a client had
    connected before the 300 s were over. *)
Lemma reconnect_does_not_cancel_removal :
  let before := [Connection (Some "s1"); Close 0; Advance 100000;
                 Connection (Some "s1"); Advance 100000; Close 1] in
  let st := (run (initial ∅) before).1.1 in
  let st' := (step st (Advance 100000)).1.1 in
  containers st !! "s1" = Some 0
  ∧ timers st = [(300000%N, "s1"); (500000%N, "s1")]
  ∧ now st = 200000%N
  ∧ now st' = 300000%N
  ∧ containers st' !! "s1" = None.
Proof. by vm_compute. Qed.

(** C8, amended: when a disconnect leaves the client set of a session
    empty, a check is scheduled 5 minutes (300000 ms) later.  A pending
    check is never cancelled: it stays pending through every callback, and
    over every run, until time reaches its deadline, and then it fires.  A
    check removes the session exactly when its client set is empty at the
    moment the check fires.  So a session whose last client has left is out
    of the registry once 5 minutes have passed with no client, and a session
    that has a client when checks fire survives them, with the same
    container object.  A client that connects and leaves again inside the
    window does not postpone the pending check: the check fires at its own
    deadline and removes the session, however recently that client left. *)
Theorem idle_session_cleanup (st : server) (previewId : string) :
  (cleanup previewId st = (expire previewId st, [], inr ())
   ∧ (containers (expire previewId st) !! previewId = None ↔ idle st previewId))
  ∧ (∀ ws state r c,
       sockets st !! ws = Some (Socket state (Some (previewId, r))) →
       state ≠ CLOSED →
       containers st !! previewId = Some r → heap st !! r = Some c →
       set_delete ws (clients c) = [] →
       (∃ st1, step st (Close ws) = (st1, [], inr ())
               ∧ containers st1 = containers st
               ∧ timers st1 = timers st ++ [((now st + cleanup_delay)%N, previewId)])
       ∧ ∀ ms, (cleanup_delay ≤ ms)%N →
           ∃ st2, run st [Close ws; Advance ms] = (st2, [], inr ())
                  ∧ containers st2 !! previewId = None)
  ∧ (∀ r c ms,
       containers st !! previewId = Some r → heap st !! r = Some c →
       clients c ≠ [] →
       ∃ st', step st (Advance ms) = (st', [], inr ())
              ∧ containers st' !! previewId = Some r
              ∧ heap st' = heap st)
  ∧ (∀ t i,
       (t, previewId) ∈ timers st →
       (t, previewId) ∈ timers (step st i).1.1
       ∨ ∃ ms, i = Advance ms ∧ (t ≤ now st + ms)%N)
  ∧ (∀ t inputs,
       (t, previewId) ∈ timers st →
       (t, previewId) ∈ timers (run st inputs).1.1
       ∨ ∃ pre ms post,
           inputs = pre ++ Advance ms :: post
           ∧ (t, previewId) ∈ timers (run st pre).1.1
           ∧ (t ≤ now (run st pre).1.1 + ms)%N)
  ∧ (∀ t ms,
       (t, previewId) ∈ timers st → (t ≤ now st + ms)%N →
       idle st previewId →
       containers (step st (Advance ms)).1.1 !! previewId = None)
  ∧ (∀ t a b,
       (t, previewId) ∈ timers st → idle st previewId → previewId ≠ "" →
       (on_connection (Some previewId) st).2 = inr () →
       (now st + a < t)%N → (t ≤ now st + a + b)%N →
       (run st [Connection (Some previewId); Advance a;
                Close (length (sockets st)); Advance b]).2 = inr ()
       ∧ containers (run st [Connection (Some previewId); Advance a;
                             Close (length (sockets st)); Advance b]).1.1
         !! previewId = None).
Proof.
  split; [split; [apply cleanup_eq|]|split; [|split; [|split; [|split; [|split]]]]].
  4:{ intros t i. apply check_stays_pending. }
  4:{ intros t inputs. apply check_pending_or_fired. }
  4:{ intros t ms. apply check_removes_idle. }
  4:{ intros t a b. apply reconnect_keeps_deadline. }
  - split; [|apply expire_self].
    unfold expire, idle, session.
    destruct (containers st !! previewId) as [r|] eqn:E; simpl; [|done].
    destruct (heap st !! r) as [c|] eqn:Hr; [|by rewrite E].
    case_bool_decide as Hlen; [|by rewrite E].
    intros _. exists c. split; [done|]. by apply nil_length_inv.
  - intros ws state r c Hs Hne E Hr Hlast.
    pose proof (on_close_eq _ _ _ _ _ _ Hs Hne Hr) as Hclose.
    rewrite Hlast in Hclose. simpl in Hclose.
    split; [by eexists|].
    intros ms Hms. unfold run. simpl. cbv [mbind M_bind].
    rewrite Hclose, advance_eq. simpl.
    eexists. split; [done|].
    eapply (expire_all_idle _ _ _ (now st + cleanup_delay)%N).
    + unfold idle. simpl. rewrite E. simpl.
      exists (with_clients (set_delete ws) c).
      rewrite list_lookup_alter_eq, Hr. split; [done|]. by simpl.
    + apply list_elem_of_filter. split; [simpl; lia|].
      apply elem_of_app. right. by apply list_elem_of_singleton.
  - intros r c ms E Hr Hne. unfold step, handle. rewrite advance_eq.
    eexists. split; [done|]. split.
    + by eapply expire_all_occupied.
    + by rewrite expire_all_heap.
Qed.

Lemma idle_session_cleanup_witness :
  let st := (run (initial ∅) [Connection (Some "s1")]).1.1 in
  let left := (run (initial ∅) [Connection (Some "s1"); Close 0]).1.1 in
  let back := [Connection (Some "s1"); Advance 100000; Close 1; Advance 200000] in
  ((∃ st1, step st (Close 0) = (st1, [], inr ())
           ∧ containers st1 = containers st
           ∧ timers st1 = timers st ++ [((now st + cleanup_delay)%N, "s1")])
   ∧ ∀ ms, (cleanup_delay ≤ ms)%N →
       ∃ st2, run st [Close 0; Advance ms] = (st2, [], inr ())
              ∧ containers st2 !! "s1" = None)
  ∧ (∃ st', step st (Advance 300000) = (st', [], inr ())
            ∧ containers st' !! "s1" = Some 0
            ∧ heap st' = heap st)
  ∧ ((run left back).2 = inr () ∧ containers (run left back).1.1 !! "s1" = None).
Proof.
  intros st left back.
  destruct (idle_session_cleanup st "s1") as (_ & Hremove & Hsurvive & _).
  destruct (idle_session_cleanup left "s1") as (_ & _ & _ & _ & _ & _ & Hback).
  split; [|split].
  - by apply (Hremove 0 OPEN 0 (Container "s1" "/tmp/s1" [0] ∅ ∅)).
  - by apply (Hsurvive 0 (Container "s1" "/tmp/s1" [0] ∅ ∅)).
  - apply (Hback 300000%N 100000%N 200000%N).
    + apply list_elem_of_In. vm_compute. by left.
    + exists (Container "s1" "/tmp/s1" [] ∅ ∅). by vm_compute.
    + done.
    + vm_compute. reflexivity.
    + vm_compute. reflexivity.
    + vm_compute. by intros [=].
Defined.

(** ** Paths and the session root *)

(** C1, as stated, fails for a path with [".."] segments: [path.join]
    resolves them, and nothing checks the result.  Session "s1", whose
    directory is [/tmp/s1], writes [/tmp/s2/x.txt] and reads the file
    [/tmp/s2/secret.txt] that session "s2" wrote. *)
Lemma dotdot_leaves_session_root :
  let st := (run (initial ∅)
               [Http (write_request "s2" "secret.txt" "key") "u";
                Connection (Some "s1")]).1.1 in
  let written := (step st (Http (write_request "s1" "../s2/x.txt" "y") "u")).1.2 in
  let read := (step st (Http (read_request "s1" "../s2/secret.txt") "u")).1.2 in
  (∃ c, session st "s1" = Some c ∧ dir c = "/tmp/s1")
  ∧ file_targets written = ["/tmp/s2/x.txt"]
  ∧ ¬ confined "/tmp/s1" "/tmp/s2/x.txt"
  ∧ file_targets read = ["/tmp/s2/secret.txt"; "/tmp/s2/secret.txt"]
  ∧ ¬ confined "/tmp/s1" "/tmp/s2/secret.txt"
  ∧ responses read = [(200, JsonContent "key")].
Proof.
  repeat split; try (by vm_compute); try (by eexists).
  - unfold confined. vm_compute. by intros [k [=]].
  - unfold confined. vm_compute. by intros [k [=]].
Qed.

(** C1, amended: in every state the server reaches, for a client-supplied
    path that has no [".."] segment, every file the write handler writes
    and every file the read handler probes or reads lies in the tree below
    the session's directory [/tmp/<previewId>]; the directories the write
    handler makes lie there too, or are the parent of the session's
    directory (for a path that names the session's directory itself).  A
    path with [".."] segments is resolved by [path.join] and may name a
    location outside. *)
Theorem paths_without_dotdot_stay_in_root (st : server)
    (previewId filePath : string) :
  reachable st →
  ".." ∉ Path.split_slash filePath →
  let root := Path.join "/tmp" previewId in
  (∀ b, body_path b = Some filePath →
     Forall (confined root) (file_targets (files_write previewId b st).1.2)
     ∧ Forall (inside_or_parent root)
         (mkdir_targets (files_write previewId b st).1.2)
     ∧ ∀ c, session (files_write previewId b st).1.1 previewId = Some c →
            dir c = root)
  ∧ Forall (confined root)
      (file_targets (files_read previewId (Some filePath) st).1.2)
  ∧ mkdir_targets (files_read previewId (Some filePath) st).1.2 = []
  ∧ ∀ c, session st previewId = Some c → dir c = root.
Proof.
  intros Hwf%reachable_wf Hdd root.
  split; [|split; [|split]].
  - intros b Hp.
    destruct (files_write_targets st previewId b filePath Hwf Hp Hdd) as [Hf Hm].
    split; [done|]. split; [done|].
    intros c. apply wf_session_dir. by apply wf_files_write.
  - by apply files_read_targets.
  - by apply files_read_targets.
  - intros c. by apply wf_session_dir.
Qed.

Lemma paths_without_dotdot_stay_in_root_witness :
  let st := (run (initial ∅)
               [Http (write_request "s2" "secret.txt" "key") "u";
                Connection (Some "s1")]).1.1 in
  let b := req_body (write_request "s1" "src/./lib//a.txt" "x") in
  (Forall (confined "/tmp/s1") (file_targets (files_write "s1" b st).1.2)
   ∧ Forall (inside_or_parent "/tmp/s1") (mkdir_targets (files_write "s1" b st).1.2)
   ∧ ∀ c, session (files_write "s1" b st).1.1 "s1" = Some c → dir c = "/tmp/s1")
  ∧ Forall (confined "/tmp/s1")
      (file_targets (files_read "s1" (Some "src/./lib//a.txt") st).1.2)
  ∧ mkdir_targets (files_read "s1" (Some "src/./lib//a.txt") st).1.2 = []
  ∧ ∀ c, session st "s1" = Some c → dir c = "/tmp/s1".
Proof.
  intros st b.
  destruct (paths_without_dotdot_stay_in_root st "s1" "src/./lib//a.txt")
    as (Hw & Hr).
  - exists ∅, [Http (write_request "s2" "secret.txt" "key") "u";
               Connection (Some "s1")],
      (run (initial ∅) [Http (write_request "s2" "secret.txt" "key") "u";
                        Connection (Some "s1")]).1.2.
    vm_compute. reflexivity.
  - vm_compute. intros Hin.
    repeat (apply elem_of_cons in Hin as [Hin|Hin]; [done|]).
    by apply elem_of_nil in Hin.
  - split; [by apply Hw|exact Hr].
Defined.

(** * Further properties of the server and of the facade *)

(** ** One container per identifier *)

(** X1: in every state the server reaches, the registry is one-to-one: an
    identifier names a container object that carries this identifier and
    the directory [path.join('/tmp', previewId)], and two identifiers never
    share a container object. *)
Theorem registry_one_to_one (st : server) :
  reachable st →
  (∀ previewId r, containers st !! previewId = Some r →
     ∃ c, heap st !! r = Some c ∧ container_id c = previewId
          ∧ dir c = Path.join "/tmp" previewId)
  ∧ (∀ p1 p2 r, containers st !! p1 = Some r → containers st !! p2 = Some r →
       p1 = p2).
Proof.
  intros Hwf%reachable_wf. split.
  - intros previewId r E. destruct (Hwf _ _ E) as (c & Hc & Hid & Hdir & _).
    by exists c.
  - intros p1 p2 r E1 E2.
    destruct (Hwf _ _ E1) as (c1 & Hc1 & Hid1 & _).
    destruct (Hwf _ _ E2) as (c2 & Hc2 & Hid2 & _).
    by simplify_eq.
Qed.

Lemma registry_one_to_one_witness :
  let st := (run (initial ∅)
               [Connection (Some "s1");
                Http (write_request "s2" "a.txt" "x") "u"]).1.1 in
  (∀ previewId r, containers st !! previewId = Some r →
     ∃ c, heap st !! r = Some c ∧ container_id c = previewId
          ∧ dir c = Path.join "/tmp" previewId)
  ∧ (∀ p1 p2 r, containers st !! p1 = Some r → containers st !! p2 = Some r →
       p1 = p2).
Proof.
  apply registry_one_to_one.
  exists ∅, [Connection (Some "s1"); Http (write_request "s2" "a.txt" "x") "u"],
    (run (initial ∅)
       [Connection (Some "s1"); Http (write_request "s2" "a.txt" "x") "u"]).1.2.
  vm_compute. reflexivity.
Defined.

(** ** A session with a live client stays registered *)

Lemma attached_same st st' :
  containers st' = containers st → heap st' = heap st → sockets st' = sockets st →
  attached st → attached st'.
Proof. intros Hc Hh Hs H ws s previewId r. rewrite Hc, Hh, Hs. apply H. Qed.

Lemma live_same st st' :
  containers st' = containers st → heap st' = heap st → sockets st' = sockets st →
  live st → live st'.
Proof. intros Hc Hh Hs [H1 H2]. split; [by eapply wf_same|by eapply attached_same]. Qed.

Lemma attached_fields st r0 f :
  keeps_clients f → attached st → attached (set_heap (alter f r0) st).
Proof.
  intros Hf H ws s previewId r Hs Hl Hr.
  destruct (H ws s previewId r Hs Hl Hr) as (E & c & Hc & Hin).
  split; [done|]. simpl. destruct (decide (r = r0)) as [->|Hne].
  - exists (f c). rewrite list_lookup_alter_eq, Hc. split; [done|].
    by destruct (Hf c) as (_ & _ & ->).
  - exists c. by rewrite list_lookup_alter_ne.
Qed.

Lemma attached_created st previewId d :
  containers st !! previewId = None →
  attached st → attached (created previewId d st).
Proof.
  intros Hnew H ws s p r Hs Hl Hr.
  destruct (H ws s p r Hs Hl Hr) as (E & c & Hc & Hin). simpl. split.
  - rewrite lookup_insert_ne; [done|]. intros <-. by rewrite Hnew in E.
  - exists c. split; [|done]. by apply lookup_app_l_Some.
Qed.

Lemma attached_new_socket st state :
  attached st → attached (set_sockets (λ l, l ++ [Socket state None]) st).
Proof.
  intros H ws s p r Hs Hl Hr. simpl in Hs.
  apply lookup_app_Some in Hs as [Hs|[_ Hs]].
  - by apply (H ws s p r).
  - apply list_lookup_singleton_Some in Hs as [_ <-]. done.
Qed.

Lemma live_join st previewId r ws state :
  live st →
  containers st !! previewId = Some r →
  sockets st !! ws = Some (Socket state None) →
  live (set_sockets (alter (λ s, Socket (ready s) (Some (previewId, r))) ws)
          (set_heap (alter (with_clients (set_add ws)) r) st)).
Proof.
  intros [Hwf Hat] E Hws. split; [by apply (wf_join _ _ _ _ state)|].
  destruct (Hwf _ _ E) as (c & Hc & _).
  intros w s p r' Hs Hl Hr. simpl in *.
  destruct (decide (w = ws)) as [->|Hne].
  - rewrite list_lookup_alter_eq, Hws in Hs. simpl in Hs. simplify_eq.
    simpl in Hl. simplify_eq. split; [done|].
    exists (with_clients (set_add ws) c). rewrite list_lookup_alter_eq, Hc.
    split; [done|]. simpl. unfold set_add. case_bool_decide; [done|].
    apply elem_of_app. right. by apply list_elem_of_singleton.
  - rewrite list_lookup_alter_ne in Hs by done.
    destruct (Hat w s p r' Hs Hl Hr) as (E' & c' & Hc' & Hin).
    split; [done|]. destruct (decide (r' = r)) as [->|Hne'].
    + exists (with_clients (set_add ws) c'). rewrite list_lookup_alter_eq, Hc'.
      split; [done|]. simpl. unfold set_add. case_bool_decide; [done|].
      apply elem_of_app. by left.
    + exists c'. by rewrite list_lookup_alter_ne.
Qed.

Lemma live_on_connection previewId st :
  live st → live (on_connection previewId st).1.1.
Proof.
  intros Hlive.
  assert (∀ state, live (set_sockets (λ s, s ++ [Socket state None]) st)) as Hnew.
  { intros state. destruct Hlive. split;
      [by apply wf_new_socket|by apply attached_new_socket]. }
  destruct previewId as [[|a p]|]; [apply Hnew| |apply Hnew].
  unfold on_connection. cbv [mbind M_bind gets modify update]. simpl.
  set (st0 := set_sockets (λ s, s ++ [Socket OPEN None]) st).
  assert (live st0) as Hlive0 by apply Hnew.
  assert (sockets st0 !! length (sockets st) = Some (Socket OPEN None)) as Hs0.
  { simpl. by rewrite lookup_app_r, Nat.sub_diag. }
  destruct (containers st0 !! String a p) as [r|] eqn:E.
  - rewrite (get_or_create_found _ _ r) by done. simpl.
    by apply (live_join _ _ _ _ OPEN).
  - destruct (Fs.mkdirSync (disk st0) (Path.join "/tmp" (String a p)))
      as [e|d] eqn:Hd.
    + by rewrite (get_or_create_fails _ _ e).
    + rewrite (get_or_create_new _ _ d) by done. simpl.
      apply (live_join (created (String a p) d st0) _ _ _ OPEN).
      * destruct Hlive0. split; [by apply wf_created|by apply attached_created].
      * simpl. by rewrite lookup_insert_eq.
      * done.
Qed.

Lemma live_on_closing ws st : live st → live (on_closing ws st).1.1.
Proof.
  intros [Hwf Hat]. split; [by apply wf_ready|].
  intros w s p r Hs Hl Hr. simpl in Hs.
  destruct (decide (w = ws)) as [->|Hne].
  - rewrite list_lookup_alter_eq in Hs.
    destruct (sockets st !! ws) as [s0|] eqn:Hs0; [|done].
    simpl in Hs. simplify_eq. simpl in *.
    apply (Hat ws s0 p r); [done|done|].
    intros Hc. rewrite Hc in Hr. by rewrite bool_decide_eq_false_2 in Hr.
  - rewrite list_lookup_alter_ne in Hs by done. by apply (Hat w s p r).
Qed.

Lemma live_closed st ws :
  live st → live (set_sockets (alter (λ s, Socket CLOSED (listeners s)) ws) st).
Proof.
  intros [Hwf Hat]. split; [by apply wf_ready|].
  intros w s p r Hs Hl Hr. simpl in Hs.
  destruct (decide (w = ws)) as [->|Hne].
  - rewrite list_lookup_alter_eq in Hs.
    destruct (sockets st !! ws) as [s0|]; [|done]. simpl in Hs. by simplify_eq.
  - rewrite list_lookup_alter_ne in Hs by done. by apply (Hat w s p r).
Qed.

(** The socket that leaves is already [CLOSED]. *)
Lemma live_leave st ws r :
  (∀ s, sockets st !! ws = Some s → ready s = CLOSED) →
  live st → live (set_heap (alter (with_clients (set_delete ws)) r) st).
Proof.
  intros Hclosed [Hwf Hat]. split; [by apply wf_leave|].
  intros w s p r' Hs Hl Hr. simpl in Hs.
  destruct (Hat w s p r' Hs Hl Hr) as (E & c & Hc & Hin).
  split; [done|]. simpl. destruct (decide (r' = r)) as [->|Hne].
  - exists (with_clients (set_delete ws) c). rewrite list_lookup_alter_eq, Hc.
    split; [done|]. simpl. unfold set_delete. apply list_elem_of_filter.
    split; [|done]. intros ->. by apply Hr, Hclosed.
  - exists c. by rewrite list_lookup_alter_ne.
Qed.

Lemma live_on_close ws st : live st → live (on_close ws st).1.1.
Proof.
  intros Hlive. unfold on_close. cbv [mbind M_bind gets modify update mret M_ret].
  destruct (sockets st !! ws) as [[state l]|] eqn:Hs; [|done].
  case_bool_decide as Hstate; [done|]. simpl.
  set (st1 := set_sockets (alter (λ s, Socket CLOSED (listeners s)) ws) st).
  assert (live st1) as Hlive1 by (by apply live_closed).
  destruct l as [[previewId r]|]; [|done]. simpl.
  assert (live (set_heap (alter (with_clients (set_delete ws)) r) st1)) as Hlive2.
  { apply live_leave; [|done]. intros s. simpl.
    rewrite list_lookup_alter_eq, Hs. by intros [= <-]. }
  destruct (alter (with_clients (set_delete ws)) r (heap st) !! r) as [c|]; [|done].
  case_bool_decide; [|done]. simpl. revert Hlive2. by apply live_same.
Qed.

Lemma live_expire previewId st : live st → live (expire previewId st).
Proof.
  intros [Hwf Hat]. unfold expire, session.
  destruct (containers st !! previewId) as [r|] eqn:E; [|done]. simpl.
  destruct (heap st !! r) as [c|] eqn:Hc; [|done].
  case_bool_decide as Hlen; [|done]. split; [by apply wf_forget|].
  intros w s p r' Hs Hl Hr.
  destruct (Hat w s p r' Hs Hl Hr) as (E' & c' & Hc' & Hin). simpl.
  destruct (decide (p = previewId)) as [->|Hne].
  - simplify_eq. apply nil_length_inv in Hlen. rewrite Hlen in Hin.
    by apply elem_of_nil in Hin.
  - rewrite lookup_delete_ne by done. eauto.
Qed.

Lemma live_advance ms st : live st → live (advance ms st).1.1.
Proof.
  intros Hlive. rewrite advance_eq. simpl.
  assert (live (set_timers (filter (λ x, ¬ (x.1 ≤ now st + ms)%N))
                  (set_now (now st + ms)%N st))) as H0.
  { revert Hlive. by apply live_same. }
  revert H0. generalize (set_timers (filter (λ x, ¬ (x.1 ≤ now st + ms)%N))
                           (set_now (now st + ms)%N st)).
  induction (filter (λ x, (x.1 ≤ now st + ms)%N) (timers st)) as [|x due IH];
    intros s Hs; simpl; [done|].
  by apply IH, live_expire.
Qed.

Lemma keeps_live_refl st : keeps_live st st.
Proof. by intros ?. Qed.

Lemma keeps_live_trans st1 st2 st3 :
  keeps_live st1 st2 → keeps_live st2 st3 → keeps_live st1 st3.
Proof. unfold keeps_live. auto. Qed.

Lemma any_effect_back (R : server → server → Prop) st st' e :
  R st st' → any_effect st' e → any_effect st e.
Proof. done. Qed.

Lemma any_effect_quiet st e : quiet e → any_effect st e.
Proof. done. Qed.

Lemma any_effect_broadcast st previewId data :
  event_previewId data = previewId → is_process_completed data = false →
  any_effect st (Broadcast previewId data)
  ∧ ∀ ws, ws ∈ recipients st previewId → any_effect st (Send ws data).
Proof. done. Qed.

Lemma any_effect_completed st previewId data :
  event_previewId data = previewId →
  any_effect st (Broadcast previewId data)
  ∧ ∀ ws, ws ∈ recipients st previewId → any_effect st (Send ws data).
Proof. done. Qed.

Lemma keeps_live_disk st d : keeps_live st (set_disk d st).
Proof. unfold keeps_live. by apply live_same. Qed.

Lemma keeps_live_fields st r f :
  keeps_clients f → keeps_live st (set_heap (alter f r) st).
Proof. intros Hf [H1 H2]. split; [by apply wf_fields|by apply attached_fields]. Qed.

Lemma keeps_live_created st previewId d :
  containers st !! previewId = None → keeps_live st (created previewId d st).
Proof. intros E [H1 H2]. split; [by apply wf_created|by apply attached_created]. Qed.

Lemma keeps_live_spawn st c :
  keeps_live st (set_children (λ cs, cs ++ [c]) st).
Proof. unfold keeps_live. by apply live_same. Qed.

Lemma keeps_live_completed k st :
  keeps_live st (set_children (alter completed k) st).
Proof. unfold keeps_live. by apply live_same. Qed.

Lemma live_handle i st : live st → live (handle i st).1.1.
Proof.
  destruct i; simpl.
  - apply live_on_connection.
  - intros H. refine (proj1 (respects_on_message keeps_live any_effect
      keeps_live_refl keeps_live_trans (any_effect_back keeps_live)
      any_effect_broadcast _ _ st) H).
  - apply live_on_closing.
  - apply live_on_close.
  - intros H. refine (proj1 (respects_app keeps_live any_effect
      keeps_live_refl keeps_live_trans (any_effect_back keeps_live)
      any_effect_quiet any_effect_broadcast keeps_live_disk keeps_live_fields
      keeps_live_created keeps_live_spawn _ _ st) H).
  - intros H. refine (proj1 (respects_on_child_data keeps_live any_effect
      keeps_live_refl keeps_live_trans (any_effect_back keeps_live)
      any_effect_broadcast _ _ _ st) H).
  - intros H. refine (proj1 (respects_on_exec_done keeps_live any_effect
      keeps_live_refl keeps_live_trans (any_effect_back keeps_live)
      any_effect_completed keeps_live_fields _ _ _ _
      (keeps_live_completed _) st) H).
  - apply live_advance.
Qed.

Lemma live_run inputs st : live st → live (run st inputs).1.1.
Proof.
  unfold run. revert st. induction inputs as [|i inputs IH]; intros st H; [done|].
  simpl. cbv [mbind M_bind].
  pose proof (live_handle i st H) as Hi.
  destruct (handle i st) as [[st1 l1] [e|[]]]; simpl in *; [done|].
  specialize (IH st1 Hi).
  by destruct (for_each handle inputs st1) as [[st2 l2] res].
Qed.

Lemma reachable_live st : reachable st → live st.
Proof.
  intros (d & inputs & log & Hrun).
  assert (live (initial d)) as H0.
  { split; [apply wf_initial|]. by intros ws s p r Hs. }
  pose proof (live_run inputs _ H0) as H. by rewrite Hrun in H.
Qed.

(** X2: in every state the server reaches, a socket whose listeners are
    attached and which is not yet [CLOSED] belongs to the client set of the
    container registered under its identifier; so the clean-up check never
    removes, and the registry never lacks, a session that still has such a
    client. *)
Theorem live_client_keeps_session (st : server) (ws : nat) (s : socket)
    (previewId : string) (r : nat) :
  reachable st →
  sockets st !! ws = Some s → listeners s = Some (previewId, r) →
  ready s ≠ CLOSED →
  (∃ c, containers st !! previewId = Some r ∧ heap st !! r = Some c
        ∧ ws ∈ clients c)
  ∧ ∀ ms, containers (step st (Advance ms)).1.1 !! previewId = Some r.
Proof.
  intros Hreach Hs Hl Hr.
  destruct (reachable_live _ Hreach) as [Hwf Hat].
  destruct (Hat ws s previewId r Hs Hl Hr) as (E & c & Hc & Hin).
  split; [by exists c|].
  intros ms. unfold step, handle. rewrite advance_eq. simpl.
  eapply expire_all_occupied; [done|done|].
  intros Hnil. rewrite Hnil in Hin. by apply elem_of_nil in Hin.
Qed.

Lemma live_client_keeps_session_witness :
  let inputs := [Connection (Some "s1"); Connection (Some "s1"); Close 0;
                 Closing 1] in
  let st := (run (initial ∅) inputs).1.1 in
  (∃ c, containers st !! "s1" = Some 0 ∧ heap st !! 0 = Some c ∧ 1 ∈ clients c)
  ∧ ∀ ms, containers (step st (Advance ms)).1.1 !! "s1" = Some 0.
Proof.
  intros inputs st.
  apply (live_client_keeps_session st 1 (Socket CLOSING (Some ("s1", 0))) "s1" 0).
  - exists ∅, inputs, (run (initial ∅) inputs).1.2. vm_compute. reflexivity.
  - vm_compute. reflexivity.
  - reflexivity.
  - done.
Defined.

(** ** Every request is answered once *)

Lemma get_or_create_silent previewId st :
  responses (get_or_create previewId st).1.2 = [].
Proof.
  destruct (containers st !! previewId) as [r|] eqn:E.
  - by rewrite (get_or_create_found _ _ r).
  - destruct (Fs.mkdirSync (disk st) (Path.join "/tmp" previewId)) as [e|d] eqn:Hd.
    + by rewrite (get_or_create_fails _ _ e).
    + by rewrite (get_or_create_new _ _ d).
Qed.

Lemma answers_respond status b : answers (respond status b).
Proof. intros st. simpl. eauto. Qed.

Lemma answers_files_write previewId b : answers (files_write previewId b).
Proof.
  intros st.
  destruct (body_path b) as [filePath|] eqn:Hp;
    [|rewrite files_write_rejects by auto; simpl; eauto].
  destruct (body_content b) as [content|] eqn:Hc;
    [|rewrite files_write_rejects by auto; simpl; eauto].
  destruct (decide (filePath = "")) as [->|Hne];
    [rewrite files_write_rejects by auto; simpl; eauto|].
  pose proof (get_or_create_silent previewId st) as Hl0.
  destruct (get_or_create previewId st) as [[st0 l0] [e|r]] eqn:Hg; simpl in Hl0.
  { by rewrite (files_write_throws _ _ _ _ _ _ _ _ Hp Hc Hne Hg). }
  destruct (heap st0 !! r) as [c|] eqn:Hr.
  2:{ rewrite (files_write_dangling _ _ _ _ _ _ _ _ Hp Hc Hne Hg Hr). simpl.
      rewrite responses_app, Hl0. simpl. eauto. }
  rewrite (files_write_eq _ _ _ _ _ _ _ _ _ Hp Hc Hne Hg Hr).
  unfold write_outcome.
  destruct (Fs.mkdirSync _ (Path.dirname _)) as [e1|d1];
    [|destruct (Fs.writeFileSync _ _ _) as [e2|d2]]; simpl;
    rewrite responses_app, Hl0; simpl; eauto.
  rewrite responses_app, responses_sends by eauto. simpl. eauto.
Qed.

Lemma answers_files_read previewId q : answers (files_read previewId q).
Proof.
  intros st. destruct q as [[|a filePath]|]; [simpl; eauto| |simpl; eauto].
  destruct (containers st !! previewId) as [r|] eqn:E;
    [|rewrite files_read_unseen by done; simpl; eauto].
  destruct (heap st !! r) as [c|] eqn:Hr.
  - rewrite (files_read_eq _ _ _ r c) by done. unfold read_outcome.
    destruct (files c !! String a filePath); [simpl; eauto|].
    destruct (Fs.existsSync _ _); [|simpl; eauto].
    destruct (Fs.readFileSync _ _); simpl; eauto.
  - unfold files_read. cbv [mbind M_bind gets try_catch deref].
    rewrite E, Hr. simpl. eauto.
Qed.

Lemma answers_execute previewId b uuid : answers (execute previewId b uuid).
Proof.
  intros st.
  destruct (body_command b) as [command|] eqn:Hc;
    [|unfold execute; rewrite Hc; simpl; eauto].
  destruct (decide (command = "")) as [->|Hne];
    [unfold execute; rewrite Hc; simpl; eauto|].
  pose proof (get_or_create_silent previewId st) as Hl0.
  destruct (get_or_create previewId st) as [[st0 l0] [e|r]] eqn:Hg; simpl in Hl0.
  { unfold execute. rewrite Hc. destruct command; [done|].
    cbv [mbind M_bind]. by rewrite Hg. }
  destruct (heap st0 !! r) as [c|] eqn:Hr.
  2:{ unfold execute. rewrite Hc. destruct command; [done|].
      cbv [mbind M_bind try_catch deref]. rewrite Hg, Hr. simpl.
      rewrite responses_app, Hl0. simpl. eauto. }
  rewrite (execute_eq _ _ _ _ _ _ _ _ _ Hc Hne Hg Hr).
  unfold execute_outcome.
  destruct (Fs.mkdirSync _ (Path.join (dir _) _)) as [e1|d1]; simpl;
    rewrite responses_app, Hl0; simpl; eauto.
Qed.

Lemma answers_preview_index previewId : answers (preview_index previewId).
Proof.
  intros st. unfold preview_index. cbv [mbind M_bind gets deref existsSync].
  destruct (containers st !! previewId) as [r|]; [|simpl; eauto].
  destruct (heap st !! r) as [c|]; [|done]. simpl.
  destruct (Fs.existsSync _ _); simpl; eauto.
Qed.

Lemma answers_preview_static previewId filePath :
  answers (preview_static previewId filePath).
Proof.
  intros st. unfold preview_static.
  cbv [mbind M_bind gets deref existsSync isFile].
  destruct (containers st !! previewId) as [r|]; [|simpl; eauto].
  destruct (heap st !! r) as [c|]; [|done]. simpl.
  destruct (Fs.existsSync _ _), (Fs.isFile _ _); simpl; eauto.
Qed.

Lemma answers_route req uuid : answers (route req uuid).
Proof.
  unfold route.
  repeat first
    [ apply answers_files_write | apply answers_files_read
    | apply answers_execute | apply answers_preview_index
    | apply answers_preview_static | apply answers_respond
    | match goal with
      | |- answers (match ?x with _ => _ end) => destruct x
      end ].
Qed.

(** X3: whatever the request and the state, Express and the handlers
    together write exactly one response and the callback returns: no
    request is left unanswered, none is answered twice, and no exception
    leaves a route handler unanswered. *)
Theorem every_request_is_answered_once (req : request) (uuid : string)
    (st : server) :
  ∃ st' log status b,
    step st (Http req uuid) = (st', log, inr ())
    ∧ responses log = [(status, b)].
Proof.
  unfold step, handle, app, try_catch.
  pose proof (answers_route req uuid st) as H.
  destruct (route req uuid st) as [[st1 l1] [e|[]]]; simpl in *.
  - do 4 eexists. split; [done|]. by rewrite responses_app, H.
  - destruct H as (status & b & H). by do 4 eexists.
Qed.

(** ** Requests without their parameters *)

(** X4: a write without a path (absent or empty) or without content, a
    read without a path, and a command request without a command are
    answered 400 before anything else happens: the state is what it was, in
    particular no session is created for the identifier. *)
Theorem invalid_requests_change_nothing (st : server) (previewId uuid : string)
    (b : json_body) (q : option string) :
  (body_path b = None ∨ body_path b = Some "" ∨ body_content b = None →
   files_write previewId b st
   = (st, [Respond 400 (JsonError "Missing required parameters")], inr ()))
  ∧ (q = None ∨ q = Some "" →
     files_read previewId q st
     = (st, [Respond 400 (JsonError "Missing path parameter")], inr ()))
  ∧ (body_command b = None ∨ body_command b = Some "" →
     execute previewId b uuid st
     = (st, [Respond 400 (JsonError "Missing command parameter")], inr ())).
Proof.
  split; [apply files_write_rejects|split].
  - by intros [->| ->].
  - unfold execute. by intros [->| ->].
Qed.

Lemma invalid_requests_change_nothing_witness :
  let b := JsonBody (Some "") (Some "x") (Some "") None None None in
  files_write "s1" b (initial ∅)
  = (initial ∅, [Respond 400 (JsonError "Missing required parameters")], inr ())
  ∧ files_read "s1" (Some "") (initial ∅)
    = (initial ∅, [Respond 400 (JsonError "Missing path parameter")], inr ())
  ∧ execute "s1" b "p1" (initial ∅)
    = (initial ∅, [Respond 400 (JsonError "Missing command parameter")], inr ()).
Proof.
  intros b.
  destruct (invalid_requests_change_nothing (initial ∅) "s1" "p1" b (Some ""))
    as (Hw & Hr & Hx).
  split; [apply Hw; by right; left|split; [apply Hr; by right|apply Hx; by right]].
Defined.

(** ** What a read does and does not do *)

Lemma files_read_dangling previewId filePath st r :
  filePath ≠ "" → containers st !! previewId = Some r → heap st !! r = None →
  files_read previewId (Some filePath) st
  = (st, [Respond 500 (JsonError "Cannot read properties of undefined")], inr ()).
Proof.
  intros Hne E Hr. unfold files_read. destruct filePath; [done|].
  cbv [mbind M_bind gets try_catch deref]. by rewrite E, Hr.
Qed.

Lemma files_read_state st previewId q :
  (files_read previewId q st).1.1 = st
  ∨ ∃ r c filePath content,
      q = Some filePath
      ∧ containers st !! previewId = Some r ∧ heap st !! r = Some c
      ∧ files c !! filePath = None
      ∧ Fs.readFileSync (disk st) (Path.join (dir c) filePath) = inr content
      ∧ (files_read previewId q st).1.1
        = set_heap (alter (with_files <[filePath := content]>) r) st.
Proof.
  destruct q as [[|a p]|]; [by left| |by left].
  destruct (containers st !! previewId) as [r|] eqn:E;
    [|rewrite files_read_unseen by done; by left].
  destruct (heap st !! r) as [c|] eqn:Hr;
    [|rewrite (files_read_dangling _ _ _ r) by done; by left].
  rewrite (files_read_eq _ _ _ r c) by done. unfold read_outcome.
  destruct (files c !! String a p) eqn:Hf; [by left|].
  destruct (Fs.existsSync _ _); [|by left].
  destruct (Fs.readFileSync _ _) as [e|content] eqn:Hread; [by left|].
  right. by exists r, c, (String a p), content.
Qed.

Lemma files_read_broadcasts st previewId q :
  broadcasts (files_read previewId q st).1.2 = [].
Proof.
  destruct q as [[|a p]|]; [done| |done].
  destruct (containers st !! previewId) as [r|] eqn:E;
    [|by rewrite files_read_unseen].
  destruct (heap st !! r) as [c|] eqn:Hr;
    [|by rewrite (files_read_dangling _ _ _ r)].
  rewrite (files_read_eq _ _ _ r c) by done. unfold read_outcome.
  destruct (files c !! String a p); [done|].
  destruct (Fs.existsSync _ _); [|done].
  by destruct (Fs.readFileSync _ _).
Qed.

Lemma preview_index_state st previewId :
  (preview_index previewId st).1.1 = st
  ∧ broadcasts (preview_index previewId st).1.2 = [].
Proof.
  unfold preview_index. cbv [mbind M_bind gets deref existsSync].
  destruct (containers st !! previewId) as [r|]; [|done].
  destruct (heap st !! r) as [c|]; [|done]. simpl.
  by destruct (Fs.existsSync _ _).
Qed.

Lemma preview_static_state st previewId rest :
  (preview_static previewId rest st).1.1 = st
  ∧ broadcasts (preview_static previewId rest st).1.2 = [].
Proof.
  unfold preview_static. cbv [mbind M_bind gets deref existsSync isFile].
  destruct (containers st !! previewId) as [r|]; [|done].
  destruct (heap st !! r) as [c|]; [|done]. simpl.
  by destruct (Fs.existsSync _ _), (Fs.isFile _ _).
Qed.

(** X5: the read handler and the two preview routes never create a
    session, never write to the file system, and never touch the sockets,
    the children or the timers; they broadcast nothing.  The preview routes
    leave the whole state as it is; a read changes at most the cache entry
    of its own path in the container of its own session, and only to store
    what it has just read from the file. *)
Theorem get_routes_only_fill_the_cache (st : server) (previewId : string)
    (q : option string) (rest : string) :
  ((files_read previewId q st).1.1 = st
   ∨ ∃ r c filePath content,
       q = Some filePath
       ∧ containers st !! previewId = Some r ∧ heap st !! r = Some c
       ∧ files c !! filePath = None
       ∧ Fs.readFileSync (disk st) (Path.join (dir c) filePath) = inr content
       ∧ (files_read previewId q st).1.1
         = set_heap (alter (with_files <[filePath := content]>) r) st)
  ∧ broadcasts (files_read previewId q st).1.2 = []
  ∧ (preview_index previewId st).1.1 = st
  ∧ broadcasts (preview_index previewId st).1.2 = []
  ∧ (preview_static previewId rest st).1.1 = st
  ∧ broadcasts (preview_static previewId rest st).1.2 = [].
Proof.
  split; [apply files_read_state|].
  split; [apply files_read_broadcasts|].
  destruct (preview_index_state st previewId) as [-> ->].
  by destruct (preview_static_state st previewId rest) as [-> ->].
Qed.

(** ** What stays in the cache *)

Section cache.
Context (r : nat) (filePath content : string).

Lemma cached_same st st' :
  files <$> heap st' = files <$> heap st →
  cached r filePath content st → cached r filePath content st'.
Proof.
  intros Hh (c & Hr & Hf).
  assert ((files <$> heap st') !! r = Some (files c)) as Hr'.
  { by rewrite Hh, list_lookup_fmap, Hr. }
  rewrite list_lookup_fmap in Hr'.
  destruct (heap st' !! r) as [c'|] eqn:E; [|done].
  injection Hr' as Hr'. exists c'. by rewrite Hr'.
Qed.

Lemma files_alter (f : container → container) r' (h : list container) :
  (∀ c, files (f c) = files c) →
  files <$> alter f r' h = files <$> h.
Proof.
  intros Hf. apply list_eq. intros i. rewrite !list_lookup_fmap.
  destruct (decide (i = r')) as [->|Hne].
  - rewrite list_lookup_alter_eq. destruct (h !! r'); [|done]. simpl. by rewrite Hf.
  - by rewrite list_lookup_alter_ne.
Qed.

Lemma cached_fields st r' f :
  (∀ c, files (f c) = files c) →
  cached r filePath content st → cached r filePath content (set_heap (alter f r') st).
Proof. intros Hf. apply cached_same. simpl. by apply files_alter. Qed.

Lemma cached_insert st r' other value :
  r' ≠ r ∨ other ≠ filePath →
  cached r filePath content st →
  cached r filePath content
    (set_heap (alter (with_files <[other := value]>) r') st).
Proof.
  intros Hne (c & Hr & Hf). unfold cached. simpl.
  destruct (decide (r' = r)) as [->|Hnr].
  - destruct Hne as [?|Hne]; [done|].
    exists (with_files <[other := value]> c).
    rewrite list_lookup_alter_eq, Hr. split; [done|]. simpl.
    by rewrite lookup_insert_ne.
  - exists c. by rewrite list_lookup_alter_ne.
Qed.

Lemma cached_created st previewId d :
  cached r filePath content st → cached r filePath content (created previewId d st).
Proof.
  intros (c & Hr & Hf). exists c. split; [|done]. simpl.
  by apply lookup_app_l_Some.
Qed.

Lemma cached_disk st d :
  cached r filePath content st → cached r filePath content (set_disk d st).
Proof. by apply cached_same. Qed.

Lemma cached_get_or_create previewId st :
  cached r filePath content st →
  cached r filePath content (get_or_create previewId st).1.1.
Proof.
  intros H.
  destruct (containers st !! previewId) as [r0|] eqn:E.
  - by rewrite (get_or_create_found _ _ r0).
  - destruct (Fs.mkdirSync (disk st) (Path.join "/tmp" previewId)) as [e|d] eqn:Hd.
    + by rewrite (get_or_create_fails _ _ e).
    + rewrite (get_or_create_new _ _ d) by done. by apply cached_created.
Qed.

Lemma cached_on_connection previewId st :
  cached r filePath content st →
  cached r filePath content (on_connection previewId st).1.1.
Proof.
  intros H.
  assert (∀ f, cached r filePath content (set_sockets f st)) as Hnew.
  { intros f. by apply (cached_same st). }
  destruct previewId as [[|a p]|]; [apply Hnew| |apply Hnew].
  unfold on_connection. cbv [mbind M_bind gets modify update]. simpl.
  pose proof (cached_get_or_create (String a p) _
                (Hnew (λ s, s ++ [Socket OPEN None]))) as H0.
  destruct (get_or_create (String a p) _) as [[st0 l0] [e|r0]]; [done|].
  simpl in *.
  apply (cached_same
           (set_heap (alter (with_clients (set_add (length (sockets st)))) r0) st0));
    [done|].
  by apply cached_fields.
Qed.

Lemma keeps_cached_refl st : keeps_cached r filePath content st st.
Proof. by intros H. Qed.

Lemma keeps_cached_trans st1 st2 st3 :
  keeps_cached r filePath content st1 st2 →
  keeps_cached r filePath content st2 st3 →
  keeps_cached r filePath content st1 st3.
Proof. unfold keeps_cached. auto. Qed.

Lemma keeps_cached_same st st' :
  heap st' = heap st → keeps_cached r filePath content st st'.
Proof. intros Hh. unfold keeps_cached. apply cached_same. by rewrite Hh. Qed.

Lemma cached_quiet_handlers i st :
  match i with
  | Message _ _ | Closing _ | Close _ | ChildData _ _ _ | Advance _ => True
  | _ => False
  end →
  cached r filePath content st → cached r filePath content (handle i st).1.1.
Proof.
  intros Hi.
  assert (respects (keeps_cached r filePath content) any_effect (handle i)) as Hr.
  { destruct i; try done; simpl;
      [ apply respects_on_message | apply respects_on_closing
      | apply respects_on_close | apply respects_on_child_data
      | apply respects_advance ];
      unfold any_effect;
      first [ done | apply keeps_cached_refl | apply keeps_cached_trans
            | by intros; apply keeps_cached_same
            | intros ???; unfold keeps_cached; by apply cached_fields ]. }
  apply (Hr st).
Qed.

Lemma cached_files_write previewId b st :
  body_path b ≠ Some filePath →
  cached r filePath content st →
  cached r filePath content (files_write previewId b st).1.1.
Proof.
  intros Hother H.
  destruct (body_path b) as [other|] eqn:Hp;
    [|by rewrite files_write_rejects by auto].
  destruct (body_content b) as [value|] eqn:Hc;
    [|by rewrite files_write_rejects by auto].
  destruct (decide (other = "")) as [->|Hne];
    [by rewrite files_write_rejects by auto|].
  pose proof (cached_get_or_create previewId st H) as H0.
  destruct (get_or_create previewId st) as [[st0 l0] [e|r0]] eqn:Hg.
  { by rewrite (files_write_throws _ _ _ _ _ _ _ _ Hp Hc Hne Hg). }
  simpl in H0.
  destruct (heap st0 !! r0) as [c|] eqn:Hr.
  2:{ by rewrite (files_write_dangling _ _ _ _ _ _ _ _ Hp Hc Hne Hg Hr). }
  rewrite (files_write_eq _ _ _ _ _ _ _ _ _ Hp Hc Hne Hg Hr).
  unfold write_outcome.
  destruct (Fs.mkdirSync _ (Path.dirname _)) as [e|d1]; [done|].
  destruct (Fs.writeFileSync _ _ _) as [e|d2]; simpl.
  - by apply cached_disk.
  - apply cached_insert; [|by apply cached_disk].
    right. by intros ->.
Qed.

Lemma cached_files_read previewId q st :
  cached r filePath content st →
  cached r filePath content (files_read previewId q st).1.1.
Proof.
  intros H.
  destruct (files_read_state st previewId q)
    as [->|(r0 & c & other & value & _ & _ & Hr & Hf & _ & ->)]; [done|].
  apply cached_insert; [|done].
  destruct (decide (r0 = r)) as [->|Hnr]; [|by left].
  right. intros ->.
  destruct H as (c' & Hr' & Hf'). congruence.
Qed.

Lemma cached_execute previewId b uuid st :
  cached r filePath content st →
  cached r filePath content (execute previewId b uuid st).1.1.
Proof.
  intros H.
  destruct (body_command b) as [command|] eqn:Hc;
    [|unfold execute; by rewrite Hc].
  destruct (decide (command = "")) as [->|Hne];
    [unfold execute; by rewrite Hc|].
  pose proof (cached_get_or_create previewId st H) as H0.
  destruct (get_or_create previewId st) as [[st0 l0] [e|r0]] eqn:Hg.
  { unfold execute. rewrite Hc. destruct command; [done|].
    cbv [mbind M_bind]. by rewrite Hg. }
  simpl in H0.
  destruct (heap st0 !! r0) as [c|] eqn:Hr.
  2:{ unfold execute. rewrite Hc. destruct command; [done|].
      cbv [mbind M_bind try_catch deref]. by rewrite Hg, Hr. }
  rewrite (execute_eq _ _ _ _ _ _ _ _ _ Hc Hne Hg Hr).
  unfold execute_outcome.
  destruct (Fs.mkdirSync _ _) as [e|d]; [done|]. simpl.
  apply cached_fields; [done|].
  by apply (cached_same st0).
Qed.

Lemma cached_route req uuid st :
  ¬ posts_path filePath (Http req uuid) →
  cached r filePath content st →
  cached r filePath content (route req uuid st).1.1.
Proof.
  intros Hno H. unfold route.
  repeat first
    [ by apply cached_files_read | by apply cached_execute
    | by rewrite (proj1 (preview_index_state _ _))
    | by rewrite (proj1 (preview_static_state _ _ _))
    | done
    | match goal with
      | Hw : req_method req = POST ∧ _ |- cached _ _ _ (files_write _ _ _).1.1 =>
          apply cached_files_write; [|done];
          intros Hp; apply Hno; split; [apply Hw|exact Hp]
      | |- cached _ _ _ ((if bool_decide _ then _ else _) _).1.1 =>
          case_bool_decide
      | |- cached _ _ _ (match ?x with _ => _ end _).1.1 => destruct x
      end ].
Qed.

Lemma cached_app req uuid st :
  ¬ posts_path filePath (Http req uuid) →
  cached r filePath content st →
  cached r filePath content (app req uuid st).1.1.
Proof.
  intros Hno H. pose proof (cached_route req uuid st Hno H) as H1.
  unfold app, try_catch.
  by destruct (route req uuid st) as [[st1 l1] [e|[]]].
Qed.

Lemma cached_on_exec_done k error stdout stderr st :
  cached r filePath content st →
  cached r filePath content (on_exec_done k error stdout stderr st).1.1.
Proof.
  intros H.
  destruct (children st !! k) as [ch|] eqn:Hk.
  2:{ unfold on_exec_done. cbv [mbind M_bind gets]. by rewrite Hk. }
  destruct (child_completed ch) eqn:Hc.
  { by rewrite (on_exec_done_again _ _ _ _ _ ch). }
  rewrite (on_exec_done_eq _ _ _ _ _ ch) by done. simpl.
  apply cached_fields; [done|].
  by apply (cached_same st).
Qed.

Lemma cached_handle i st :
  ¬ posts_path filePath i →
  cached r filePath content st → cached r filePath content (handle i st).1.1.
Proof.
  intros Hno.
  destruct i; try (by apply cached_quiet_handlers); simpl.
  - apply cached_on_connection.
  - by apply cached_app.
  - apply cached_on_exec_done.
Qed.

Lemma cached_run inputs st :
  Forall (λ i, ¬ posts_path filePath i) inputs →
  cached r filePath content st → cached r filePath content (run st inputs).1.1.
Proof.
  revert st. unfold run.
  induction inputs as [|i inputs IH]; intros st Hno H; simpl; [done|].
  apply Forall_cons in Hno as [Hi Hno].
  cbv [mbind M_bind].
  pose proof (cached_handle i st Hi H) as H1.
  destruct (handle i st) as [[st1 l1] [e|[]]]; [done|].
  pose proof (IH st1 Hno H1) as H2.
  by destruct (for_each handle inputs st1) as [[st2 l2] res].
Qed.

Lemma cached_read previewId st :
  filePath ≠ "" → containers st !! previewId = Some r →
  cached r filePath content st →
  files_read previewId (Some filePath) st
  = (st, [Respond 200 (JsonContent content)], inr ()).
Proof.
  intros Hne E (c & Hr & Hf).
  rewrite (files_read_eq _ _ _ r c) by done.
  unfold read_outcome. by rewrite Hf.
Qed.

End cache.

Lemma read_fills_cache st st1 previewId filePath content log :
  files_read previewId (Some filePath) st = (st1, log, inr ()) →
  (200, JsonContent content) ∈ responses log →
  filePath ≠ ""
  ∧ ∃ r, containers st1 !! previewId = Some r ∧ cached r filePath content st1.
Proof.
  intros Hread Hok.
  destruct (decide (filePath = "")) as [->|Hne].
  { injection Hread as <- <-. by apply list_elem_of_singleton in Hok. }
  split; [done|].
  destruct (containers st !! previewId) as [r|] eqn:E.
  2:{ rewrite files_read_unseen in Hread by done. injection Hread as <- <-.
      by apply list_elem_of_singleton in Hok. }
  destruct (heap st !! r) as [c|] eqn:Hr.
  2:{ rewrite (files_read_dangling _ _ _ r) in Hread by done.
      injection Hread as <- <-. by apply list_elem_of_singleton in Hok. }
  rewrite (files_read_eq _ _ _ r c) in Hread by done.
  unfold read_outcome in Hread. exists r.
  destruct (files c !! filePath) as [held|] eqn:Hf.
  - injection Hread as <- <-. apply list_elem_of_singleton in Hok.
    injection Hok as <-. split; [done|]. by exists c.
  - destruct (Fs.existsSync _ _).
    2:{ injection Hread as <- <-. unfold responses in Hok. simpl in Hok.
        by apply list_elem_of_singleton in Hok. }
    destruct (Fs.readFileSync _ _) as [e|fromdisk].
    + injection Hread as <- <-. unfold responses in Hok. simpl in Hok.
      by apply list_elem_of_singleton in Hok.
    + injection Hread as <- <-. unfold responses in Hok. simpl in Hok.
      apply list_elem_of_singleton in Hok. injection Hok as <-.
      split; [done|].
      exists (with_files <[filePath:=content]> c). simpl.
      rewrite list_lookup_alter_eq, Hr. simpl.
      by rewrite lookup_insert_eq.
Qed.

(** X6: once a read has answered with the content of a path, the cache of
    the session's container holds that content for the path, and nothing
    but a POST request that names the path in its body changes it.  So
    after any callbacks among which there is no such request, and whatever
    the files on disk have become, a read of that path in that session
    answers with the same content straight from the cache, without looking
    at the file system, as long as the registry still holds that container
    for the session; and it answers 404 when the registry holds none. *)
Theorem read_is_served_from_cache (st st1 : server) (previewId filePath : string)
    (content : string) (log : list effect) (mid : list input) :
  files_read previewId (Some filePath) st = (st1, log, inr ()) →
  (200, JsonContent content) ∈ responses log →
  Forall (λ i, ¬ posts_path filePath i) mid →
  ∀ d, let st2 := set_disk d (run st1 mid).1.1 in
    (containers st2 !! previewId = containers st1 !! previewId →
     files_read previewId (Some filePath) st2
     = (st2, [Respond 200 (JsonContent content)], inr ()))
    ∧ (containers st2 !! previewId = None →
       files_read previewId (Some filePath) st2
       = (st2, [Respond 404 (JsonError "Container not found")], inr ())).
Proof.
  intros Hread Hok Hmid d st2.
  destruct (read_fills_cache _ _ _ _ _ _ Hread Hok) as (Hne & r & E & Hc).
  split.
  - intros Hsame. apply (cached_read r); [done|by rewrite Hsame|].
    subst st2. by apply cached_disk, cached_run.
  - intros Hgone. by apply files_read_unseen.
Qed.

Lemma read_is_served_from_cache_witness :
  let st := (run (initial ∅) [Http (write_request "s1" "a.txt" "old") "u"]).1.1 in
  let st1 := (files_read "s1" (Some "a.txt") st).1.1 in
  let mid := [Http (write_request "s1" "b.txt" "other") "u";
              Connection (Some "s1");
              Http (write_request "s2" "c.txt" "new") "u";
              Http (read_request "s1" "b.txt") "u";
              Http (execute_request "s1" "ls" [] "/") "p1";
              Advance 1000; Close 0; Closing 1] in
  let st2 := set_disk ∅ (run st1 mid).1.1 in
  files_read "s1" (Some "a.txt") st2
  = (st2, [Respond 200 (JsonContent "old")], inr ()).
Proof.
  intros st st1 mid st2.
  apply (read_is_served_from_cache st st1 "s1" "a.txt" "old"
           (files_read "s1" (Some "a.txt") st).1.2 mid).
  - vm_compute. reflexivity.
  - apply list_elem_of_In. vm_compute. by left.
  - apply (bool_decide_unpack _). vm_compute. exact I.
  - vm_compute. reflexivity.
Defined.

(** ** What a write tells the clients *)

Lemma sends_app l1 l2 : sends (l1 ++ l2) = sends l1 ++ sends l2.
Proof. apply omap_app. Qed.

Lemma sends_copies (l : list nat) data :
  sends ((λ ws, Send ws data) <$> l) = (λ ws, (ws, data)) <$> l.
Proof. induction l as [|ws l IH]; [done|]. unfold sends in *. simpl. by f_equal. Qed.

Lemma broadcasts_copies (l : list nat) data :
  broadcasts ((λ ws, Send ws data) <$> l) = [].
Proof. by induction l. Qed.

Lemma responses_copies (l : list nat) data :
  responses ((λ ws, Send ws data) <$> l) = [].
Proof. by induction l. Qed.

Lemma quiet_sends l : Forall quiet l → sends l = [] ∧ broadcasts l = [].
Proof.
  induction 1 as [|e l He _ [IH1 IH2]]; [done|].
  destruct e; try done; by destruct He.
Qed.

Lemma recipients_get_or_create previewId st st0 l0 r p :
  get_or_create previewId st = (st0, l0, inr r) →
  recipients st0 p = recipients st p.
Proof.
  destruct (containers st !! previewId) as [r0|] eqn:E.
  - rewrite (get_or_create_found _ _ r0) by done. by intros [= <- <- <-].
  - destruct (Fs.mkdirSync (disk st) (Path.join "/tmp" previewId)) as [e|d] eqn:Hd.
    + by rewrite (get_or_create_fails _ _ e).
    + rewrite (get_or_create_new _ _ d) by done. intros [= <- <- <-].
      unfold recipients. simpl.
      destruct (decide (p = previewId)) as [->|Hne].
      * rewrite lookup_insert_eq, E, lookup_app_r, Nat.sub_diag by done. done.
      * rewrite lookup_insert_ne by done.
        destruct (containers st !! p) as [r|]; [|done].
        destruct (heap st !! r) as [c|] eqn:Hr.
        -- by rewrite (lookup_app_l_Some _ _ _ _ Hr).
        -- destruct ((heap st ++ _) !! r) as [c'|] eqn:Hr'; [|done].
           apply lookup_app_Some in Hr' as [Hr'|[_ Hr']]; [congruence|].
           destruct (r - length (heap st)); [|done].
           by injection Hr' as <-.
Qed.

Lemma recipients_cache st r f p :
  recipients (set_heap (alter (with_files f) r) st) p = recipients st p.
Proof.
  unfold recipients. simpl.
  destruct (containers st !! p) as [r'|]; [|done].
  destruct (decide (r' = r)) as [->|Hne].
  - rewrite list_lookup_alter_eq. by destruct (heap st !! r).
  - by rewrite list_lookup_alter_ne.
Qed.

(** X7: a write that is answered [{ success: true }] broadcasts one
    [file-change] event, for its own session and path, and a copy goes to
    each client of that session that was open when the request came in, in
    the order they joined; a write that is answered otherwise broadcasts
    and sends nothing. *)
Theorem write_notifies_the_session (st : server) (previewId : string)
    (b : json_body) :
  let log := (files_write previewId b st).1.2 in
  (∃ filePath,
     body_path b = Some filePath
     ∧ responses log = [(200, JsonSuccess)]
     ∧ broadcasts log = [(previewId, FileChange previewId filePath)]
     ∧ sends log = notified st previewId (FileChange previewId filePath))
  ∨ (((200, JsonSuccess) ∉ responses log) ∧ broadcasts log = [] ∧ sends log = []).
Proof.
  intros log. subst log.
  destruct (body_path b) as [filePath|] eqn:Hp.
  2:{ right. rewrite files_write_rejects by auto. split; [|done].
      by intros ?%list_elem_of_singleton. }
  destruct (body_content b) as [content|] eqn:Hc.
  2:{ right. rewrite files_write_rejects by auto. split; [|done].
      by intros ?%list_elem_of_singleton. }
  destruct (decide (filePath = "")) as [->|Hne].
  { right. rewrite files_write_rejects by auto. split; [|done].
    by intros ?%list_elem_of_singleton. }
  destruct (get_or_create previewId st) as [[st0 l0] [e|r]] eqn:Hg.
  { right. rewrite (files_write_throws _ _ _ _ _ _ _ _ Hp Hc Hne Hg).
    destruct (containers st !! previewId) as [r0|] eqn:E.
    { by rewrite (get_or_create_found _ _ r0) in Hg. }
    destruct (Fs.mkdirSync (disk st) (Path.join "/tmp" previewId)) as [e'|d] eqn:Hd.
    - rewrite (get_or_create_fails _ _ e') in Hg by done. injection Hg as <- <- <-.
      split; [|done]. simpl. by intros ?%elem_of_nil.
    - by rewrite (get_or_create_new _ _ d) in Hg. }
  destruct (get_or_create_inv _ _ _ _ _ Hg) as (E & Hq & Hl0 & _).
  destruct (quiet_sends _ Hq) as [Hs0 Hb0].
  destruct (heap st0 !! r) as [c|] eqn:Hr.
  2:{ right. rewrite (files_write_dangling _ _ _ _ _ _ _ _ Hp Hc Hne Hg Hr).
      simpl. rewrite responses_app, broadcasts_app, sends_app, Hl0, Hb0, Hs0.
      split; [|done]. by intros ?%list_elem_of_singleton. }
  rewrite (files_write_eq _ _ _ _ _ _ _ _ _ Hp Hc Hne Hg Hr).
  unfold write_outcome.
  destruct (Fs.mkdirSync _ (Path.dirname _)) as [e|d1].
  { right. simpl. rewrite responses_app, broadcasts_app, sends_app, Hl0, Hb0, Hs0.
    split; [|done]. by intros ?%list_elem_of_singleton. }
  destruct (Fs.writeFileSync _ _ _) as [e|d2].
  { right. simpl. rewrite responses_app, broadcasts_app, sends_app, Hl0, Hb0, Hs0.
    split; [|done]. by intros ?%list_elem_of_singleton. }
  left. exists filePath. split; [done|]. simpl.
  rewrite responses_app, broadcasts_app, sends_app, Hl0, Hb0, Hs0. simpl.
  rewrite recipients_cache.
  assert (recipients (set_disk d2 st0) previewId = recipients st previewId) as ->.
  { by rewrite <- (recipients_get_or_create _ _ _ _ _ previewId Hg). }
  unfold responses, broadcasts, sends. simpl.
  rewrite !omap_app. simpl.
  fold (responses ((λ ws, Send ws (FileChange previewId filePath)) <$> recipients st previewId)).
  fold (broadcasts ((λ ws, Send ws (FileChange previewId filePath)) <$> recipients st previewId)).
  fold (sends ((λ ws, Send ws (FileChange previewId filePath)) <$> recipients st previewId)).
  rewrite responses_copies, broadcasts_copies, sends_copies.
  split; [done|split; [done|]]. apply app_nil_r.
Qed.

(** ** What a socket message does *)

(** X8: a message on a socket never changes the state of the server and
    never throws.  A [file-change] message is answered with a
    [refresh-preview] broadcast and a [preview-ready] message with a
    [preview-ready] broadcast that carries the URL [/preview/<id>] and the
    time of the server, both to the session the socket was opened for, the
    sender included when it is open; every other message is dropped without
    any effect, among them the [process-input] messages of the facade, and
    so is every message on a socket that was closed for want of an
    identifier. *)
Theorem messages_only_relay (st : server) (ws : nat) (p : payload) :
  (on_message ws p st).1.1 = st
  ∧ (on_message ws p st).2 = inr ()
  ∧ (∀ s previewId r,
       sockets st !! ws = Some s → listeners s = Some (previewId, r) →
       (on_message ws (Parsed (Some "file-change")) st).1.2
       = broadcast_log st previewId (RefreshPreview previewId)
       ∧ (on_message ws (Parsed (Some "preview-ready")) st).1.2
         = broadcast_log st previewId
             (PreviewReady previewId ("/preview/" +:+ previewId) (now st))
       ∧ (ready s = OPEN → containers st !! previewId = Some r →
          ∀ c, heap st !! r = Some c → ws ∈ clients c →
          ws ∈ recipients st previewId))
  ∧ (p ≠ Parsed (Some "file-change") → p ≠ Parsed (Some "preview-ready") →
     (on_message ws p st).1.2 = [])
  ∧ (on_message ws process_input st).1.2 = []
  ∧ (∀ s, sockets st !! ws = Some s → listeners s = None →
     (on_message ws p st).1.2 = []).
Proof.
  assert (∀ previewId data,
            broadcastToContainer previewId data st
            = (st, broadcast_log st previewId data, inr ())) as Hb.
  { intros. apply broadcastToContainer_eq. }
  assert (∀ q, (on_message ws q st).1.1 = st ∧ (on_message ws q st).2 = inr ())
    as Hsame.
  { intros q. unfold on_message. cbv [mbind M_bind gets].
    destruct (sockets st !! ws) as [[state [[previewId r]|]]|]; try done.
    destruct q as [|[type|]]; try done.
    repeat case_bool_decide; try done; simpl; by rewrite Hb. }
  split; [apply Hsame|]. split; [apply Hsame|].
  split; [|split; [|split]].
  - intros s previewId r Hs Hl.
    assert (∀ type data,
              type = "file-change" ∨ type = "preview-ready" →
              data = (if bool_decide (type = "file-change")
                      then RefreshPreview previewId
                      else PreviewReady previewId ("/preview/" +:+ previewId)
                             (now st)) →
              (on_message ws (Parsed (Some type)) st).1.2
              = broadcast_log st previewId data) as Hlog.
    { intros type data Htype ->. unfold on_message. cbv [mbind M_bind gets].
      rewrite Hs. destruct s as [state l]. simpl in Hl. subst l.
      destruct Htype as [-> | ->]; simpl; by rewrite Hb. }
    split; [by apply Hlog; [left|]|]. split; [by apply Hlog; [right|]|].
    intros Hopen E c Hr Hin. unfold recipients. rewrite E, Hr.
    apply list_elem_of_filter. split; [|done].
    unfold is_open. rewrite Hs. simpl. rewrite Hopen. by case_bool_decide.
  - intros H1 H2. unfold on_message. cbv [mbind M_bind gets].
    destruct (sockets st !! ws) as [[state [[previewId r]|]]|]; try done.
    destruct p as [|[type|]]; try done.
    repeat case_bool_decide; subst; done.
  - unfold on_message, process_input. cbv [mbind M_bind gets].
    by destruct (sockets st !! ws) as [[state [[previewId r]|]]|].
  - intros s Hs Hl. unfold on_message. cbv [mbind M_bind gets]. rewrite Hs.
    destruct s as [state l]. simpl in Hl. by subst l.
Qed.

(** ** Children keep what their callbacks closed over *)

Lemma same_child_refl c : same_child c c.
Proof. by repeat split. Qed.

Lemma children_persist_same st st' :
  children st' = children st → children_persist st st'.
Proof. intros E k c Hk. exists c. rewrite E. split; [done|apply same_child_refl]. Qed.

Lemma children_persist_trans st1 st2 st3 :
  children_persist st1 st2 → children_persist st2 st3 → children_persist st1 st3.
Proof.
  intros H1 H2 k c Hk.
  destruct (H1 k c Hk) as (c2 & Hk2 & E1 & E2 & E3 & E4 & E5 & E6).
  destruct (H2 k c2 Hk2) as (c3 & Hk3 & F1 & F2 & F3 & F4 & F5 & F6).
  exists c3. split; [done|]. repeat split; try congruence. auto.
Qed.

Lemma children_persist_handle i : respects children_persist any_effect (handle i).
Proof.
  apply respects_handle; unfold any_effect; try done;
    try (by intros; apply children_persist_same);
    try (by apply children_persist_trans).
  - intros st c k c' Hk. exists c'. simpl.
    split; [by apply lookup_app_l_Some|apply same_child_refl].
  - intros previewId _.
    apply respects_on_connection; unfold any_effect; try done;
      try (by intros; apply children_persist_same);
      try (by apply children_persist_trans).
  - intros k error stdout stderr _.
    apply respects_on_exec_done; unfold any_effect; try done;
      try (by intros; apply children_persist_same);
      try (by apply children_persist_trans).
    intros st k' c Hk. simpl.
    destruct (decide (k' = k)) as [->|Hne].
    + exists (completed c). rewrite list_lookup_alter_eq, Hk.
      split; [done|]. by destruct c.
    + exists c. rewrite list_lookup_alter_ne by done.
      split; [done|apply same_child_refl].
Qed.

Lemma children_persist_run inputs :
  respects children_persist any_effect (for_each handle inputs).
Proof.
  apply respects_for_each.
  - intros st. by apply children_persist_same.
  - apply children_persist_trans.
  - done.
  - intros i _. apply children_persist_handle.
Qed.

(** X9: once a command request has been answered with a process
    identifier, every chunk its child writes, on either stream and after
    whatever else the server has handled in between (the completion of the
    child and the eviction of its session included), is broadcast as one
    [process-output] event that carries that identifier, the identifier of
    the session the request named, the chunk and the stream; the copies go
    to the open clients of whatever container the registry holds for that
    identifier at that moment, and the state does not change. *)
Theorem output_carries_the_process_id (st : server) (previewId uuid : string)
    (b : json_body) (mid : list input) (from : stream) (chunk : string) :
  (200, JsonProcessId uuid) ∈ responses (execute previewId b uuid st).1.2 →
  let st1 := (execute previewId b uuid st).1.1 in
  let st2 := (run st1 mid).1.1 in
  step st2 (ChildData (length (children st)) from chunk)
  = (st2, broadcast_log st2 previewId (ProcessOutput previewId uuid chunk from),
     inr ()).
Proof.
  intros Hok st1 st2.
  destruct (body_command b) as [command|] eqn:Hc.
  2:{ unfold execute in Hok. rewrite Hc in Hok.
      by apply list_elem_of_singleton in Hok. }
  destruct (decide (command = "")) as [->|Hne].
  { unfold execute in Hok. rewrite Hc in Hok.
    by apply list_elem_of_singleton in Hok. }
  destruct (execute previewId b uuid st) as [[st1' log1] res] eqn:Hx.
  simpl in Hok. subst st1. simpl in st2.
  assert (res = inr ()) as ->.
  { pose proof (answers_execute previewId b uuid st) as Ha. rewrite Hx in Ha.
    simpl in Ha. destruct res as [e|[]]; [|done]. rewrite Ha in Hok.
    by apply elem_of_nil in Hok. }
  destruct (execute_accepted _ _ _ _ _ _ _ Hc Hne Hx Hok)
    as (r & c & line & cwd & Hk & _).
  destruct (proj1 (children_persist_run mid st1') _ _ Hk)
    as (c' & Hk' & E1 & E2 & _).
  fold (run st1' mid) in Hk'. fold st2 in Hk'.
  unfold step. simpl. unfold on_child_data. cbv [mbind M_bind gets].
  rewrite Hk'. simpl in E1, E2. rewrite E1, E2.
  subst st2. by rewrite broadcastToContainer_eq.
Qed.

Lemma output_carries_the_process_id_witness :
  let st := (run (initial ∅) [Connection (Some "s1")]).1.1 in
  let b := JsonBody None None (Some "ls") None None None in
  let mid := [ExecDone 0 None "" ""; Close 0; Advance 300000; Connection (Some "s1")] in
  let st2 := (run (execute "s1" b "p1" st).1.1 mid).1.1 in
  step st2 (ChildData 0 Stderr "late")
  = (st2, broadcast_log st2 "s1" (ProcessOutput "s1" "p1" "late" Stderr), inr ()).
Proof.
  intros st b mid st2.
  apply (output_carries_the_process_id st "s1" "p1" b mid Stderr "late").
  apply list_elem_of_In. vm_compute. by left.
Defined.

(** ** Where commands run and what the preview serves *)

Lemma exec_dirs_app l1 l2 : exec_dirs (l1 ++ l2) = exec_dirs l1 ++ exec_dirs l2.
Proof. apply omap_app. Qed.

Lemma get_or_create_log previewId st :
  (get_or_create previewId st).1.2 = []
  ∨ (get_or_create previewId st).1.2
    = [FsCall (MkdirSync (Path.join "/tmp" previewId))].
Proof.
  destruct (containers st !! previewId) as [r|] eqn:E.
  - rewrite (get_or_create_found _ _ r) by done. by left.
  - destruct (Fs.mkdirSync (disk st) (Path.join "/tmp" previewId)) as [e|d] eqn:Hd.
    + rewrite (get_or_create_fails _ _ e) by done. by right.
    + rewrite (get_or_create_new _ _ d) by done. by right.
Qed.

Lemma get_or_create_exec_dirs previewId st :
  exec_dirs (get_or_create previewId st).1.2 = [].
Proof. by destruct (get_or_create_log previewId st) as [-> | ->]. Qed.

Lemma execute_dirs st previewId b uuid :
  wf st → ".." ∉ Path.split_slash (default "/" (body_cwd b)) →
  Forall (confined (Path.join "/tmp" previewId))
    (exec_dirs (execute previewId b uuid st).1.2)
  ∧ Forall (confined (Path.join "/tmp" previewId))
      (mkdir_targets (execute previewId b uuid st).1.2).
Proof.
  intros Hwf Hdd.
  destruct (body_command b) as [command|] eqn:Hc;
    [|unfold execute; rewrite Hc; by split; constructor].
  destruct (decide (command = "")) as [->|Hne];
    [unfold execute; rewrite Hc; by split; constructor|].
  pose proof (get_or_create_targets previewId st) as [_ Hm0].
  pose proof (get_or_create_exec_dirs previewId st) as Hx0.
  pose proof (wf_get_or_create previewId st Hwf) as Hwf0.
  destruct (get_or_create previewId st) as [[st0 l0] [e|r]] eqn:Hg.
  { assert (execute previewId b uuid st = (st0, l0, inl e)) as ->.
    { unfold execute. rewrite Hc. destruct command; [done|].
      cbv [mbind M_bind]. by rewrite Hg. }
    simpl in *. rewrite Hx0. by split; [constructor|]. }
  destruct (get_or_create_inv _ _ _ _ _ Hg) as (E & Hq & _ & _).
  simpl in Hm0, Hwf0, Hx0.
  destruct (Hwf0 _ _ E) as (c & Hr & _ & Hdir & _).
  rewrite (execute_eq _ _ _ _ _ _ _ _ _ Hc Hne Hg Hr).
  unfold execute_outcome. rewrite Hdir.
  pose proof (confined_join _ _ (root_absolute previewId) Hdd) as Hin.
  destruct (Fs.mkdirSync _ _) as [e|d]; simpl;
    rewrite exec_dirs_app, mkdir_targets_app, Hx0;
    (split; [|apply Forall_app; split; [done|]]); by repeat constructor.
Qed.

Lemma execute_default_dir st previewId b uuid :
  wf st → body_cwd b = None →
  Forall (λ p, Path.resolve p = Path.resolve (Path.join "/tmp" previewId))
    (exec_dirs (execute previewId b uuid st).1.2).
Proof.
  intros Hwf Hnone.
  destruct (body_command b) as [command|] eqn:Hc;
    [|unfold execute; rewrite Hc; by constructor].
  destruct (decide (command = "")) as [->|Hne];
    [unfold execute; rewrite Hc; by constructor|].
  pose proof (get_or_create_exec_dirs previewId st) as Hx0.
  pose proof (wf_get_or_create previewId st Hwf) as Hwf0.
  destruct (get_or_create previewId st) as [[st0 l0] [e|r]] eqn:Hg.
  { assert (execute previewId b uuid st = (st0, l0, inl e)) as ->.
    { unfold execute. rewrite Hc. destruct command; [done|].
      cbv [mbind M_bind]. by rewrite Hg. }
    simpl in *. rewrite Hx0. constructor. }
  destruct (get_or_create_inv _ _ _ _ _ Hg) as (E & Hq & _ & _).
  simpl in Hwf0, Hx0.
  destruct (Hwf0 _ _ E) as (c & Hr & _ & Hdir & _).
  rewrite (execute_eq _ _ _ _ _ _ _ _ _ Hc Hne Hg Hr).
  unfold execute_outcome. rewrite Hdir, Hnone. simpl default.
  destruct (Fs.mkdirSync _ _) as [e|d]; simpl;
    rewrite exec_dirs_app, Hx0; [constructor|].
  constructor; [|constructor].
  rewrite resolve_join; [|apply root_absolute|].
  - apply app_nil_r.
  - vm_compute. intros H. repeat (apply elem_of_cons in H as [H|H]; [done|]).
    by apply elem_of_nil in H.
Qed.

(** X10: in every state the server reaches, a command whose working
    directory has no [".."] segment (the default ["/"] included, which names
    the directory of the session itself) is started in the tree below
    [/tmp/<previewId>], and the directories the handler makes lie there too;
    a file the two preview routes hand to [sendFile], for a request path
    without [".."] segments, lies in that tree as well. *)
Theorem commands_and_previews_stay_in_root (st : server)
    (previewId cwd rest uuid : string) (b : json_body) :
  reachable st →
  default "/" (body_cwd b) = cwd →
  ".." ∉ Path.split_slash cwd →
  ".." ∉ Path.split_slash rest →
  let root := Path.join "/tmp" previewId in
  Forall (confined root) (exec_dirs (execute previewId b uuid st).1.2)
  ∧ Forall (confined root) (mkdir_targets (execute previewId b uuid st).1.2)
  ∧ (body_cwd b = None →
     Forall (λ p, Path.resolve p = Path.resolve root)
       (exec_dirs (execute previewId b uuid st).1.2))
  ∧ Forall (confined root) (sent_files (preview_static previewId rest st).1.2)
  ∧ Forall (confined root) (sent_files (preview_index previewId st).1.2).
Proof.
  intros Hwf%reachable_wf <- Hcwd Hrest root.
  destruct (execute_dirs st previewId b uuid Hwf Hcwd) as [Hx Hm].
  split; [done|]. split; [done|]. split; [|split].
  - intros Hnone. by apply execute_default_dir.
  - unfold preview_static. cbv [mbind M_bind gets deref existsSync isFile].
    destruct (containers st !! previewId) as [r|] eqn:E; [|by constructor].
    destruct (Hwf _ _ E) as (c & Hr & _ & Hdir & _). rewrite Hr. simpl.
    destruct (Fs.existsSync _ _), (Fs.isFile _ _); simpl; try by constructor.
    constructor; [|done]. rewrite Hdir.
    by apply confined_join; [apply root_absolute|].
  - unfold preview_index. cbv [mbind M_bind gets deref existsSync].
    destruct (containers st !! previewId) as [r|] eqn:E; [|by constructor].
    destruct (Hwf _ _ E) as (c & Hr & _ & Hdir & _). rewrite Hr. simpl.
    destruct (Fs.existsSync _ _); simpl; try by constructor.
    constructor; [|done]. rewrite Hdir.
    apply confined_join; [apply root_absolute|]. vm_compute.
    intros H. repeat (apply elem_of_cons in H as [H|H]; [done|]).
    by apply elem_of_nil in H.
Qed.

Lemma commands_and_previews_stay_in_root_witness :
  let st := (run (initial ∅)
               [Http (write_request "s1" "css/site.css" "x") "u"]).1.1 in
  let b := JsonBody None None (Some "ls") None (Some "app//src/.") None in
  Forall (confined "/tmp/s1") (exec_dirs (execute "s1" b "p1" st).1.2)
  ∧ Forall (confined "/tmp/s1") (sent_files (preview_static "s1" "css/site.css" st).1.2).
Proof.
  intros st b.
  destruct (commands_and_previews_stay_in_root st "s1" "app//src/." "css/site.css"
              "p1" b) as (Hx & _ & _ & Hs & _).
  - exists ∅, [Http (write_request "s1" "css/site.css" "x") "u"],
      (run (initial ∅) [Http (write_request "s1" "css/site.css" "x") "u"]).1.2.
    vm_compute. reflexivity.
  - reflexivity.
  - vm_compute. intros Hin.
    repeat (apply elem_of_cons in Hin as [Hin|Hin]; [done|]).
    by apply elem_of_nil in Hin.
  - vm_compute. intros Hin.
    repeat (apply elem_of_cons in Hin as [Hin|Hin]; [done|]).
    by apply elem_of_nil in Hin.
  - split; [exact Hx|exact Hs].
Defined.

(** ** A written file can be previewed *)

Lemma writeFileSync_file d p content d' :
  Fs.writeFileSync d p content = inr d' →
  Fs.existsSync d' p = true ∧ Fs.isFile d' p = true
  ∧ Fs.readFileSync d' p = inr content.
Proof.
  unfold Fs.writeFileSync, Fs.existsSync, Fs.isFile, Fs.readFileSync.
  assert (∀ k, Fs.stat d k ≠ Some Fs.Dir →
            Fs.stat (<[k := Fs.File content]> d) k = Some (Fs.File content)) as Hk.
  { intros [|s k] Hs; [done|]. simpl. by rewrite lookup_insert_eq. }
  destruct (Fs.stat d (Path.resolve p)) as [[old|]|] eqn:Hs.
  - destruct (Path.trailingSeparator p); [done|]. intros [= <-].
    rewrite Hk by (by rewrite Hs). done.
  - done.
  - destruct (Fs.stat d (removelast (Path.resolve p))) as [[old|]|]; try done.
    destruct (Path.trailingSeparator p); [done|]. intros [= <-].
    rewrite Hk by (by rewrite Hs). done.
Qed.

Lemma route_preview_index previewId q b uuid :
  previewId ≠ "" →
  route (Request GET ["preview"; previewId] q b) uuid = preview_index previewId.
Proof.
  intros Hne. unfold route. cbn [req_url req_method].
  by rewrite bool_decide_eq_true_2.
Qed.

Lemma route_preview_static previewId segs q b uuid :
  previewId ≠ "" → segs ≠ [] →
  route (Request GET ("preview" :: previewId :: segs) q b) uuid
  = preview_static previewId (Path.join_slash segs).
Proof.
  intros Hne Hs. unfold route. cbn [req_url req_method].
  destruct segs as [|s1 [|s2 [|s3 rest]]]; [done|..].
  - rewrite bool_decide_eq_false_2 by (by intros [? _]).
    by rewrite bool_decide_eq_true_2.
  - rewrite bool_decide_eq_false_2 by (by intros [? _]).
    rewrite bool_decide_eq_false_2 by (by intros (_ & ? & _)).
    by rewrite bool_decide_eq_true_2.
  - by rewrite bool_decide_eq_true_2.
Qed.

Lemma plain_segment_kept s : plain_segment s = true → s ≠ "".
Proof. by destruct s. Qed.

Lemma unreserved_no_sep s : all_unreserved s = true → no_sep s = true.
Proof.
  induction s as [|a s IH]; [done|]. simpl.
  intros [Ha Hs]%andb_true_iff. rewrite IH by done.
  unfold Path.is_sep. case_bool_decide as E; [|done].
  subst a. by vm_compute in Ha.
Qed.

Lemma plain_segment_plain s : plain_segment s = true → plain s.
Proof.
  destruct s as [|a s]; [done|]. unfold plain_segment.
  intros [Ha Hs]%andb_true_iff.
  apply negb_true_iff, bool_decide_eq_false in Ha.
  repeat split; [done| | |by apply unreserved_no_sep]; by intros [= -> _].
Qed.

(** Where the file of a preview URL lies: under [/tmp], in the directory
    of the session, by the segments of the URL. *)
Lemma resolve_session_file previewId segs :
  plain_segment previewId = true →
  segs ≠ [] → Forall (λ s, plain_segment s = true) segs →
  Path.resolve (Path.join (Path.join "/tmp" previewId) (Path.join_slash segs))
  = "tmp" :: previewId :: segs.
Proof.
  intros Hid%plain_segment_plain Hne Hsegs.
  assert (Forall plain segs) as Hplain.
  { eapply Forall_impl; [exact Hsegs|]. apply plain_segment_plain. }
  assert (Path.split_slash (Path.join_slash segs) = segs) as Hsplit.
  { apply split_join_slash; [done|].
    eapply Forall_impl; [exact Hplain|]. by intros s (_ & _ & _ & ?). }
  assert (Path.split_slash previewId = [previewId]) as Hone.
  { apply split_slash_plain. by destruct Hid as (_ & _ & _ & ?). }
  rewrite resolve_join;
    [|by apply join_absolute|rewrite Hsplit; by apply plain_not_dotdot].
  assert (Forall plain [previewId]) as Hids by (constructor; [done|constructor]).
  rewrite resolve_join; [|done|rewrite Hone; by apply plain_not_dotdot].
  rewrite Hsplit, Hone, (filter_kept_plain segs) by done.
  by rewrite filter_kept_plain by done.
Qed.

(** X11: in a state the server has reached, take a session identifier and
    a path whose segments are not empty, do not start with a dot and are
    made of letters, digits, ['-'], ['_'] and ['.'] only, so that the URL
    names them as they are and [sendFile] does not take them for dot
    files.  After a write of that path that was answered
    [{ success: true }], a GET of [/preview/<id>/<path>] is routed to the
    static preview handler, which finds the written file at
    [/tmp/<id>/<path>] and hands it to [sendFile]; and when the path is
    [index.html], a GET of [/preview/<id>] hands over that file instead of
    the placeholder page.  The state does not change. *)
Theorem preview_serves_written_file (st : server) (previewId : string)
    (b : json_body) (segs : list string)
    (q : option string) (b' : json_body) (uuid : string) :
  reachable st →
  plain_segment previewId = true →
  segs ≠ [] → Forall (λ s, plain_segment s = true) segs →
  body_path b = Some (Path.join_slash segs) →
  (200, JsonSuccess) ∈ responses (files_write previewId b st).1.2 →
  let st1 := (files_write previewId b st).1.1 in
  let target := Path.join (Path.join "/tmp" previewId) (Path.join_slash segs) in
  (∃ c, session st1 previewId = Some c ∧ dir c = Path.join "/tmp" previewId)
  ∧ Path.resolve target = "tmp" :: previewId :: segs
  ∧ step st1 (Http (Request GET ("preview" :: previewId :: segs) q b') uuid)
    = (st1, [FsCall (ExistsSync target); Respond 200 (SendFile target)], inr ())
  ∧ (segs = ["index.html"] →
     step st1 (Http (Request GET ["preview"; previewId] q b') uuid)
     = (st1, [FsCall (ExistsSync target); Respond 200 (SendFile target)], inr ())).
Proof.
  intros Hreach Hid Hsegs Hplain Hp Hok st1 target. subst st1 target.
  pose proof (resolve_session_file previewId segs Hid Hsegs Hplain) as Hres.
  apply plain_segment_kept in Hid.
  set (filePath := Path.join_slash segs) in *.
  pose proof (wf_get_or_create previewId st (reachable_wf st Hreach)) as Hwf.
  destruct (body_content b) as [content|] eqn:Hc.
  2:{ rewrite files_write_rejects in Hok by auto.
      by apply list_elem_of_singleton in Hok. }
  destruct (decide (filePath = "")) as [Hempty|Hne].
  { rewrite files_write_rejects in Hok by (rewrite Hp, Hempty; auto).
    by apply list_elem_of_singleton in Hok. }
  destruct (get_or_create previewId st) as [[st0 l0] [e|r]] eqn:Hg.
  { rewrite (files_write_throws _ _ _ _ _ _ _ _ Hp Hc Hne Hg) in Hok.
    simpl in Hok. pose proof (get_or_create_silent previewId st) as Hs.
    rewrite Hg in Hs. simpl in Hs. rewrite Hs in Hok.
    by apply elem_of_nil in Hok. }
  destruct (get_or_create_inv _ _ _ _ _ Hg) as (E & _ & Hl0 & _).
  simpl in Hwf.
  destruct (Hwf previewId r E) as (c & Hr & _ & Hdir & _).
  revert Hok. rewrite (files_write_eq _ _ _ _ _ _ _ _ _ Hp Hc Hne Hg Hr).
  unfold write_outcome. rewrite Hdir.
  destruct (Fs.mkdirSync _ (Path.dirname _)) as [e|d1].
  { simpl. rewrite responses_app, Hl0.
    by intros ?%list_elem_of_singleton. }
  destruct (Fs.writeFileSync _ _ _) as [e|d2] eqn:Hw.
  { simpl. rewrite responses_app, Hl0.
    by intros ?%list_elem_of_singleton. }
  intros _. simpl.
  destruct (writeFileSync_file _ _ _ _ Hw) as (Hex & Hfile & _).
  set (st1 := set_heap (alter (with_files <[filePath := content]>) r)
                (set_disk d2 st0)).
  assert (containers st1 !! previewId = Some r) as E1 by done.
  assert (heap st1 !! r = Some (with_files <[filePath := content]> c)) as Hr1.
  { subst st1. simpl. by rewrite list_lookup_alter_eq, Hr. }
  assert (disk st1 = d2) as Hd1 by done.
  clearbody st1.
  split; [|split; [exact Hres|split]].
  - exists (with_files <[filePath := content]> c). split; [|done].
    unfold session. rewrite E1. simpl. by rewrite Hr1.
  - unfold step, handle, app, try_catch.
    rewrite route_preview_static by done. fold filePath.
    unfold preview_static. cbv [mbind M_bind gets deref existsSync isFile].
    rewrite E1, Hr1, Hd1. cbn [dir with_files]. rewrite Hdir.
    by rewrite Hex, Hfile.
  - intros Hindex. unfold step, handle, app, try_catch.
    rewrite route_preview_index by done.
    unfold preview_index. cbv [mbind M_bind gets deref existsSync].
    rewrite E1, Hr1, Hd1. cbn [dir with_files]. rewrite Hdir.
    assert (filePath = "index.html") as Hfp by (subst filePath; by rewrite Hindex).
    rewrite Hfp in Hex. by rewrite Hfp, Hex.
Qed.

Lemma preview_serves_written_file_witness :
  let st := (run (initial ∅) [Connection (Some "s1")]).1.1 in
  let b := req_body (write_request "s1" "css/site.css" "p {}") in
  let st1 := (files_write "s1" b st).1.1 in
  step st1 (Http (Request GET ["preview"; "s1"; "css"; "site.css"] None
                    Facade.empty_body) "u")
  = (st1, [FsCall (ExistsSync "/tmp/s1/css/site.css");
           Respond 200 (SendFile "/tmp/s1/css/site.css")], inr ()).
Proof.
  intros st b st1.
  destruct (preview_serves_written_file st "s1" b ["css"; "site.css"] None
              Facade.empty_body "u") as (_ & _ & Hstatic & _).
  - exists ∅, [Connection (Some "s1")], (run (initial ∅) [Connection (Some "s1")]).1.2.
    vm_compute. reflexivity.
  - reflexivity.
  - done.
  - by repeat constructor.
  - reflexivity.
  - apply list_elem_of_In. vm_compute. by left.
  - exact Hstatic.
Defined.

(** ** The process table of a container *)

Lemma process_table_same st st' :
  children st' = children st →
  processes <$> heap st' = processes <$> heap st →
  process_table st → process_table st'.
Proof.
  intros Hch Hh H r c' processId k Hr Hp. rewrite Hch.
  assert ((processes <$> heap st) !! r = Some (processes c')) as Hr'.
  { by rewrite <- Hh, list_lookup_fmap, Hr. }
  rewrite list_lookup_fmap in Hr'.
  destruct (heap st !! r) as [c|] eqn:Hc; [|done].
  injection Hr' as Hr'. apply (H r c); [done|by rewrite Hr'].
Qed.

Lemma processes_alter (f : container → container) r (h : list container) :
  (∀ c, processes (f c) = processes c) →
  processes <$> alter f r h = processes <$> h.
Proof.
  intros Hf. apply list_eq. intros i. rewrite !list_lookup_fmap.
  destruct (decide (i = r)) as [->|Hne].
  - rewrite list_lookup_alter_eq. destruct (h !! r); [|done]. simpl. by rewrite Hf.
  - by rewrite list_lookup_alter_ne.
Qed.

Lemma process_table_fields st r f :
  (∀ c, processes (f c) = processes c) →
  process_table st → process_table (set_heap (alter f r) st).
Proof.
  intros Hf. apply process_table_same; [done|]. simpl. by apply processes_alter.
Qed.

Lemma process_table_created st previewId d :
  process_table st → process_table (created previewId d st).
Proof.
  intros H r c processId k Hr Hp. simpl in *.
  apply lookup_app_Some in Hr as [Hr|[_ Hr]]; [by apply (H r c)|].
  destruct (r - length (heap st)); [|done]. by injection Hr as <-.
Qed.

Lemma process_table_get_or_create previewId st :
  process_table st → process_table (get_or_create previewId st).1.1.
Proof.
  intros H.
  destruct (containers st !! previewId) as [r|] eqn:E.
  - by rewrite (get_or_create_found _ _ r).
  - destruct (Fs.mkdirSync (disk st) (Path.join "/tmp" previewId)) as [e|d] eqn:Hd.
    + by rewrite (get_or_create_fails _ _ e).
    + rewrite (get_or_create_new _ _ d) by done. by apply process_table_created.
Qed.

Lemma process_table_on_connection previewId st :
  process_table st → process_table (on_connection previewId st).1.1.
Proof.
  intros H.
  assert (∀ f, process_table (set_sockets f st)) as Hnew.
  { intros f. by apply (process_table_same st). }
  destruct previewId as [[|a p]|]; [apply Hnew| |apply Hnew].
  unfold on_connection. cbv [mbind M_bind gets modify update]. simpl.
  pose proof (process_table_get_or_create (String a p) _
                (Hnew (λ s, s ++ [Socket OPEN None]))) as H0.
  destruct (get_or_create (String a p) _) as [[st0 l0] [e|r]]; [done|].
  simpl in *.
  apply (process_table_same
           (set_heap (alter (with_clients (set_add (length (sockets st)))) r) st0));
    [done|done|].
  by apply process_table_fields.
Qed.

Lemma keeps_table_refl st : keeps_table st st.
Proof. by intros H. Qed.

Lemma keeps_table_trans st1 st2 st3 :
  keeps_table st1 st2 → keeps_table st2 st3 → keeps_table st1 st3.
Proof. unfold keeps_table. auto. Qed.

Lemma keeps_table_same st st' :
  children st' = children st → heap st' = heap st → keeps_table st st'.
Proof.
  intros Hc Hh. unfold keeps_table. apply process_table_same; [done|by rewrite Hh].
Qed.

Lemma process_table_quiet_handlers i st :
  match i with
  | Message _ _ | Closing _ | Close _ | ChildData _ _ _ | Advance _ => True
  | _ => False
  end →
  process_table st → process_table (handle i st).1.1.
Proof.
  intros Hi.
  assert (respects keeps_table any_effect (handle i)) as Hr.
  { destruct i; try done; simpl;
      [ apply respects_on_message | apply respects_on_closing
      | apply respects_on_close | apply respects_on_child_data
      | apply respects_advance ];
      unfold any_effect;
      first [ done | apply keeps_table_refl | apply keeps_table_trans
            | by intros; apply keeps_table_same
            | intros ???; unfold keeps_table; by apply process_table_fields ]. }
  apply (Hr st).
Qed.

Lemma process_table_disk st d : process_table st → process_table (set_disk d st).
Proof. by apply process_table_same. Qed.

Lemma process_table_files_write previewId b st :
  process_table st → process_table (files_write previewId b st).1.1.
Proof.
  intros H.
  destruct (body_path b) as [filePath|] eqn:Hp;
    [|by rewrite files_write_rejects by auto].
  destruct (body_content b) as [content|] eqn:Hc;
    [|by rewrite files_write_rejects by auto].
  destruct (decide (filePath = "")) as [->|Hne];
    [by rewrite files_write_rejects by auto|].
  pose proof (process_table_get_or_create previewId st H) as H0.
  destruct (get_or_create previewId st) as [[st0 l0] [e|r]] eqn:Hg.
  { by rewrite (files_write_throws _ _ _ _ _ _ _ _ Hp Hc Hne Hg). }
  simpl in H0.
  destruct (heap st0 !! r) as [c|] eqn:Hr.
  2:{ by rewrite (files_write_dangling _ _ _ _ _ _ _ _ Hp Hc Hne Hg Hr). }
  rewrite (files_write_eq _ _ _ _ _ _ _ _ _ Hp Hc Hne Hg Hr).
  unfold write_outcome.
  destruct (Fs.mkdirSync _ (Path.dirname _)) as [e|d1]; [done|].
  destruct (Fs.writeFileSync _ _ _) as [e|d2]; simpl.
  - by apply process_table_disk.
  - by apply process_table_fields, process_table_disk.
Qed.

Lemma process_table_files_read previewId q st :
  process_table st → process_table (files_read previewId q st).1.1.
Proof.
  intros H.
  destruct (files_read_state st previewId q)
    as [->|(r & c & filePath & content & _ & _ & _ & _ & _ & ->)]; [done|].
  by apply process_table_fields.
Qed.

Lemma process_table_spawn st r c uuid previewId line cwd :
  heap st !! r = Some c →
  process_table st →
  process_table
    (set_heap (alter (with_processes <[uuid := length (children st)]>) r)
       (set_children (λ cs, cs ++ [Child uuid previewId r line cwd false]) st)).
Proof.
  intros Hr H r' c' processId k Hr' Hp. simpl in *.
  destruct (decide (r' = r)) as [->|Hne].
  - rewrite list_lookup_alter_eq, Hr in Hr'. injection Hr' as <-. simpl in Hp.
    destruct (decide (processId = uuid)) as [->|Hne].
    + rewrite lookup_insert_eq in Hp. injection Hp as <-.
      eexists. by rewrite lookup_app_r, Nat.sub_diag.
    + rewrite lookup_insert_ne in Hp by done.
      destruct (H r c processId k Hr Hp) as (ch & Hk & ?).
      exists ch. split; [by apply lookup_app_l_Some|done].
  - rewrite list_lookup_alter_ne in Hr' by done.
    destruct (H r' c' processId k Hr' Hp) as (ch & Hk & ?).
    exists ch. split; [by apply lookup_app_l_Some|done].
Qed.

Lemma process_table_execute previewId b uuid st :
  process_table st → process_table (execute previewId b uuid st).1.1.
Proof.
  intros H.
  destruct (body_command b) as [command|] eqn:Hc;
    [|unfold execute; by rewrite Hc].
  destruct (decide (command = "")) as [->|Hne];
    [unfold execute; by rewrite Hc|].
  pose proof (process_table_get_or_create previewId st H) as H0.
  destruct (get_or_create previewId st) as [[st0 l0] [e|r]] eqn:Hg.
  { unfold execute. rewrite Hc. destruct command; [done|].
    cbv [mbind M_bind]. by rewrite Hg. }
  simpl in H0.
  destruct (heap st0 !! r) as [c|] eqn:Hr.
  2:{ unfold execute. rewrite Hc. destruct command; [done|].
      cbv [mbind M_bind try_catch deref]. by rewrite Hg, Hr. }
  rewrite (execute_eq _ _ _ _ _ _ _ _ _ Hc Hne Hg Hr).
  unfold execute_outcome.
  destruct (Fs.mkdirSync _ _) as [e|d]; [done|]. simpl.
  by apply (process_table_spawn (set_disk d st0) r c), process_table_disk.
Qed.

Lemma process_table_route req uuid st :
  process_table st → process_table (route req uuid st).1.1.
Proof.
  intros H. unfold route.
  repeat first
    [ by apply process_table_files_write | by apply process_table_files_read
    | by apply process_table_execute
    | by rewrite (proj1 (preview_index_state _ _))
    | by rewrite (proj1 (preview_static_state _ _ _))
    | done
    | match goal with
      | |- process_table (match ?x with _ => _ end _).1.1 => destruct x
      | |- process_table ((if ?x then _ else _) _).1.1 => destruct x
      end ].
Qed.

Lemma process_table_app req uuid st :
  process_table st → process_table (app req uuid st).1.1.
Proof.
  intros H%(process_table_route req uuid). unfold app, try_catch.
  by destruct (route req uuid st) as [[st1 l1] [e|[]]].
Qed.

Lemma process_table_on_exec_done k error stdout stderr st :
  process_table st → process_table (on_exec_done k error stdout stderr st).1.1.
Proof.
  intros H.
  destruct (children st !! k) as [ch|] eqn:Hk.
  2:{ unfold on_exec_done. cbv [mbind M_bind gets]. by rewrite Hk. }
  destruct (child_completed ch) eqn:Hc.
  { by rewrite (on_exec_done_again _ _ _ _ _ ch). }
  rewrite (on_exec_done_eq _ _ _ _ _ ch) by done. simpl.
  intros r c' processId k' Hr Hp. simpl in *.
  assert (∃ c, heap st !! r = Some c ∧ processes c !! processId = Some k'
               ∧ ¬ (r = child_container ch ∧ processId = child_processId ch))
    as (c & Hr0 & Hp0 & Hne).
  { destruct (decide (r = child_container ch)) as [->|Hne].
    - rewrite list_lookup_alter_eq in Hr.
      destruct (heap st !! child_container ch) as [c|]; [|done].
      injection Hr as <-. simpl in Hp.
      apply lookup_delete_Some in Hp as [Hne Hp].
      exists c. repeat split; try done. by intros [_ ->].
    - rewrite list_lookup_alter_ne in Hr by done.
      exists c'. repeat split; try done. by intros [-> _]. }
  destruct (H r c processId k' Hr0 Hp0) as (ch' & Hk' & E1 & E2 & E3).
  destruct (decide (k' = k)) as [->|Hnk].
  - rewrite Hk in Hk'. injection Hk' as <-. destruct Hne. by split.
  - exists ch'. by rewrite list_lookup_alter_ne.
Qed.

Lemma process_table_handle i st :
  process_table st → process_table (handle i st).1.1.
Proof.
  destruct i; try (by apply process_table_quiet_handlers); simpl.
  - apply process_table_on_connection.
  - apply process_table_app.
  - apply process_table_on_exec_done.
Qed.

Lemma process_table_run inputs st :
  process_table st → process_table (run st inputs).1.1.
Proof.
  revert st. unfold run.
  induction inputs as [|i inputs IH]; intros st H; simpl; [done|].
  cbv [mbind M_bind].
  pose proof (process_table_handle i st H) as H1.
  destruct (handle i st) as [[st1 l1] [e|[]]]; [done|].
  pose proof (IH st1 H1) as H2.
  by destruct (for_each handle inputs st1) as [[st2 l2] res].
Qed.

(** X12: in every state the server reaches, each entry of the process
    table of a container names a child that was started by a command
    request for that container, under the identifier the entry is filed
    under, and whose completion callback has not run yet: the callback of
    a child removes its entry, and nothing else files or removes one. *)
Theorem process_table_holds_running_children (st : server) (r k : nat)
    (c : container) (processId : string) :
  reachable st →
  heap st !! r = Some c → processes c !! processId = Some k →
  ∃ ch, children st !! k = Some ch
        ∧ child_processId ch = processId
        ∧ child_container ch = r
        ∧ child_completed ch = false.
Proof.
  intros (d & inputs & log & Hrun) Hr Hp.
  assert (process_table st) as H.
  { pose proof (process_table_run inputs (initial d)) as H.
    rewrite Hrun in H. apply H. by intros r' c' p k' Hr'. }
  by apply (H r c).
Qed.

Lemma process_table_holds_running_children_witness :
  let inputs := [Http (execute_request "s1" "sleep" ["9"] "/") "p1";
                 Http (execute_request "s1" "ls" [] "/") "p2";
                 ExecDone 1 None "" ""] in
  let st := (run (initial ∅) inputs).1.1 in
  ∃ ch, children st !! 0 = Some ch
        ∧ child_processId ch = "p1"
        ∧ child_container ch = 0
        ∧ child_completed ch = false.
Proof.
  intros inputs st.
  apply (process_table_holds_running_children st 0 0
           (Container "s1" "/tmp/s1" [] ∅ {["p1" := 0]}) "p1").
  - exists ∅, inputs, (run (initial ∅) inputs).1.2. vm_compute. reflexivity.
  - vm_compute. reflexivity.
  - vm_compute. reflexivity.
Defined.

(** ** Only a due check forgets a session *)

Lemma registry_kept_same st st' :
  containers st' = containers st → registry_kept st st'.
Proof. intros E p r. by rewrite E. Qed.

Lemma registry_kept_trans st1 st2 st3 :
  registry_kept st1 st2 → registry_kept st2 st3 → registry_kept st1 st3.
Proof. unfold registry_kept. auto. Qed.

Lemma registry_kept_created st previewId d :
  containers st !! previewId = None → registry_kept st (created previewId d st).
Proof.
  intros E p r Hp. simpl. rewrite lookup_insert_ne; [done|]. by intros ->; simplify_eq.
Qed.

Lemma registry_kept_handle i :
  (∀ ms, i ≠ Advance ms) → respects registry_kept any_effect (handle i).
Proof.
  intros Hi.
  destruct i; simpl;
    [ apply respects_on_connection | apply respects_on_message
    | apply respects_on_closing | apply respects_on_close
    | apply respects_app | apply respects_on_child_data
    | apply respects_on_exec_done | by destruct (Hi ms) ];
    unfold any_effect;
    first [ done | apply registry_kept_trans | apply registry_kept_created
          | by intros; apply registry_kept_same ].
Qed.

Lemma expire_all_cases (due : list (N * string)) previewId st r :
  containers st !! previewId = Some r →
  containers (foldl (λ s x, expire x.2 s) st due) !! previewId = Some r
  ∨ (containers (foldl (λ s x, expire x.2 s) st due) !! previewId = None
     ∧ (∃ t, (t, previewId) ∈ due)
     ∧ ∃ c, heap st !! r = Some c ∧ clients c = []).
Proof.
  revert st. induction due as [|[t p] due IH]; intros st E; simpl; [by left|].
  destruct (decide (containers (expire p st) !! previewId = Some r)) as [E'|Hgone].
  - destruct (IH _ E') as [H|(H & [t' Hin] & c & Hc & Hcl)]; [by left|].
    right. split; [done|]. split; [exists t'; by right|].
    exists c. by rewrite expire_heap in Hc.
  - right. revert Hgone. unfold expire, session.
    destruct (containers st !! p) as [r'|] eqn:Ep; simpl; [|done].
    destruct (heap st !! r') as [c|] eqn:Hr'; [|done].
    case_bool_decide as Hlen; [|done]. simpl.
    destruct (decide (p = previewId)) as [->|Hne].
    + intros _. rewrite E in Ep. injection Ep as <-.
      assert (clients c = []) as Hcl by (by destruct (clients c)).
      split; [|split].
      * apply expire_all_gone. simpl. apply lookup_delete_eq.
      * exists t. by left.
      * by exists c.
    + by rewrite lookup_delete_ne.
Qed.

(** X13: an identifier that is in the registry names the same container
    after any callback, or has left the registry; and it leaves only when
    time passes, a clean-up check for that identifier has come due, and the
    container had no client: no request, message, connection, close or
    process event forgets a session or registers another container under
    its identifier. *)
Theorem session_forgotten_only_by_due_check (st : server) (i : input)
    (previewId : string) (r : nat) :
  containers st !! previewId = Some r →
  containers (step st i).1.1 !! previewId = Some r
  ∨ (containers (step st i).1.1 !! previewId = None
     ∧ ∃ ms t c,
         i = Advance ms
         ∧ (t, previewId) ∈ timers st ∧ (t ≤ now st + ms)%N
         ∧ heap st !! r = Some c ∧ clients c = []).
Proof.
  intros E.
  assert ((∃ ms, i = Advance ms) ∨ ∀ ms, i ≠ Advance ms) as [[ms ->]|Hi].
  { destruct i; try (by right). left. by eexists. }
  - unfold step. simpl. rewrite advance_eq. simpl.
    destruct (expire_all_cases
                (filter (λ x, (x.1 ≤ now st + ms)%N) (timers st)) previewId
                (set_timers (filter (λ x, ¬ (x.1 ≤ now st + ms)%N))
                   (set_now (now st + ms)%N st)) r E)
      as [H|(H & [t Hin] & c & Hc & Hcl)]; [by left|].
    right. split; [done|]. exists ms, t, c.
    apply list_elem_of_filter in Hin as [Hdue Hin]. by repeat split.
  - left. by apply (proj1 (registry_kept_handle i Hi st)).
Qed.

Lemma session_forgotten_only_by_due_check_witness :
  let st := (run (initial ∅) [Connection (Some "s1"); Close 0]).1.1 in
  let i := Http (write_request "s1" "a.txt" "x") "u" in
  containers (step st i).1.1 !! "s1" = Some 0
  ∨ (containers (step st i).1.1 !! "s1" = None
     ∧ ∃ ms t c,
         i = Advance ms
         ∧ (t, "s1") ∈ timers st ∧ (t ≤ now st + ms)%N
         ∧ heap st !! 0 = Some c ∧ clients c = []).
Proof.
  intros st i.
  apply (session_forgotten_only_by_due_check st i "s1" 0).
  vm_compute. reflexivity.
Defined.

(** ** The facade's calls *)

Lemma files_write_cases st previewId b :
  (∃ filePath content r c,
     body_path b = Some filePath ∧ body_content b = Some content
     ∧ filePath ≠ ""
     ∧ (files_write previewId b st).2 = inr ()
     ∧ responses (files_write previewId b st).1.2 = [(200, JsonSuccess)]
     ∧ containers (files_write previewId b st).1.1 !! previewId = Some r
     ∧ heap (files_write previewId b st).1.1 !! r = Some c
     ∧ files c !! filePath = Some content
     ∧ Fs.existsSync (disk (files_write previewId b st).1.1)
         (Path.join (dir c) filePath) = true)
  ∨ (∃ status msg,
       responses (files_write previewId b st).1.2 = [(status, JsonError msg)]
       ∧ (status = 400 ∨ status = 500)
       ∧ (files_write previewId b st).2 = inr ())
  ∨ (responses (files_write previewId b st).1.2 = []
     ∧ ∃ e, (files_write previewId b st).2 = inl e).
Proof.
  destruct (body_path b) as [filePath|] eqn:Hp;
    [|right; left; rewrite files_write_rejects by auto; simpl; eauto 10].
  destruct (body_content b) as [content|] eqn:Hc;
    [|right; left; rewrite files_write_rejects by auto; simpl; eauto 10].
  destruct (decide (filePath = "")) as [->|Hne];
    [right; left; rewrite files_write_rejects by auto; simpl; eauto 10|].
  pose proof (get_or_create_silent previewId st) as Hl0.
  destruct (get_or_create previewId st) as [[st0 l0] [e|r]] eqn:Hg; simpl in Hl0.
  { right; right. rewrite (files_write_throws _ _ _ _ _ _ _ _ Hp Hc Hne Hg).
    simpl. eauto. }
  destruct (get_or_create_inv _ _ _ _ _ Hg) as (E & _ & _ & _).
  destruct (heap st0 !! r) as [c|] eqn:Hr.
  2:{ right; left.
      rewrite (files_write_dangling _ _ _ _ _ _ _ _ Hp Hc Hne Hg Hr). simpl.
      rewrite responses_app, Hl0. simpl. eauto 10. }
  rewrite (files_write_eq _ _ _ _ _ _ _ _ _ Hp Hc Hne Hg Hr).
  unfold write_outcome.
  destruct (Fs.mkdirSync _ (Path.dirname _)) as [e1|d1].
  { right; left. simpl. rewrite responses_app, Hl0. simpl. eauto 10. }
  destruct (Fs.writeFileSync _ _ _) as [e2|d2] eqn:Hw.
  { right; left. simpl. rewrite responses_app, Hl0. simpl. eauto 10. }
  destruct (writeFileSync_file _ _ _ _ Hw) as (Hex & _).
  left. exists filePath, content, r, (with_files <[filePath := content]> c).
  simpl. rewrite responses_app, Hl0. simpl.
  rewrite list_lookup_alter_eq, Hr. simpl. rewrite lookup_insert_eq.
  repeat split; try done.
  unfold responses. rewrite omap_app.
  fold (responses ((λ ws, Send ws (FileChange previewId filePath))
                     <$> recipients
                           (set_heap (alter (with_files <[filePath:=content]>) r)
                              (set_disk d2 st0)) previewId)).
  by rewrite responses_copies.
Qed.

Lemma response_responses log :
  FlyContainer.response log = head (responses log).
Proof. induction log as [|[] log IH]; simpl; auto. Qed.

Lemma app_response req uuid st :
  ∃ status b,
    responses (app req uuid st).1.2 = [(status, b)]
    ∧ FlyContainer.response (app req uuid st).1.2 = Some (status, b)
    ∧ ((route req uuid st).2 = inr () →
       app req uuid st = route req uuid st)
    ∧ (∀ e, (route req uuid st).2 = inl e → status = 500).
Proof.
  unfold app, try_catch.
  pose proof (answers_route req uuid st) as H.
  destruct (route req uuid st) as [[st1 l1] [e|[]]]; simpl in *.
  - exists 500, (Text (exn_message e)).
    rewrite response_responses, responses_app, H. by repeat split.
  - destruct H as (status & b & H). exists status, b.
    rewrite response_responses, H. repeat split; try done.
Qed.

Lemma route_write previewId b uuid :
  previewId ≠ "" →
  route (Request POST ["api"; "files"; "write"; previewId] None b) uuid
  = files_write previewId b.
Proof.
  intros Hne. unfold route. cbn [req_url req_method req_body].
  by rewrite bool_decide_eq_true_2.
Qed.

Lemma route_read previewId q b uuid :
  previewId ≠ "" →
  route (Request GET ["api"; "files"; "read"; previewId] q b) uuid
  = files_read previewId q.
Proof.
  intros Hne. unfold route. cbn [req_url req_method req_body req_query_path].
  rewrite bool_decide_eq_false_2 by (by intros (? & _)).
  by rewrite bool_decide_eq_true_2.
Qed.

(** X14: [fs.mkdir] and [fs.readdir] of the facade fail on every call,
    whatever the path, the options and the state of the server: the server
    has no route for either request, Express answers 404, the facade throws
    ("Failed to create directory: <path>", "Failed to read directory:
    <path>"), and the state of the server is unchanged.  No directory is ever
    created or listed through these two calls. *)
Theorem mkdir_and_readdir_always_fail (this : FlyContainer.t) (path uuid : string)
    (recursive : option bool) (st : server) :
  Facade.mkdir this path recursive uuid st
  = (st, [Respond 404 NotRouted], inl ("Failed to create directory: " +:+ path))
  ∧ Facade.readdir this path uuid st
    = (st, [Respond 404 NotRouted], inl ("Failed to read directory: " +:+ path)).
Proof.
  split.
  - unfold Facade.mkdir, app, route, try_catch. cbn [req_url req_method req_body].
    rewrite bool_decide_eq_false_2 by (by intros (_ & _ & _ & ? & _)).
    rewrite bool_decide_eq_false_2 by (by intros (? & _)).
    rewrite bool_decide_eq_false_2 by (by intros (? & _)).
    done.
  - unfold Facade.readdir, app, route, try_catch. cbn [req_url req_method req_body].
    rewrite bool_decide_eq_false_2 by (by intros (? & _)).
    rewrite bool_decide_eq_false_2 by (by intros (_ & _ & _ & ? & _)).
    rewrite bool_decide_eq_false_2 by (by intros (_ & ? & _)).
    done.
Qed.

(** X15: when [fs.writeFile] of the facade resolves, [fs.readFile] of the
    same facade for the same path resolves with exactly the content that was
    written, the server answers it from the session's cache and its state
    does not change; and [fs.readFile] for a session the server has not seen
    throws "Failed to read file: <path>" and creates nothing. *)
Theorem facade_write_then_read (this : FlyContainer.t)
    (path content uuid1 uuid2 : string) (st : server) :
  FlyContainer.previewId this ≠ "" →
  ((Facade.writeFile this path content uuid1 st).2 = inr () →
   let st1 := (Facade.writeFile this path content uuid1 st).1.1 in
   Facade.readFile this path uuid2 st1
   = (st1, [Respond 200 (JsonContent content)], inr (Some content)))
  ∧ (containers st !! FlyContainer.previewId this = None →
     ∃ log, Facade.readFile this path uuid2 st
            = (st, log, inl ("Failed to read file: " +:+ path))).
Proof.
  intros Hid. split.
  - unfold Facade.writeFile.
    set (b := JsonBody (Some path) (Some content) None None None None).
    set (req := Request POST _ None b).
    destruct (app_response req uuid1 st) as (status & rb & Hresp & Hfirst & Hsame & Hthrown).
    unfold req in Hsame, Hthrown. rewrite route_write in Hsame, Hthrown by done.
    destruct (files_write_cases st (FlyContainer.previewId this) b)
      as [(filePath & content' & r & c & Hp & Hc & Hne & Hres & _ & E & Hr & Hf & _)
         |[(status' & msg & Hr' & Hst & Hres)|(_ & e & Hres)]].
    + specialize (Hsame Hres). fold req in Hsame.
      destruct (app req uuid1 st) as [[st1 log1] res1] eqn:Happ.
      simpl in Hfirst. rewrite Hfirst.
      destruct (FlyContainer.ok status); [|done]. intros _. simpl.
      rewrite <- Hsame in E, Hr. simpl in E, Hr.
      injection Hp as <-. injection Hc as <-.
      unfold Facade.readFile, app, try_catch. rewrite route_read by done.
      rewrite (files_read_eq _ _ _ r c) by done.
      unfold read_outcome. by rewrite Hf.
    + specialize (Hsame Hres). fold req in Hsame.
      destruct (app req uuid1 st) as [[st1 log1] res1] eqn:Happ.
      simpl in Hfirst, Hresp. rewrite Hfirst.
      rewrite <- Hsame in Hr'. simpl in Hr'. rewrite Hresp in Hr'.
      injection Hr' as -> ->.
      by destruct Hst as [-> | ->].
    + specialize (Hthrown e Hres). subst status.
      destruct (app req uuid1 st) as [[st1 log1] res1] eqn:Happ.
      simpl in Hfirst. by rewrite Hfirst.
  - intros E. unfold Facade.readFile, app, try_catch. rewrite route_read by done.
    destruct (decide (path = "")) as [->|Hne]; [by eexists|].
    rewrite files_read_unseen by done. by eexists.
Qed.

Lemma facade_write_then_read_witness :
  let this := FlyContainer.Make "/home/project" "s1" in
  let st1 := (Facade.writeFile this "src/a.txt" "hello" "u1" (initial ∅)).1.1 in
  Facade.readFile this "src/a.txt" "u2" st1
  = (st1, [Respond 200 (JsonContent "hello")], inr (Some "hello")).
Proof.
  intros this st1.
  destruct (facade_write_then_read this "src/a.txt" "hello" "u1" "u2" (initial ∅))
    as [H _]; [done|].
  apply H. vm_compute. reflexivity.
Defined.

(** ** The socket of a process object *)



Lemma on_child_data_eq k from chunk st ch :
  children st !! k = Some ch →
  on_child_data k from chunk st
  = (st, broadcast_log st (child_previewId ch)
           (ProcessOutput (child_previewId ch) (child_processId ch) chunk from),
     inr ()).
Proof.
  intros Hk. unfold on_child_data. cbv [mbind M_bind gets]. rewrite Hk. simpl.
  by rewrite broadcastToContainer_eq.
Qed.

Lemma sends_broadcast_log st previewId data :
  sends (broadcast_log st previewId data) = notified st previewId data.
Proof. unfold broadcast_log, notified. apply (sends_copies _ data). Qed.











(** ** The process object and its single message slot *)

Lemma process_run_app p ops1 ops2 :
  Process.run p (ops1 ++ ops2) = Process.run (Process.run p ops1) ops2.
Proof. apply foldl_app. Qed.

(** The writing handler of [pipeTo] is never in the slot when a message
    arrives, so no writable is ever written to or closed. *)
Lemma pipes_untouched_apply p o :
  (∀ n, Process.onmessage p ≠ Process.WriteTo n) →
  Forall (λ w, Process.written w = [] ∧ Process.writer_closed w = false)
    (Process.pipes p) →
  (∀ n, Process.onmessage (Process.apply p o) ≠ Process.WriteTo n)
  ∧ Forall (λ w, Process.written w = [] ∧ Process.writer_closed w = false)
      (Process.pipes (Process.apply p o)).
Proof.
  intros Hh Hp.
  assert ((∀ n, Process.onmessage p ≠ Process.WriteTo n)
          ∧ Forall (λ w, Process.written w = [] ∧ Process.writer_closed w = false)
              (Process.pipes p)) as Hsame by done.
  destruct o; simpl; try exact Hsame.
  - unfold Process.message. case_bool_decide; [|done].
    unfold Process.run_handler.
    destruct data; try exact Hsame; case_bool_decide; try exact Hsame;
      destruct (Process.onmessage p) as [|n|n|n] eqn:Hm;
      try (by destruct (Hh n)); try exact Hsame; simpl;
      try (split; [by rewrite Hm|]); try exact Hp.
    + apply Forall_alter; [done|]. by intros w _ [].
    + destruct (Process.readables p !! n) as [s|]; [|by rewrite Hm].
      destruct (Process.closed s); simpl; by rewrite Hm.
  - split; [done|]. apply Forall_app. split; [done|]. by repeat constructor.
  - by split.
  - by split.
  - unfold Process.write. by case_bool_decide.
Qed.

Lemma pipes_untouched pid ops :
  (∀ n, Process.onmessage (Process.run (Process.create pid) ops) ≠ Process.WriteTo n)
  ∧ Forall (λ w, Process.written w = [] ∧ Process.writer_closed w = false)
      (Process.pipes (Process.run (Process.create pid) ops)).
Proof.
  induction ops as [|o ops IH] using rev_ind; [by split|].
  rewrite process_run_app. simpl. destruct IH as [H1 H2].
  by apply pipes_untouched_apply.
Qed.

Lemma exit_frozen_apply p o :
  Process.onmessage p ≠ Process.ResolveExit →
  Process.onmessage (Process.apply p o) ≠ Process.ResolveExit
  ∧ Process.exit (Process.apply p o) = Process.exit p.
Proof.
  intros Hh. destruct o; simpl; try done.
  - unfold Process.message. case_bool_decide; [|done].
    unfold Process.run_handler.
    destruct data; try done; case_bool_decide; try done;
      destruct (Process.onmessage p) as [|n|n|n] eqn:Hm; try done; simpl;
      try (by rewrite Hm).
    + destruct (Process.pipes p !! n) as [w|]; [|by rewrite Hm].
      destruct (Process.writer_closed w); simpl; by rewrite Hm.
    + destruct (Process.readables p !! n) as [s|]; [|by rewrite Hm].
      destruct (Process.closed s); simpl; by rewrite Hm.
  - unfold Process.write. by case_bool_decide.
Qed.

Lemma exit_frozen p ops :
  Process.onmessage p ≠ Process.ResolveExit →
  Process.onmessage (Process.run p ops) ≠ Process.ResolveExit
  ∧ Process.exit (Process.run p ops) = Process.exit p.
Proof.
  intros Hh. induction ops as [|o ops [IH1 IH2]] using rev_ind; [done|].
  rewrite process_run_app. simpl.
  destruct (exit_frozen_apply (Process.run p ops) o IH1) as [H1 H2].
  split; [done|congruence].
Qed.

Lemma messages_after_close p ms :
  Process.ws_state p ≠ OPEN →
  Process.run p (Process.Message <$> ms) = p.
Proof.
  intros Hs. induction ms as [|m ms IH]; [done|].
  simpl. unfold Process.message. by rewrite bool_decide_eq_false_2.
Qed.

Lemma exit_code_resolves p n w ms :
  Process.ws_state p = OPEN →
  Process.onmessage p = Process.ResolveExitCode n →
  Process.pipes p !! n = Some w → Process.exitCode w = None →
  Process.pipes (Process.run p (Process.Message <$> ms)) !! n
  = Some (Process.Pipe (Process.written w) (Process.writer_closed w)
            (Process.first_completion (Process.processId p) ms))
  ∧ Process.ws_state (Process.run p (Process.Message <$> ms))
    = match Process.first_completion (Process.processId p) ms with
      | Some _ => CLOSING
      | None => OPEN
      end.
Proof.
  revert p. induction ms as [|m ms IH]; intros p Hs Hh Hw Hc.
  { simpl. rewrite Hw. destruct w. simpl in Hc. by subst. }
  change (Process.run p (Process.Message <$> m :: ms))
    with (Process.run (Process.message m p) (Process.Message <$> ms)).
  assert (Process.message m p
          = match m with
            | ProcessCompleted _ pid c _ _ =>
                if bool_decide (pid = Process.processId p)
                then Process.ws_close (Process.set_pipes (alter (λ w,
                       Process.Pipe (Process.written w) (Process.writer_closed w)
                         (Process.resolve (Process.exitCode w) c)) n) p)
                else p
            | _ => p
            end) as Hstep.
  { unfold Process.message, Process.run_handler.
    rewrite bool_decide_eq_true_2 by done. rewrite Hh.
    destruct m; try done; by case_bool_decide. }
  rewrite Hstep. destruct m; cbn [Process.first_completion]; try (by apply IH).
  case_bool_decide; [|by apply IH].
  rewrite messages_after_close by (simpl; by rewrite Hs).
  simpl. rewrite list_lookup_alter_eq, Hw, Hs. simpl. by rewrite Hc.
Qed.

Lemma reader_is_fed p n q ms :
  Process.ws_state p = OPEN →
  Process.onmessage p = Process.EnqueueTo n →
  Process.readables p !! n = Some (Process.Readable q false) →
  Process.readables (Process.run p (Process.Message <$> ms)) !! n
  = Some (Process.Readable
            (q ++ (Process.output_until_completed (Process.processId p) ms).1)
            (Process.output_until_completed (Process.processId p) ms).2)
  ∧ Process.ws_state (Process.run p (Process.Message <$> ms))
    = (if (Process.output_until_completed (Process.processId p) ms).2
       then CLOSING else OPEN).
Proof.
  revert p q. induction ms as [|m ms IH]; intros p q Hs Hh Hr.
  { simpl. by rewrite Hr, app_nil_r. }
  change (Process.run p (Process.Message <$> m :: ms))
    with (Process.run (Process.message m p) (Process.Message <$> ms)).
  assert (Process.message m p
          = match m with
            | ProcessOutput _ pid output _ =>
                if bool_decide (pid = Process.processId p)
                then Process.set_readables (alter (λ s,
                       if Process.closed s then s
                       else Process.Readable (Process.queue s ++ [output]) false)
                       n) p
                else p
            | ProcessCompleted _ pid c _ _ =>
                if bool_decide (pid = Process.processId p)
                then Process.ws_close (Process.set_readables (alter (λ s,
                       Process.Readable (Process.queue s) true) n) p)
                else p
            | _ => p
            end) as Hstep.
  { unfold Process.message, Process.run_handler.
    rewrite bool_decide_eq_true_2 by done. rewrite Hh.
    destruct m; try done. by rewrite Hr. }
  rewrite Hstep.
  destruct m; cbn [Process.output_until_completed]; try (by apply IH).
  - case_bool_decide; [|by apply IH].
    rewrite messages_after_close by (simpl; by rewrite Hs).
    simpl. rewrite list_lookup_alter_eq, Hr, Hs. simpl. by rewrite app_nil_r.
  - destruct (Process.output_until_completed (Process.processId p) ms)
      as [chunks done] eqn:Hout.
    case_bool_decide as Hpid.
    + destruct (IH (Process.set_readables
                      (alter (λ s, if Process.closed s then s
                                   else Process.Readable (Process.queue s ++ [output])
                                          false) n) p) (q ++ [output]))
        as [H1 H2]; try done.
      { simpl. by rewrite list_lookup_alter_eq, Hr. }
      simpl in H1, H2. rewrite Hout in H1, H2. simpl in H1, H2.
      simpl. by rewrite H1, H2, <- app_assoc.
    + destruct (IH p q Hs Hh Hr) as [H1 H2]. rewrite Hout in H1, H2. done.
Qed.

(** X17: a writable handed to [output.pipeTo] never receives anything and
    is never closed, whatever is called on the process object and whatever
    messages arrive, in any order: before [pipeTo] returns, the handler that
    resolves [exitCode] has replaced the one that writes.  What [pipeTo]
    does deliver, on an open socket, is the [exitCode] promise, resolved
    with the exit code of the first [process-completed] message for the
    process; the [exit] promise of the object stays as it was. *)
Theorem pipeTo_only_resolves_exit_code (pid : string) (ops : list Process.op)
    (p : Process.t) (ms : list event) :
  Forall (λ w, Process.written w = [] ∧ Process.writer_closed w = false)
    (Process.pipes (Process.run (Process.create pid) ops))
  ∧ (Process.ws_state p = OPEN →
     let p' := Process.run (Process.pipeTo p) (Process.Message <$> ms) in
     Process.pipes p' !! length (Process.pipes p)
     = Some (Process.Pipe [] false
               (Process.first_completion (Process.processId p) ms))
     ∧ Process.exit p' = Process.exit p).
Proof.
  split; [apply pipes_untouched|]. intros Hs p'. subst p'. split.
  - apply (exit_code_resolves (Process.pipeTo p) (length (Process.pipes p))
             (Process.Pipe [] false None) ms); try done.
    simpl. by rewrite lookup_app_r, Nat.sub_diag.
  - by apply (exit_frozen (Process.pipeTo p)).
Qed.

(** X18: a stream made by [output.getReader] (or [output.tee]) on an open
    socket receives, in order, exactly the chunks of the [process-output]
    messages for its process that arrive before the first
    [process-completed] message for it, and is closed by that message, which
    also closes the socket; messages for other processes, and messages of
    other kinds, leave it alone.  The [exit] promise of the object is not
    resolved by any of these messages. *)
Theorem reader_receives_output_in_order (p : Process.t) (ms : list event) :
  Process.ws_state p = OPEN →
  let p' := Process.run (Process.getReader p) (Process.Message <$> ms) in
  let out := Process.output_until_completed (Process.processId p) ms in
  Process.readables p' !! length (Process.readables p)
  = Some (Process.Readable out.1 out.2)
  ∧ Process.ws_state p' = (if out.2 then CLOSING else OPEN)
  ∧ Process.exit p' = Process.exit p
  ∧ Process.run (Process.tee p) (Process.Message <$> ms) = p'.
Proof.
  intros Hs p' out. subst p' out.
  destruct (reader_is_fed (Process.getReader p) (length (Process.readables p))
              [] ms) as [H1 H2]; try done.
  { simpl. by rewrite lookup_app_r, Nat.sub_diag. }
  split; [done|]. split; [done|]. split; [|done].
  by apply (exit_frozen (Process.getReader p)).
Qed.

Lemma reader_receives_output_in_order_witness :
  let p := Process.run (Process.create "p1")
             [Process.Open; Process.Message (ProcessOutput "s1" "p1" "early" Stdout)] in
  let ms := [ProcessOutput "s1" "p1" "a" Stdout; ProcessOutput "s1" "p2" "x" Stdout;
             FileChange "s1" "a.txt"; ProcessOutput "s1" "p1" "b" Stderr;
             ProcessCompleted "s1" "p1" (CodeNumber 0) "ab" "";
             ProcessOutput "s1" "p1" "late" Stdout] in
  let p' := Process.run (Process.getReader p) (Process.Message <$> ms) in
  Process.readables p' !! 0 = Some (Process.Readable ["a"; "b"] true)
  ∧ Process.ws_state p' = CLOSING
  ∧ Process.exit p' = None.
Proof.
  intros p ms p'.
  destruct (reader_receives_output_in_order p ms) as (H1 & H2 & H3 & _).
  - reflexivity.
  - split; [exact H1|]. split; [exact H2|exact H3].
Defined.

Lemma exit_resolves p ms :
  Process.ws_state p = OPEN →
  Process.onmessage p = Process.ResolveExit →
  Process.exit p = None →
  Process.exit (Process.run p (Process.Message <$> ms))
  = Process.first_completion (Process.processId p) ms.
Proof.
  revert p. induction ms as [|m ms IH]; intros p Hs Hh He; [done|].
  change (Process.run p (Process.Message <$> m :: ms))
    with (Process.run (Process.message m p) (Process.Message <$> ms)).
  assert (Process.message m p
          = match m with
            | ProcessCompleted _ pid c _ _ =>
                if bool_decide (pid = Process.processId p)
                then Process.ws_close
                       (Process.Make (Process.processId p) (Process.ws_state p)
                          (Process.onmessage p) (Some c) (Process.pipes p)
                          (Process.readables p) (Process.sent p))
                else p
            | _ => p
            end) as Hstep.
  { unfold Process.message, Process.run_handler.
    rewrite bool_decide_eq_true_2 by done. rewrite Hh, He.
    destruct m; try done; by case_bool_decide. }
  rewrite Hstep. destruct m; cbn [Process.first_completion]; try (by apply IH).
  case_bool_decide; [|by apply IH].
  by rewrite messages_after_close by (simpl; by rewrite Hs).
Qed.

(** X19: the [exit] promise of a process object on which no output method
    is called resolves with the exit code of the first [process-completed]
    message for its process that arrives on the open socket; but once
    [pipeTo], [tee] or [getReader] has been called, its handler is no longer
    in the slot, and whatever is called and whatever arrives afterwards,
    [exit] stays as it was at that call. *)
Theorem exit_resolves_unless_output_is_taken (pid : string) (ms : list event)
    (ops1 ops2 : list Process.op) (o : Process.op) :
  Process.exit (Process.run (Process.create pid)
                  (Process.Open :: (Process.Message <$> ms)))
  = Process.first_completion pid ms
  ∧ (o = Process.PipeTo ∨ o = Process.Tee ∨ o = Process.GetReader →
     Process.exit (Process.run (Process.create pid) (ops1 ++ o :: ops2))
     = Process.exit (Process.run (Process.create pid) ops1)).
Proof.
  split.
  - by apply (exit_resolves (Process.on_open (Process.create pid))).
  - intros Ho. rewrite process_run_app.
    change (Process.run ?p (o :: ops2))
      with (Process.run (Process.apply p o) ops2).
    destruct (exit_frozen (Process.apply (Process.run (Process.create pid) ops1) o)
                ops2) as [_ ->]; by destruct Ho as [->|[->| ->]].
Qed.

(** ** The listeners of the facade *)

Lemma filter_fresh (cb : nat) (l : list nat) :
  cb ∉ l → filter (λ x, x ≠ cb) (l ++ [cb]) = l.
Proof.
  induction l as [|x l IH]; intros Hnot; simpl.
  - by rewrite filter_cons_False, filter_nil by auto.
  - apply not_elem_of_cons in Hnot as [Hne Hnot].
    rewrite filter_cons_True by auto. by rewrite IH.
Qed.

(** X20: for an event name that is not a property of [Object.prototype],
    [on] appends the callback to the listeners of that event and [off]
    removes every occurrence of it, both without touching the listeners of
    any other event, and neither throws; so [off] after [on], for a callback
    that was not registered before, gives back the listeners there were.
    For a name every object inherits (["constructor"], ["toString"], ...)
    [on] and [off] throw a TypeError. *)
Theorem listeners_are_kept_per_event (event : string) (callback : nat)
    (l : gmap string (list nat)) :
  (Events.inherited event = false →
   ∃ callbacks l1 l2,
     Events.getEventListeners event l = Some callbacks
     ∧ Events.on event callback l = inr l1
     ∧ Events.getEventListeners event l1 = Some (callbacks ++ [callback])
     ∧ Events.off event callback l = inr l2
     ∧ Events.getEventListeners event l2
       = Some (filter (λ cb, cb ≠ callback) callbacks)
     ∧ (∀ other, other ≠ event →
          Events.getEventListeners other l1 = Events.getEventListeners other l
          ∧ Events.getEventListeners other l2 = Events.getEventListeners other l)
     ∧ (callback ∉ callbacks →
        ∃ l3, Events.off event callback l1 = inr l3
              ∧ ∀ any, Events.getEventListeners any l3
                       = Events.getEventListeners any l))
  ∧ (Events.inherited event = true → l !! event = None →
     (∃ e, Events.on event callback l = inl e)
     ∧ ∃ e, Events.off event callback l = inl e).
Proof.
  split.
  - intros Hown. unfold Events.on, Events.off, Events.getEventListeners.
    rewrite Hown.
    destruct (l !! event) as [callbacks|] eqn:E.
    + exists callbacks, (<[event := callbacks ++ [callback]]> l),
        (<[event := filter (λ cb, cb ≠ callback) callbacks]> l).
      rewrite !lookup_insert_eq. do 5 (split; [done|]). split.
      * intros other Hne. by rewrite !lookup_insert_ne.
      * intros Hfresh. eexists. split; [done|].
        intros any. destruct (decide (any = event)) as [->|Hne].
        -- by rewrite lookup_insert_eq, filter_fresh, E.
        -- by rewrite !lookup_insert_ne.
    + exists [], (<[event := [] ++ [callback]]> l), l.
      rewrite !lookup_insert_eq, E. do 5 (split; [done|]). split.
      * intros other Hne. by rewrite !lookup_insert_ne.
      * intros _. eexists. split; [done|].
        intros any. destruct (decide (any = event)) as [->|Hne].
        -- rewrite lookup_insert_eq, E, Hown. simpl.
           by rewrite filter_cons_False, filter_nil by auto.
        -- by rewrite !lookup_insert_ne.
  - intros Hin E. unfold Events.on, Events.off. rewrite E, Hin. eauto.
Qed.

(** ** The ['server-ready'] event of the boot sequence *)

Lemma boot_run_app b steps1 steps2 :
  Boot.run b (steps1 ++ steps2) = Boot.run (Boot.run b steps1) steps2.
Proof. apply foldl_app. Qed.

Lemma boot_start l : Boot.start l = Boot.run (Boot.Make l true [] []) [Boot.Timer].
Proof. done. Qed.

Lemma boot_settled_apply b s :
  Boot.retry b = false →
  Boot.retry (Boot.apply b s) = false
  ∧ Boot.called (Boot.apply b s) = Boot.called b.
Proof.
  intros Hr. destruct s; simpl.
  - by destruct (Events.on _ _ _).
  - by destruct (Events.off _ _ _).
  - by rewrite Hr.
  - done.
Qed.

Lemma boot_settled b steps :
  Boot.retry b = false →
  Boot.retry (Boot.run b steps) = false
  ∧ Boot.called (Boot.run b steps) = Boot.called b.
Proof.
  intros Hr. induction steps as [|s steps [IH1 IH2]] using rev_ind; [done|].
  rewrite boot_run_app. simpl.
  destruct (boot_settled_apply (Boot.run b steps) s IH1) as [H1 H2].
  split; [done|congruence].
Qed.

Lemma boot_polls l steps :
  (Boot.called (Boot.run (Boot.Make l true [] []) steps) = []
   ∧ Boot.retry (Boot.run (Boot.Make l true [] []) steps) = true)
  ∨ (Boot.retry (Boot.run (Boot.Make l true [] []) steps) = false
     ∧ Boot.called (Boot.run (Boot.Make l true [] []) steps) ≠ []
     ∧ ∃ pre post,
         steps = pre ++ Boot.Timer :: post
         ∧ Events.getEventListeners "server-ready"
             (Boot.listeners (Boot.run (Boot.Make l true [] []) pre))
           = Some (Boot.called (Boot.run (Boot.Make l true [] []) steps))).
Proof.
  induction steps as [|s steps IH] using rev_ind; [by left|].
  rewrite boot_run_app. simpl.
  set (b := Boot.run (Boot.Make l true [] []) steps) in *.
  destruct IH as [[Hc Hr]|(Hr & Hc & pre & post & -> & Hl)].
  - destruct s; simpl.
    + left. by destruct (Events.on _ _ _).
    + left. by destruct (Events.off _ _ _).
    + rewrite Hr. unfold Boot.emitServerReady. simpl.
      destruct (Events.getEventListeners "server-ready" (Boot.listeners b))
        as [[|cb cbs]|] eqn:Hl; simpl; try (by left).
      right. rewrite Hc. simpl. split; [done|]. split; [done|].
      exists steps, []. split; [done|]. by fold b.
    + by left.
  - right.
    destruct (boot_settled_apply b s Hr) as [H1 H2].
    split; [done|]. split; [congruence|].
    exists pre, (post ++ [s]). split; [by rewrite <- app_assoc|].
    by rewrite H2.
Qed.

(** X21: the boot sequence calls the ['server-ready'] listeners in one
    batch at most.  Its first attempt and every retry (one timer, 1000 ms
    after an attempt that found no listener) either finds no listener and
    schedules the next retry, or calls exactly the listeners registered at
    that moment, in registration order, and schedules nothing; from then on,
    whatever is registered or removed and whatever arrives, no listener of
    ['server-ready'] is called again: a listener registered after the batch
    is never told. *)
Theorem server_ready_is_emitted_once (l : gmap string (list nat))
    (steps later : list Boot.step) :
  let b := Boot.run (Boot.start l) steps in
  (Boot.called b = [] ∧ Boot.retry b = true)
  ∨ (Boot.called b ≠ [] ∧ Boot.retry b = false
     ∧ Boot.called (Boot.run b later) = Boot.called b
     ∧ Boot.retry (Boot.run b later) = false
     ∧ ∃ pre post,
         Boot.Timer :: steps = pre ++ Boot.Timer :: post
         ∧ Events.getEventListeners "server-ready"
             (Boot.listeners (Boot.run (Boot.Make l true [] []) pre))
           = Some (Boot.called b)).
Proof.
  intros b. subst b. rewrite boot_start, <- boot_run_app.
  destruct (boot_polls l ([Boot.Timer] ++ steps))
    as [H|(Hr & Hc & pre & post & Hsteps & Hl)]; [by left|].
  right. destruct (boot_settled _ later Hr) as [H1 H2].
  repeat split; try done. by exists pre, post.
Qed.

(** ** Nothing leaves the disk *)

Lemma disk_kept_refl d : disk_kept d d.
Proof. intros k node Hk. by exists node. Qed.

Lemma disk_kept_trans d1 d2 d3 :
  disk_kept d1 d2 → disk_kept d2 d3 → disk_kept d1 d3.
Proof.
  intros H1 H2 k node Hk.
  destruct (H1 k node Hk) as (node2 & Hk2 & E2).
  destruct (H2 k node2 Hk2) as (node3 & Hk3 & E3).
  exists node3. split; [done|]. unfold same_kind in *. tauto.
Qed.

Lemma mkdir_from_kept d pre rest d' :
  Fs.mkdir_from d pre rest = inr d' → disk_kept d d'.
Proof.
  revert d pre. induction rest as [|s rest IH]; intros d pre; simpl.
  { intros [= <-]. apply disk_kept_refl. }
  destruct (d !! (pre ++ [s])) as [[content|]|] eqn:E; [done| |].
  - apply IH.
  - intros H%IH. eapply disk_kept_trans; [|exact H].
    intros k node Hk. exists node. split; [|done].
    rewrite lookup_insert_ne; [done|]. by intros <-; simplify_eq.
Qed.

Lemma writeFileSync_kept d p content d' :
  Fs.writeFileSync d p content = inr d' → disk_kept d d'.
Proof.
  unfold Fs.writeFileSync.
  assert (∀ old, Fs.stat d (Path.resolve p) ≠ Some Fs.Dir →
            (Fs.stat d (Path.resolve p) = Some (Fs.File old)
             ∨ Fs.stat d (Path.resolve p) = None) →
            disk_kept d (<[Path.resolve p := Fs.File content]> d)) as Hins.
  { intros old Hnd Hs k node Hk.
    destruct (decide (k = Path.resolve p)) as [->|Hne].
    - exists (Fs.File content). rewrite lookup_insert_eq. split; [done|].
      destruct (Path.resolve p) as [|s q] eqn:Hq; [done|]. simpl in Hs, Hnd.
      rewrite Hk in Hs, Hnd. destruct Hs as [[= ->]|?]; [|done].
      by split.
    - exists node. by rewrite lookup_insert_ne. }
  destruct (Fs.stat d (Path.resolve p)) as [[old|]|] eqn:Hs.
  - destruct (Path.trailingSeparator p); [done|]. intros [= <-].
    apply (Hins old); [done|by left].
  - done.
  - destruct (Fs.stat d (removelast (Path.resolve p))) as [[old|]|]; try done.
    destruct (Path.trailingSeparator p); [done|]. intros [= <-].
    apply (Hins ""); [done|by right].
Qed.

Lemma keeps_disk_same st st' : disk st' = disk st → keeps_disk st st'.
Proof. unfold keeps_disk. intros ->. apply disk_kept_refl. Qed.

Lemma keeps_disk_trans st1 st2 st3 :
  keeps_disk st1 st2 → keeps_disk st2 st3 → keeps_disk st1 st3.
Proof. apply disk_kept_trans. Qed.

Lemma keeps_disk_get_or_create previewId st :
  keeps_disk st (get_or_create previewId st).1.1.
Proof.
  destruct (containers st !! previewId) as [r|] eqn:E.
  - rewrite (get_or_create_found _ _ r) by done. by apply keeps_disk_same.
  - destruct (Fs.mkdirSync (disk st) (Path.join "/tmp" previewId)) as [e|d] eqn:Hd.
    + rewrite (get_or_create_fails _ _ e) by done. by apply keeps_disk_same.
    + rewrite (get_or_create_new _ _ d) by done. unfold keeps_disk. simpl.
      by eapply mkdir_from_kept.
Qed.

Lemma keeps_disk_on_connection previewId st :
  keeps_disk st (on_connection previewId st).1.1.
Proof.
  destruct previewId as [[|a p]|]; try (by apply keeps_disk_same).
  unfold on_connection. cbv [mbind M_bind gets modify update]. simpl.
  pose proof (keeps_disk_get_or_create (String a p)
                (set_sockets (λ s, s ++ [Socket OPEN None]) st)) as H.
  by destruct (get_or_create (String a p) _) as [[st0 l0] [e|r]].
Qed.

Lemma keeps_disk_files_write previewId b st :
  keeps_disk st (files_write previewId b st).1.1.
Proof.
  destruct (body_path b) as [filePath|] eqn:Hp;
    [|rewrite files_write_rejects by auto; by apply keeps_disk_same].
  destruct (body_content b) as [content|] eqn:Hc;
    [|rewrite files_write_rejects by auto; by apply keeps_disk_same].
  destruct (decide (filePath = "")) as [->|Hne];
    [rewrite files_write_rejects by auto; by apply keeps_disk_same|].
  pose proof (keeps_disk_get_or_create previewId st) as H0.
  destruct (get_or_create previewId st) as [[st0 l0] [e|r]] eqn:Hg.
  { by rewrite (files_write_throws _ _ _ _ _ _ _ _ Hp Hc Hne Hg). }
  simpl in H0.
  destruct (heap st0 !! r) as [c|] eqn:Hr.
  2:{ by rewrite (files_write_dangling _ _ _ _ _ _ _ _ Hp Hc Hne Hg Hr). }
  rewrite (files_write_eq _ _ _ _ _ _ _ _ _ Hp Hc Hne Hg Hr).
  unfold write_outcome.
  destruct (Fs.mkdirSync _ (Path.dirname _)) as [e|d1] eqn:Hd1; [done|].
  apply mkdir_from_kept in Hd1.
  destruct (Fs.writeFileSync _ _ _) as [e|d2] eqn:Hd2; simpl.
  - eapply keeps_disk_trans; [exact H0|]. exact Hd1.
  - apply writeFileSync_kept in Hd2.
    eapply keeps_disk_trans; [exact H0|]. unfold keeps_disk. simpl.
    by eapply disk_kept_trans.
Qed.

Lemma keeps_disk_execute previewId b uuid st :
  keeps_disk st (execute previewId b uuid st).1.1.
Proof.
  destruct (body_command b) as [command|] eqn:Hc;
    [|unfold execute; rewrite Hc; by apply keeps_disk_same].
  destruct (decide (command = "")) as [->|Hne];
    [unfold execute; rewrite Hc; by apply keeps_disk_same|].
  pose proof (keeps_disk_get_or_create previewId st) as H0.
  destruct (get_or_create previewId st) as [[st0 l0] [e|r]] eqn:Hg.
  { unfold execute. rewrite Hc. destruct command; [done|].
    cbv [mbind M_bind]. by rewrite Hg. }
  simpl in H0.
  destruct (heap st0 !! r) as [c|] eqn:Hr.
  2:{ unfold execute. rewrite Hc. destruct command; [done|].
      cbv [mbind M_bind try_catch deref]. by rewrite Hg, Hr. }
  rewrite (execute_eq _ _ _ _ _ _ _ _ _ Hc Hne Hg Hr).
  unfold execute_outcome.
  destruct (Fs.mkdirSync _ _) as [e|d] eqn:Hd; [done|]. simpl.
  apply mkdir_from_kept in Hd.
  eapply keeps_disk_trans; [exact H0|]. exact Hd.
Qed.

Lemma keeps_disk_files_read previewId q st :
  keeps_disk st (files_read previewId q st).1.1.
Proof.
  destruct (files_read_state st previewId q)
    as [->|(r & c & filePath & content & _ & _ & _ & _ & _ & ->)];
    by apply keeps_disk_same.
Qed.

Lemma keeps_disk_route req uuid st : keeps_disk st (route req uuid st).1.1.
Proof.
  unfold route.
  repeat first
    [ apply keeps_disk_files_write | apply keeps_disk_files_read
    | apply keeps_disk_execute
    | by rewrite (proj1 (preview_index_state _ _)); apply keeps_disk_same
    | by rewrite (proj1 (preview_static_state _ _ _)); apply keeps_disk_same
    | by apply keeps_disk_same
    | match goal with
      | |- keeps_disk _ (match ?x with _ => _ end _).1.1 => destruct x
      | |- keeps_disk _ ((if ?x then _ else _) _).1.1 => destruct x
      end ].
Qed.

Lemma keeps_disk_handle i st : keeps_disk st (handle i st).1.1.
Proof.
  destruct i; simpl.
  - apply keeps_disk_on_connection.
  - apply (respects_on_message keeps_disk any_effect); unfold any_effect;
      first [ done | apply keeps_disk_trans | by intros; apply keeps_disk_same ].
  - by apply keeps_disk_same.
  - apply (respects_on_close keeps_disk any_effect); unfold any_effect;
      first [ done | apply keeps_disk_trans | by intros; apply keeps_disk_same ].
  - pose proof (keeps_disk_route req uuid st) as H. unfold app, try_catch.
    by destruct (route req uuid st) as [[st1 l1] [e|[]]].
  - apply (respects_on_child_data keeps_disk any_effect); unfold any_effect;
      first [ done | apply keeps_disk_trans | by intros; apply keeps_disk_same ].
  - apply (respects_on_exec_done keeps_disk any_effect); unfold any_effect;
      first [ done | apply keeps_disk_trans | by intros; apply keeps_disk_same ].
  - apply (respects_advance keeps_disk any_effect); unfold any_effect;
      first [ done | apply keeps_disk_trans | by intros; apply keeps_disk_same ].
Qed.

Lemma keeps_disk_run inputs st : keeps_disk st (run st inputs).1.1.
Proof.
  revert st. unfold run.
  induction inputs as [|i inputs IH]; intros st; simpl.
  { by apply keeps_disk_same. }
  cbv [mbind M_bind].
  pose proof (keeps_disk_handle i st) as H1.
  destruct (handle i st) as [[st1 l1] [e|[]]]; [done|].
  pose proof (IH st1) as H2.
  destruct (for_each handle inputs st1) as [[st2 l2] res]. simpl in *.
  by eapply keeps_disk_trans.
Qed.

(** X22: none of the server's own file-system calls removes anything:
    whatever the server handles, a file that is on the disk stays on the
    disk as a file (its content may be overwritten) and a directory stays a
    directory.  In particular the clean-up check, which forgets an idle
    session, leaves the directory of the session and everything in it where
    it is.  (What the commands started with [exec] do to the disk is
    outside the model.) *)
Theorem server_never_removes_from_disk (st : server) (inputs : list input)
    (k : list string) (node : Fs.node) :
  disk st !! k = Some node →
  ∃ node', disk (run st inputs).1.1 !! k = Some node' ∧ same_kind node node'.
Proof. apply keeps_disk_run. Qed.

Lemma server_never_removes_from_disk_witness :
  let st := (run (initial ∅) [Connection (Some "s1");
                              Http (write_request "s1" "a.txt" "x") "u"]).1.1 in
  let inputs := [Close 0; Advance 300000;
                 Http (write_request "s2" "../s1/a.txt" "y") "u"] in
  ∃ node', disk (run st inputs).1.1 !! ["tmp"; "s1"; "a.txt"] = Some node'
           ∧ same_kind (Fs.File "x") node'.
Proof.
  intros st inputs.
  apply (server_never_removes_from_disk st inputs ["tmp"; "s1"; "a.txt"]).
  vm_compute. reflexivity.
Defined.

(** ** What a new session finds in its directory *)

Lemma mkdir_from_subseteq d pre rest d' :
  Fs.mkdir_from d pre rest = inr d' → d ⊆ d'.
Proof.
  revert d pre. induction rest as [|s rest IH]; intros d pre; simpl.
  { by intros [= <-]. }
  destruct (d !! (pre ++ [s])) as [[content|]|] eqn:E; [done| |].
  - apply IH.
  - intros H%IH. etrans; [|exact H]. by apply insert_subseteq.
Qed.

Lemma readFileSync_weaken d d' p content :
  d ⊆ d' → Fs.readFileSync d p = inr content →
  Fs.readFileSync d' p = inr content ∧ Fs.existsSync d' p = true.
Proof.
  intros Hsub. unfold Fs.readFileSync, Fs.existsSync.
  destruct (Path.resolve p) as [|s k] eqn:Hk; [done|]. simpl.
  destruct (d !! (s :: k)) as [[c|]|] eqn:E; try done.
  rewrite (lookup_weaken _ _ _ _ E Hsub).
  by destruct (Path.trailingSeparator p).
Qed.

Lemma on_connection_new previewId st d :
  previewId ≠ "" → containers st !! previewId = None →
  Fs.mkdirSync (disk st) (Path.join "/tmp" previewId) = inr d →
  on_connection (Some previewId) st
  = (set_sockets
       (alter (λ s, Socket (ready s) (Some (previewId, length (heap st))))
          (length (sockets st)))
       (set_heap (alter (with_clients (set_add (length (sockets st))))
                    (length (heap st)))
          (created previewId d (set_sockets (λ s, s ++ [Socket OPEN None]) st))),
     [FsCall (MkdirSync (Path.join "/tmp" previewId))], inr ()).
Proof.
  intros Hne E Hd. unfold on_connection. destruct previewId as [|a p]; [done|].
  cbv [mbind M_bind gets modify update]. simpl.
  by rewrite (get_or_create_new _ _ d).
Qed.

Lemma on_connection_fails previewId st e :
  previewId ≠ "" → containers st !! previewId = None →
  Fs.mkdirSync (disk st) (Path.join "/tmp" previewId) = inl e →
  (on_connection (Some previewId) st).2 = inl (FsError e).
Proof.
  intros Hne E Hd. unfold on_connection. destruct previewId as [|a p]; [done|].
  cbv [mbind M_bind gets modify update]. simpl.
  by rewrite (get_or_create_fails _ _ e).
Qed.

(** X23: a session that is created for an identifier adopts whatever the
    directory [/tmp/<previewId>] already holds: [createContainer] makes the
    directory only if it is missing and empties nothing, and the cache of
    the new container is empty, so the first read of a path goes to the
    disk.  A file left there, by an earlier session of the same identifier
    that has been forgotten or by anything else, is served with status 200
    to the new session. *)
Theorem new_session_adopts_leftover_files (st : server)
    (previewId filePath content : string) :
  previewId ≠ "" → filePath ≠ "" →
  containers st !! previewId = None →
  Fs.readFileSync (disk st) (Path.join (Path.join "/tmp" previewId) filePath)
  = inr content →
  (on_connection (Some previewId) st).2 = inr () →
  let st1 := (on_connection (Some previewId) st).1.1 in
  responses (files_read previewId (Some filePath) st1).1.2
  = [(200, JsonContent content)].
Proof.
  intros Hid Hne E Hfile Hok st1. subst st1.
  destruct (Fs.mkdirSync (disk st) (Path.join "/tmp" previewId)) as [e|d] eqn:Hd.
  { by rewrite (on_connection_fails _ _ e) in Hok. }
  rewrite (on_connection_new _ _ d) by done. cbn [fst snd].
  set (st1 := set_sockets _ _).
  assert (containers st1 !! previewId = Some (length (heap st))) as E1.
  { simpl. by rewrite lookup_insert_eq. }
  set (c := with_clients (set_add (length (sockets st)))
              (Container previewId (Path.join "/tmp" previewId) [] ∅ ∅)).
  assert (heap st1 !! length (heap st) = Some c) as Hc.
  { simpl. by rewrite list_lookup_alter_eq, lookup_app_r, Nat.sub_diag. }
  assert (disk st1 = d) as Hd1 by done.
  clearbody st1.
  rewrite (files_read_eq _ _ _ _ c) by done.
  unfold read_outcome. cbn [files dir c with_clients].
  destruct (readFileSync_weaken (disk st) d _ content
              (mkdir_from_subseteq _ _ _ _ Hd) Hfile) as [Hread Hex].
  by rewrite lookup_empty, Hd1, Hex, Hread.
Qed.

Lemma new_session_adopts_leftover_files_witness :
  let st := (run (initial ∅) [Connection (Some "s1");
                              Http (write_request "s1" "a.txt" "x") "u";
                              Close 0; Advance 300000]).1.1 in
  let st1 := (on_connection (Some "s1") st).1.1 in
  responses (files_read "s1" (Some "a.txt") st1).1.2 = [(200, JsonContent "x")].
Proof.
  intros st.
  apply (new_session_adopts_leftover_files st "s1" "a.txt" "x"); try done;
    vm_compute; reflexivity.
Defined.

(** ** What makes a preview page reload *)

Lemma sends_files_write st previewId b ws data :
  (ws, data) ∈ sends (files_write previewId b st).1.2 →
  ∃ filePath, data = FileChange previewId filePath.
Proof.
  destruct (body_path b) as [filePath|] eqn:Hp;
    [|rewrite files_write_rejects by auto; by intros ?%elem_of_nil].
  destruct (body_content b) as [content|] eqn:Hc;
    [|rewrite files_write_rejects by auto; by intros ?%elem_of_nil].
  destruct (decide (filePath = "")) as [->|Hne];
    [rewrite files_write_rejects by auto; by intros ?%elem_of_nil|].
  pose proof (get_or_create_log previewId st) as Hl0.
  destruct (get_or_create previewId st) as [[st0 l0] [e|r]] eqn:Hg; simpl in Hl0.
  { rewrite (files_write_throws _ _ _ _ _ _ _ _ Hp Hc Hne Hg). simpl.
    destruct Hl0 as [-> | ->]; by intros ?%elem_of_nil. }
  assert (sends l0 = []) as Hs0 by (by destruct Hl0 as [-> | ->]).
  destruct (heap st0 !! r) as [c|] eqn:Hr.
  2:{ rewrite (files_write_dangling _ _ _ _ _ _ _ _ Hp Hc Hne Hg Hr). simpl.
      rewrite sends_app, Hs0. by intros ?%elem_of_nil. }
  rewrite (files_write_eq _ _ _ _ _ _ _ _ _ Hp Hc Hne Hg Hr).
  unfold write_outcome.
  destruct (Fs.mkdirSync _ (Path.dirname _)) as [e|d1].
  { simpl. rewrite sends_app, Hs0. by intros ?%elem_of_nil. }
  destruct (Fs.writeFileSync _ _ _) as [e|d2].
  { simpl. rewrite sends_app, Hs0. by intros ?%elem_of_nil. }
  simpl. rewrite sends_app, Hs0. simpl.
  unfold sends. simpl. rewrite omap_app. simpl. rewrite app_nil_r.
  fold (sends ((λ ws, Send ws (FileChange previewId filePath))
                 <$> recipients
                       (set_heap (alter (with_files <[filePath:=content]>) r)
                          (set_disk d2 st0)) previewId)).
  rewrite sends_copies. intros (ws' & [= _ ->] & _)%list_elem_of_fmap.
  by exists filePath.
Qed.

Lemma sends_broadcast_log_inv st previewId d ws data :
  (ws, data) ∈ sends (broadcast_log st previewId d) →
  data = d ∧ ws ∈ recipients st previewId.
Proof.
  rewrite sends_broadcast_log. unfold notified.
  by intros (ws' & [= -> ->] & Hin)%list_elem_of_fmap.
Qed.

Lemma broadcast_log_eq previewId data st :
  broadcastToContainer previewId data st
  = (st, broadcast_log st previewId data, inr ()).
Proof. apply broadcastToContainer_eq. Qed.

Lemma on_message_eq ws type st s previewId r :
  sockets st !! ws = Some s → listeners s = Some (previewId, r) →
  on_message ws (Parsed (Some type)) st
  = (st,
     if bool_decide (type = "file-change")
     then broadcast_log st previewId (RefreshPreview previewId)
     else if bool_decide (type = "preview-ready")
     then broadcast_log st previewId
            (PreviewReady previewId ("/preview/" +:+ previewId) (now st))
     else [],
     inr ()).
Proof.
  intros Hs Hl. unfold on_message. cbv [mbind M_bind gets]. rewrite Hs.
  destruct s as [state l]. simpl in Hl. subst l.
  repeat case_bool_decide; try done; cbn [fst snd]; by rewrite broadcast_log_eq.
Qed.

Lemma on_exec_done_log k error stdout stderr st :
  (on_exec_done k error stdout stderr st).1.2 = []
  ∨ ∃ c st',
      children st !! k = Some c
      ∧ (on_exec_done k error stdout stderr st).1.2
        = broadcast_log st' (child_previewId c)
            (ProcessCompleted (child_previewId c) (child_processId c)
               (exit_code error) stdout stderr).
Proof.
  destruct (children st !! k) as [c|] eqn:Hk.
  2:{ left. unfold on_exec_done. cbv [mbind M_bind gets]. by rewrite Hk. }
  destruct (child_completed c) eqn:Hc.
  { left. by rewrite (on_exec_done_again _ _ _ _ _ c). }
  right. rewrite (on_exec_done_eq _ _ _ _ _ c) by done. by do 2 eexists.
Qed.

(** X24: every event the server sends for a write is a [file-change] of
    the session that was written to, and every event it sends in answer
    to a [file-change] message is a [refresh-preview] of the sender's
    session; the preview pages of that session call [handleRefresh] on
    each of them, and a page of any other session would not.  The events of
    processes ([process-output], [process-completed]) and [preview-ready]
    never make a page reload. *)
Theorem pages_reload_on_file_events (st : server) (previewId other : string)
    (b : json_body) (sender ws : nat) (data : event) :
  ((ws, data) ∈ sends (files_write previewId b st).1.2 →
   PreviewPage.refreshes previewId data = true
   ∧ (other ≠ previewId → PreviewPage.refreshes other data = false))
  ∧ ((∃ s r, sockets st !! sender = Some s ∧ listeners s = Some (previewId, r)) →
     (ws, data) ∈ sends (on_message sender (Parsed (Some "file-change")) st).1.2 →
     PreviewPage.refreshes previewId data = true
     ∧ (other ≠ previewId → PreviewPage.refreshes other data = false))
  ∧ (∀ k from chunk error stdout stderr,
       (ws, data) ∈ sends (on_child_data k from chunk st).1.2
       ∨ (ws, data) ∈ sends (on_exec_done k error stdout stderr st).1.2
       ∨ (ws, data) ∈ sends (on_message sender (Parsed (Some "preview-ready")) st).1.2 →
       PreviewPage.refreshes other data = false).
Proof.
  split; [|split].
  - intros [filePath ->]%sends_files_write. simpl.
    split; [by apply bool_decide_eq_true_2|].
    intros Hne. apply bool_decide_eq_false_2. by intros ->.
  - intros (s & r & Hs & Hl).
    rewrite (on_message_eq _ _ _ s previewId r) by done. simpl.
    intros [-> _]%sends_broadcast_log_inv. simpl.
    split; [by apply bool_decide_eq_true_2|].
    intros Hne. apply bool_decide_eq_false_2. by intros ->.
  - intros k from chunk error stdout stderr [H|[H|H]]; revert H.
    + destruct (children st !! k) as [c|] eqn:Hk.
      * rewrite (on_child_data_eq _ _ _ _ c) by done. cbn [fst snd].
        by intros [-> _]%sends_broadcast_log_inv.
      * unfold on_child_data. cbv [mbind M_bind gets]. rewrite Hk.
        by intros ?%elem_of_nil.
    + destruct (on_exec_done_log k error stdout stderr st)
        as [->|(c & st' & _ & ->)]; [by intros ?%elem_of_nil|].
      by intros [-> _]%sends_broadcast_log_inv.
    + destruct (sockets st !! sender) as [[state [[p r]|]]|] eqn:Hs.
      * rewrite (on_message_eq _ _ _ _ p r Hs) by done. simpl.
        by intros [-> _]%sends_broadcast_log_inv.
      * unfold on_message. cbv [mbind M_bind gets]. rewrite Hs.
        by intros ?%elem_of_nil.
      * unfold on_message. cbv [mbind M_bind gets]. rewrite Hs.
        by intros ?%elem_of_nil.
Qed.

(** ** The preview URL of the facade *)

(** X25: the URL [getPreviewUrl] hands out is answered by the index route
    of the facade's own session.  In a state the server has reached, once
    [fs.writeFile("index.html", ...)] of the facade has resolved, a GET of
    that URL is answered by sending the file [/tmp/<previewId>/index.html];
    and as long as the server has no session for the identifier, it is
    answered 404 "Preview not found". *)
Theorem preview_url_serves_index (this : FlyContainer.t)
    (content uuid1 uuid2 : string) (st : server) :
  reachable st →
  FlyContainer.previewId this ≠ "" →
  let get := Http (Request GET (Facade.getPreviewUrl this) None Facade.empty_body)
               uuid2 in
  let index := Path.join (Path.join "/tmp" (FlyContainer.previewId this))
                 "index.html" in
  (containers st !! FlyContainer.previewId this = None →
   step st get = (st, [Respond 404 (Text "Preview not found")], inr ()))
  ∧ ((Facade.writeFile this "index.html" content uuid1 st).2 = inr () →
     let st1 := (Facade.writeFile this "index.html" content uuid1 st).1.1 in
     step st1 get
     = (st1, [FsCall (ExistsSync index); Respond 200 (SendFile index)], inr ())).
Proof.
  intros Hwf%reachable_wf Hid get index. subst get index. split.
  - intros E. unfold step, handle, app, try_catch, Facade.getPreviewUrl.
    rewrite route_preview_index by done.
    unfold preview_index. cbv [mbind M_bind gets]. by rewrite E.
  - unfold Facade.writeFile.
    set (b := JsonBody (Some "index.html") (Some content) None None None None).
    set (req := Request POST _ None b).
    assert (wf (handle (Http req uuid1) st).1.1) as Hwf1.
    { by apply (proj1 (wf_handle (Http req uuid1) st)). }
    simpl in Hwf1.
    destruct (app_response req uuid1 st)
      as (status & rb & Hresp & Hfirst & Hsame & Hthrown).
    unfold req in Hsame, Hthrown. rewrite route_write in Hsame, Hthrown by done.
    destruct (files_write_cases st (FlyContainer.previewId this) b)
      as [(filePath & content' & r & c & Hp & Hc & Hne & Hres & _ & E & Hr & _ & Hex)
         |[(status' & msg & Hr' & Hst & Hres)|(_ & e & Hres)]].
    + specialize (Hsame Hres). fold req in Hsame.
      destruct (app req uuid1 st) as [[st1 log1] res1] eqn:Happ.
      simpl in Hfirst, Hwf1. rewrite Hfirst.
      destruct (FlyContainer.ok status); [|done]. intros _. simpl.
      rewrite <- Hsame in E, Hr, Hex. simpl in E, Hr, Hex.
      injection Hp as <-.
      assert (dir c = Path.join "/tmp" (FlyContainer.previewId this)) as Hdir.
      { apply (wf_session_dir st1); [done|]. unfold session. rewrite E. simpl.
        exact Hr. }
      rewrite Hdir in Hex.
      unfold step, handle, app, try_catch, Facade.getPreviewUrl.
      rewrite route_preview_index by done.
      unfold preview_index. cbv [mbind M_bind gets deref existsSync].
      rewrite E, Hr. cbn [fst snd]. by rewrite Hdir, Hex.
    + specialize (Hsame Hres). fold req in Hsame.
      destruct (app req uuid1 st) as [[st1 log1] res1] eqn:Happ.
      simpl in Hfirst, Hresp. rewrite Hfirst.
      rewrite <- Hsame in Hr'. simpl in Hr'. rewrite Hresp in Hr'.
      injection Hr' as -> ->. by destruct Hst as [-> | ->].
    + specialize (Hthrown e Hres). subst status.
      destruct (app req uuid1 st) as [[st1 log1] res1] eqn:Happ.
      simpl in Hfirst. by rewrite Hfirst.
Qed.

Lemma preview_url_serves_index_witness :
  let this := FlyContainer.Make "/home/project" "s1" in
  let st1 := (Facade.writeFile this "index.html" "<p>hi</p>" "u1" (initial ∅)).1.1 in
  step st1 (Http (Request GET ["preview"; "s1"] None Facade.empty_body) "u2")
  = (st1, [FsCall (ExistsSync "/tmp/s1/index.html");
           Respond 200 (SendFile "/tmp/s1/index.html")], inr ()).
Proof.
  intros this st1.
  destruct (preview_url_serves_index this "<p>hi</p>" "u1" "u2" (initial ∅))
    as [_ H].
  - exists ∅, [], []. reflexivity.
  - done.
  - apply H. vm_compute. reflexivity.
Defined.

(** ** Who is notified changes only with the sockets *)

(** X26: a request, a socket message, a chunk of output and the completion
    of a child never change who would be notified for any session: after
    each of them the open clients of every identifier are who they were.
    Only connections, the closing of sockets and the clean-up check change
    the recipients of a session. *)
Theorem requests_do_not_change_recipients (st : server) (i : input)
    (previewId : string) :
  match i with
  | Http _ _ | Message _ _ | ChildData _ _ _ | ExecDone _ _ _ _ => True
  | _ => False
  end →
  recipients (step st i).1.1 previewId = recipients st previewId.
Proof.
  intros Hi.
  assert (respects same_recipients any_effect (handle i)) as Hr.
  { destruct i; try done; simpl;
      [ apply respects_on_message | apply respects_app
      | apply respects_on_child_data | apply respects_on_exec_done ];
      unfold any_effect;
      first [ done | apply same_recipients_refl | apply same_recipients_trans
            | apply recipients_disk | apply recipients_fields
            | apply recipients_created | apply recipients_spawn
            | apply recipients_completed ]. }
  apply (proj1 (Hr st)).
Qed.

Lemma requests_do_not_change_recipients_witness :
  let st := (run (initial ∅) [Connection (Some "s1"); Connection (Some "s2")]).1.1 in
  recipients (step st (Http (write_request "s1" "a.txt" "x") "u")).1.1 "s1"
  = recipients st "s1".
Proof.
  intros st.
  by apply (requests_do_not_change_recipients st
              (Http (write_request "s1" "a.txt" "x") "u") "s1").
Defined.
